(** * goji/param: the bracket-key decoder, embedded and verified

    The development follows the three source files of the package:
    the entry point [Parse] (param.go), the struct metadata cache
    [cacheStruct], [extractName], [extractHandler], [parseStructField]
    (struct.go) and the recursive decoder [parse] with its leaf and
    container parsers (parse.go).

    Conventions of the embedding.
    - Go strings are byte strings: [string].  Indices returned by
      [strings.IndexRune] are [Z], with [-1] for "not found", as in Go.
    - A [reflect.Type] is a term of [reflect.rtype]; struct types are named
      and their fields are looked up in the table of declared types, so
      that recursive declarations ([type Crazy struct { A *Crazy ... }]) are
      expressible.
    - A [reflect.Value] handed to a parser is a settable slot: its static
      type and its current content.  A parser returns the error (or nil),
      the content of the slot when it returns (Go mutates it in place, also
      on the error paths) and the state of the package-level cache.
    - Pointers own their pointee; no two slots of a target alias.
    - reflect's read-only flag on fields reached through an unexported
      embedded field is outside the model.
    - The package-level variable [cache] is threaded explicitly; the lock
      around it is not modelled (calls are sequential).
    - Run-time panics are outcomes of their own: an index or a slice
      bound out of range, a reflect method called on a Value of the wrong
      kind or on the zero Value.
    - Recursion of [parse] is by fuel: one unit per Go call. *)

From Stdlib Require Import ZArith String Ascii List Lia Bool.
From stdpp Require Import base option list gmap strings.

Set Warnings "-register-all".
Local Open Scope string_scope.

(** ** Go string primitives used by the package *)
Module strings.

(** [s[n:]] *)
Fixpoint from (n : nat) (s : string) : string :=
  match n, s with
  | O, _ => s
  | S n', String _ r => from n' r
  | S _, EmptyString => EmptyString
  end.

(** [s[:n]] *)
Fixpoint upto (n : nat) (s : string) : string :=
  match n, s with
  | O, _ => EmptyString
  | S n', String a r => String a (upto n' r)
  | S _, EmptyString => EmptyString
  end.

(** [s[i:j]] *)
Definition slice (i j : nat) (s : string) : string := upto (j - i) (from i s).

(** [strings.IndexRune(s, c)] for a rune below [utf8.RuneSelf]: the byte
    index of the first [c] in [s], or [-1]. *)
Fixpoint IndexRune (s : string) (c : ascii) : Z :=
  match s with
  | EmptyString => (-1)%Z
  | String a r =>
      if Ascii.eqb a c then 0%Z
      else let i := IndexRune r c in
           if (i =? -1)%Z then (-1)%Z else (i + 1)%Z
  end.

Definition digit (n : nat) : ascii := ascii_of_nat (48 + n).

(** Decimal rendering of a non-negative [int], as [%d] prints it. *)
Fixpoint itoa_aux (fuel n : nat) (acc : string) : string :=
  match fuel with
  | O => acc
  | S fuel' =>
      let acc' := String (digit (n mod 10)) acc in
      if (n / 10 =? 0)%nat then acc' else itoa_aux fuel' (n / 10) acc'
  end.

Definition itoa (n : nat) : string := itoa_aux (S n) n EmptyString.

End strings.

(** ** The part of package strconv the decoder calls *)
Module strconv.

(** The [Err] field of a [NumError]: the two causes the base-10 parsers
    report. *)
Inductive NumErr : Type := ErrSyntax | ErrRange.

(** [strconv.IntSize], on a 64-bit platform. *)
Definition IntSize : Z := 64.

Definition maxUint64 : Z := 2 ^ 64 - 1.

(** The digit loop of [ParseUint] for base 10; [n] is the accumulator, a
    [uint64] whose wrap-around is written out. *)
Fixpoint ParseUint_loop (s : string) (maxVal : Z) (n : Z) : NumErr + Z :=
  match s with
  | EmptyString => inr n
  | String c r =>
      let code := Z.of_nat (nat_of_ascii c) in
      if ((48 <=? code) && (code <=? 57))%Z then
        let d := (code - 48)%Z in
        let cutoff := (maxUint64 / 10 + 1)%Z in
        if (cutoff <=? n)%Z then inl ErrRange
        else
          let n0 := (n * 10)%Z in
          let n1 := ((n0 + d) mod 2 ^ 64)%Z in
          if ((n1 <? n0) || (maxVal <? n1))%Z then inl ErrRange
          else ParseUint_loop r maxVal n1
      else inl ErrSyntax
  end.

(** [strconv.ParseUint(s, 10, bitSize)] *)
Definition ParseUint (s : string) (bitSize : Z) : NumErr + Z :=
  if String.eqb s "" then inl ErrSyntax
  else
    let bitSize := if (bitSize =? 0)%Z then IntSize else bitSize in
    let maxVal := (2 ^ bitSize - 1)%Z in
    ParseUint_loop s maxVal 0.

(** [strconv.ParseInt(s, 10, bitSize)] *)
Definition ParseInt (s : string) (bitSize : Z) : NumErr + Z :=
  match s with
  | EmptyString => inl ErrSyntax
  | String c r =>
      let neg := Ascii.eqb c "-" in
      let s1 := if Ascii.eqb c "+" || neg then r else s in
      match ParseUint s1 bitSize with
      | inl ErrSyntax => inl ErrSyntax
      | inl ErrRange =>
          (* [un] is then the largest value of the size, beyond both cutoffs *)
          inl ErrRange
      | inr un =>
          let bitSize := if (bitSize =? 0)%Z then IntSize else bitSize in
          let cutoff := (2 ^ (bitSize - 1))%Z in
          if negb neg && (cutoff <=? un)%Z then inl ErrRange
          else if neg && (cutoff <? un)%Z then inl ErrRange
          else inr (if neg then (- un)%Z else un)
      end
  end.

End strconv.

(** ** The part of package reflect the decoder calls *)
Module reflect.

Inductive Kind : Type :=
  | Invalid | Bool
  | Int | Int8 | Int16 | Int32 | Int64
  | Uint | Uint8 | Uint16 | Uint32 | Uint64 | Uintptr
  | Float32 | Float64 | Complex64 | Complex128
  | Array | Chan | Func | Interface | Map | Ptr | Slice | String | Struct
  | UnsafePointer.

#[global] Instance Kind_eq_dec : EqDecision Kind.
Proof. solve_decision. Defined.

Inductive IntKind : Type := KInt | KInt8 | KInt16 | KInt32 | KInt64.
Inductive UintKind : Type := KUint | KUint8 | KUint16 | KUint32 | KUint64.
Inductive FloatKind : Type := KFloat32 | KFloat64.
Inductive ComplexKind : Type := KComplex64 | KComplex128.

(** A [reflect.Type].  [TStruct name] is the struct type declared under
    [name]; its fields live in the table of declarations.  [TDefined name u
    tu] is a defined type ([type name u]) of underlying type [u]; [tu] says
    whether the method set of its pointer type has
    [UnmarshalText([]byte) error]. *)
Inductive rtype : Type :=
  | TBool
  | TInt (k : IntKind)
  | TUint (k : UintKind)
  | TUintptr
  | TFloat (k : FloatKind)
  | TComplex (k : ComplexKind)
  | TString
  | TArray (len : nat) (elem : rtype)
  | TChan (elem : rtype)
  | TFunc (signature : string)
  | TInterface (name : string)
  | TUnsafePointer
  | TMap (key elem : rtype)
  | TPtr (elem : rtype)
  | TSlice (elem : rtype)
  | TStruct (name : string)
  | TDefined (name : string) (underlying : rtype) (tu : bool).

#[global] Instance IntKind_eq_dec : EqDecision IntKind.
Proof. solve_decision. Defined.
#[global] Instance UintKind_eq_dec : EqDecision UintKind.
Proof. solve_decision. Defined.
#[global] Instance FloatKind_eq_dec : EqDecision FloatKind.
Proof. solve_decision. Defined.
#[global] Instance ComplexKind_eq_dec : EqDecision ComplexKind.
Proof. solve_decision. Defined.
#[global] Instance rtype_eq_dec : EqDecision rtype.
Proof.
  unfold EqDecision, Decision. decide equality;
    first [ apply String.string_dec | apply Nat.eq_dec | apply Bool.bool_dec
          | apply IntKind_eq_dec | apply UintKind_eq_dec
          | apply FloatKind_eq_dec | apply ComplexKind_eq_dec ].
Defined.

(** [t.Kind()] *)
Fixpoint Kind_of (t : rtype) : Kind :=
  match t with
  | TBool => Bool
  | TInt KInt => Int | TInt KInt8 => Int8 | TInt KInt16 => Int16
  | TInt KInt32 => Int32 | TInt KInt64 => Int64
  | TUint KUint => Uint | TUint KUint8 => Uint8 | TUint KUint16 => Uint16
  | TUint KUint32 => Uint32 | TUint KUint64 => Uint64
  | TUintptr => Uintptr
  | TFloat KFloat32 => Float32 | TFloat KFloat64 => Float64
  | TComplex KComplex64 => Complex64 | TComplex KComplex128 => Complex128
  | TString => String
  | TArray _ _ => Array
  | TChan _ => Chan
  | TFunc _ => Func
  | TInterface _ => Interface
  | TUnsafePointer => UnsafePointer
  | TMap _ _ => Map
  | TPtr _ => Ptr
  | TSlice _ => Slice
  | TStruct _ => Struct
  | TDefined _ u _ => Kind_of u
  end.

(** [t.Elem()]; [None] where Go panics (no element type). *)
Fixpoint Elem (t : rtype) : option rtype :=
  match t with
  | TArray _ e | TChan e | TMap _ e | TPtr e | TSlice e => Some e
  | TDefined _ u _ => Elem u
  | _ => None
  end.

(** [t.Key()]; [None] where Go panics (not a map). *)
Fixpoint Key (t : rtype) : option rtype :=
  match t with
  | TMap k _ => Some k
  | TDefined _ u _ => Key u
  | _ => None
  end.

(** [t.Bits()]; [None] where Go panics (not a sized numeric kind). *)
Definition Bits (t : rtype) : option Z :=
  match Kind_of t with
  | Int | Uint | Uintptr => Some strconv.IntSize
  | Int8 | Uint8 => Some 8%Z
  | Int16 | Uint16 => Some 16%Z
  | Int32 | Uint32 | Float32 => Some 32%Z
  | Int64 | Uint64 | Float64 | Complex64 => Some 64%Z
  | Complex128 => Some 128%Z
  | _ => None
  end.

(** [reflect.PtrTo(t)] *)
Definition PtrTo (t : rtype) : rtype := TPtr t.

(** [t.Implements(textUnmarshalerType)], which the package asks of pointer
    types only: the pointer to a defined type implements the interface
    when the defined type declares [UnmarshalText]. *)
Definition Implements_textUnmarshaler (t : rtype) : bool :=
  match t with
  | TPtr (TDefined _ _ tu) => tu
  | _ => false
  end.

(** A struct tag, already split into its [key:"value"] pairs. *)
Definition StructTag : Type := list (string * string).

(** [tag.Get(key)] *)
Fixpoint Get (tag : StructTag) (key : string) : string :=
  match tag with
  | [] => ""
  | (k, v) :: rest => if decide (k = key) then v else Get rest key
  end.

Record StructField : Type := mkField {
  Name : string;
  PkgPath : string;
  Typ : rtype;
  Tag : StructTag;
  Anonymous : bool
}.

(** The struct declarations of the program: struct name to fields. *)
Definition Decls : Type := string -> list StructField.

(** The name of the struct a type of kind [Struct] is declared as. *)
Fixpoint struct_name (t : rtype) : option string :=
  match t with
  | TStruct n => Some n
  | TDefined _ u _ => struct_name u
  | _ => None
  end.

(** The fields [t.Field(0)], ..., [t.Field(t.NumField()-1)]. *)
Definition Fields (decls : Decls) (t : rtype) : list StructField :=
  match struct_name t with
  | Some n => decls n
  | None => []
  end.

(** The content of a slot.  A float is its IEEE bit pattern; a map of
    string kind keys is [nil] or a finite map; a struct holds the fields
    that were written, by index, the others having their zero value. *)
Inductive value : Type :=
  | VBool (b : bool)
  | VInt (i : Z)
  | VUint (u : Z)
  | VFloat (bits : Z)
  | VString (s : string)
  | VMap (m : option (gmap string value))
  | VPtr (p : option value)
  | VSlice (s : option (list value))
  | VStruct (fs : gmap nat value)
  | VOther (data : string).

(** [reflect.Zero(t)] as a content. *)
Fixpoint Zero (t : rtype) : value :=
  match t with
  | TBool => VBool false
  | TInt _ => VInt 0
  | TUint _ | TUintptr => VUint 0
  | TFloat _ => VFloat 0
  | TString => VString ""
  | TMap _ _ => VMap None
  | TPtr _ => VPtr None
  | TSlice _ => VSlice None
  | TStruct _ => VStruct ∅
  | TDefined _ u _ => Zero u
  | TComplex _ | TArray _ _ | TChan _ | TFunc _ | TInterface _
  | TUnsafePointer => VOther ""
  end.

(** What [MapIndex] returns: the zero Value ([None]) or a copy of the
    element with its settable flag. *)
Definition MapValue : Type := option (value * bool).

(** [m.MapIndex(k)]: the copy it returns is never addressable. *)
Definition MapIndex (m : gmap string value) (k : string) : MapValue :=
  match m !! k with
  | Some e => Some (e, false)
  | None => None
  end.

Definition IsValid (r : MapValue) : bool :=
  match r with Some _ => true | None => false end.

Definition CanSet (r : MapValue) : bool :=
  match r with Some (_, s) => s | None => false end.

(** [v.Field(i)] of a struct content: the stored field or its zero value. *)
Definition FieldValue (fs : gmap nat value) (i : nat) (ft : rtype) : value :=
  match fs !! i with
  | Some x => x
  | None => Zero ft
  end.

(** [v.SetBool(b)], [v.SetInt(i)], [v.SetUint(u)], [v.SetFloat(f)] and
    [v.SetString(s)] on a settable slot of type [t]: the new content, or
    [None] where Go panics because the kind of [t] is not the setter's. *)
Definition SetBool (t : rtype) (b : bool) : option value :=
  match Kind_of t with
  | Bool => Some (VBool b)
  | _ => None
  end.

Definition SetInt (t : rtype) (i : Z) : option value :=
  match Kind_of t with
  | Int | Int8 | Int16 | Int32 | Int64 => Some (VInt i)
  | _ => None
  end.

Definition SetUint (t : rtype) (u : Z) : option value :=
  match Kind_of t with
  | Uint | Uint8 | Uint16 | Uint32 | Uint64 | Uintptr => Some (VUint u)
  | _ => None
  end.

Definition SetFloat (t : rtype) (bits : Z) : option value :=
  match Kind_of t with
  | Float32 | Float64 => Some (VFloat bits)
  | _ => None
  end.

Definition SetString (t : rtype) (s : string) : option value :=
  match Kind_of t with
  | String => Some (VString s)
  | _ => None
  end.

(** A [reflect.Value] as [reflect.ValueOf] builds it from an [interface{}]:
    [None] is the zero Value (of a nil interface), otherwise the dynamic
    type and the content. *)
Definition Value : Type := option (rtype * value).

Definition ValueOf (i : option (rtype * value)) : Value := i.

(** [v.Kind()]: [Invalid] for the zero Value. *)
Definition VKind (v : Value) : Kind :=
  match v with
  | Some (t, _) => Kind_of t
  | None => Invalid
  end.

(** [v.Type()]; [None] where Go panics: on the zero Value. *)
Definition VType (v : Value) : option rtype :=
  match v with
  | Some (t, _) => Some t
  | None => None
  end.

(** [v.IsNil()] for the kinds the decoder asks it of. *)
Definition IsNil (x : value) : bool :=
  match x with
  | VPtr None | VMap None | VSlice None => true
  | _ => false
  end.

Definition VIsNil (v : Value) : bool :=
  match v with
  | Some (_, x) => IsNil x
  | None => false
  end.

(** [v.Elem()] of a pointer: the pointee, or the zero Value when the
    pointer is nil. *)
Definition VElem (v : Value) : Value :=
  match v with
  | Some (t, VPtr (Some x)) =>
      match Elem t with
      | Some te => Some (te, x)
      | None => None
      end
  | _ => None
  end.

End reflect.

(** ** Package param *)
Module param.

(** *** Errors *)

Inductive SyntaxErrorSubtype : Type :=
  | MissingOpeningBracket
  | MissingClosingBracket.

(** The [Hint] of an [InvalidParseError]: a literal, or the arguments of
    the [fmt.Sprintf] that renders it. *)
Inductive Hint : Type :=
  | NoHint
  | HintText (s : string)
  | HintMapKeys (key : reflect.rtype)
      (* "map keys must be strings, not %v", t.Key() *)
  | HintField (field : string) (s : reflect.rtype).
      (* "field %q in struct %v", sf.Name, s *)

(** The [Err] a [ValueError] wraps. *)
Inductive Cause : Type :=
  | NumCause (e : strconv.NumErr)
  | TextCause (msg : string).

(** Modelled from the spec: the error types of the package (section 7 of
    the spec; their declarations are in a file that is not under src/).
    Each constructor carries the fields the struct literals of the source
    fill in. *)
Inductive error : Type :=
  | InvalidParseError (Type_ : reflect.rtype) (hint : Hint)
  | KeyError (FullKey Key : string) (Type_ : reflect.rtype) (Field : string)
  | NestingError (Key : string) (Type_ : reflect.rtype) (Nesting : string)
  | SingletonError (Key : string) (Type_ : reflect.rtype)
      (Values : list string)
  | SyntaxError (Key : string) (Subtype : SyntaxErrorSubtype)
      (ErrorPart : string)
  | ValueError (Key : string) (Type_ : reflect.rtype) (Err : option Cause).

(** *** The struct cache (struct.go) *)

(** The parse functions a cache line can point to. *)
Inductive handler : Type :=
  | fn_parseTextUnmarshaler
  | fn_parseBool
  | fn_parseInt
  | fn_parseUint
  | fn_parseFloat
  | fn_parseMap
  | fn_parsePtr
  | fn_parseSlice
  | fn_parseString
  | fn_parseStruct.

Module cacheLine.
Record t : Type := mk {
  offset : nat;
  parse : handler
}.
End cacheLine.

Abbreviation structCache := (gmap string cacheLine.t).

(** The package-level [cache]: the published struct caches, the most
    recent first. *)
Abbreviation Cache := (list (reflect.rtype * structCache)).

(** [cache[t]] *)
Fixpoint cache_lookup (c : Cache) (t : reflect.rtype) : option structCache :=
  match c with
  | [] => None
  | (t', sc) :: rest => if decide (t' = t) then Some sc else cache_lookup rest t
  end.

(** [cache[t] = sc] *)
Definition cache_store (c : Cache) (t : reflect.rtype) (sc : structCache)
  : Cache := (t, sc) :: c.

(** What a call of a parse function leaves behind: it returned [err] (nil
    is [None]) with the target slot holding [target] and the cache being
    [c]; or it panicked; or the model ran out of fuel. *)
Inductive outcome : Type :=
  | Return (err : option error) (target : reflect.value) (c : Cache)
  | Panics (msg : string)
  | OutOfFuel.

(** The result of a helper: a value, or a run-time panic. *)
Inductive result (A : Type) : Type :=
  | Ok (a : A)
  | Panic (msg : string).
Arguments Ok {A} a.
Arguments Panic {A} msg.

(** The signature of all parse functions:
    [func(key, keytail string, values []string, target reflect.Value) error]. *)
Definition parser : Type :=
  string -> string -> list string -> reflect.rtype -> reflect.value ->
  Cache -> outcome.

Section Decoder.

(** The struct types the program declares. *)
Variable decls : reflect.Decls.

(** [strconv.ParseFloat(s, bitSize)]: the bit pattern of the float, or
    the cause of the failure. *)
Variable ParseFloat : string -> Z -> strconv.NumErr + Z.

(** [UnmarshalText] of the defined type [t], called on a slot of content
    [v] with the text [s]: the error it returns (its message) and the
    content it leaves in the slot. *)
Variable UnmarshalText :
  reflect.rtype -> string -> reflect.value -> option string * reflect.value.

(** **** parse.go *)

(** [key[:len(key)-len(keytail)]]; [None] where the slice expression
    panics: when the tail is longer than the key. *)
Definition kpath (key keytail : string) : option string :=
  if (String.length keytail <=? String.length key)%nat
  then Some (strings.upto (String.length key - String.length keytail) key)
  else None.

(** The error [mk (kpath key keytail)], or the panic of [kpath]. *)
Definition at_kpath (key keytail : string) (mk : string -> error)
  : result error :=
  match kpath key keytail with
  | Some path => Ok (mk path)
  | None => Panic "slice bounds out of range"
  end.

(** [return err] with an error built at [kpath(key, keytail)]. *)
Definition fail (e : result error) (target : reflect.value) (c : Cache)
  : outcome :=
  match e with
  | Ok err => Return (Some err) target c
  | Panic msg => Panics msg
  end.

Definition primitive (key keytail : string) (tipe : reflect.rtype)
    (values : list string) : result (option error) :=
  if decide (keytail ≠ "") then
    match at_kpath key keytail (fun path => NestingError path tipe keytail) with
    | Ok err => Ok (Some err)
    | Panic msg => Panic msg
    end
  else if decide (length values ≠ 1) then
    match at_kpath key keytail (fun path => SingletonError path tipe values) with
    | Ok err => Ok (Some err)
    | Panic msg => Panic msg
    end
  else Ok None.

Definition keyed (tipe : reflect.rtype) (key keytail : string)
  : result (error + (string * string)) :=
  match keytail with
  | String "[" _ =>
      let idx := strings.IndexRune keytail "]" in
      if (idx =? -1)%Z then
        match at_kpath key keytail (fun path =>
                SyntaxError path MissingClosingBracket (strings.from 1 keytail))
        with
        | Ok err => Ok (inl err)
        | Panic msg => Panic msg
        end
      else
        Ok (inr (strings.slice 1 (Z.to_nat idx) keytail,
                 strings.from (Z.to_nat idx + 1) keytail))
  | _ =>
      match at_kpath key keytail (fun path =>
              SyntaxError path MissingOpeningBracket keytail)
      with
      | Ok err => Ok (inl err)
      | Panic msg => Panic msg
      end
  end.

(** The result of a setter: the slot's new content, or the panic. *)
Definition set_or_panic (r : option reflect.value) (c : Cache) : outcome :=
  match r with
  | Some v => Return None v c
  | None => Panics "reflect: call of a setter on a Value of another kind"
  end.

Definition parseTextUnmarshaler : parser :=
  fun key keytail values t target c =>
  match primitive key keytail t values with
  | Panic msg => Panics msg
  | Ok (Some err) => Return (Some err) target c
  | Ok None =>
      match values with
      | [] => Panics "index out of range"
      | v0 :: _ =>
          match UnmarshalText t v0 target with
          | (Some msg, target') =>
              fail (at_kpath key keytail (fun path =>
                      ValueError path t (Some (TextCause msg)))) target' c
          | (None, target') => Return None target' c
          end
      end
  end.

Definition parseBool : parser :=
  fun key keytail values t target c =>
  match primitive key keytail t values with
  | Panic msg => Panics msg
  | Ok (Some err) => Return (Some err) target c
  | Ok None =>
      match values with
      | [] => Panics "index out of range"
      | v0 :: _ =>
          if decide (v0 = "true" ∨ v0 = "1" ∨ v0 = "on") then
            set_or_panic (reflect.SetBool t true) c
          else if decide (v0 = "false" ∨ v0 = "0" ∨ v0 = "") then
            set_or_panic (reflect.SetBool t false) c
          else
            fail (at_kpath key keytail (fun path => ValueError path t None))
              target c
      end
  end.

Definition parseInt : parser :=
  fun key keytail values t target c =>
  match primitive key keytail t values with
  | Panic msg => Panics msg
  | Ok (Some err) => Return (Some err) target c
  | Ok None =>
      match values, reflect.Bits t with
      | [], _ => Panics "index out of range"
      | _, None => Panics "reflect: Bits of non-arithmetic Type"
      | v0 :: _, Some bits =>
          match strconv.ParseInt v0 bits with
          | inl e =>
              fail (at_kpath key keytail (fun path =>
                      ValueError path t (Some (NumCause e)))) target c
          | inr i => set_or_panic (reflect.SetInt t i) c
          end
      end
  end.

Definition parseUint : parser :=
  fun key keytail values t target c =>
  match primitive key keytail t values with
  | Panic msg => Panics msg
  | Ok (Some err) => Return (Some err) target c
  | Ok None =>
      match values, reflect.Bits t with
      | [], _ => Panics "index out of range"
      | _, None => Panics "reflect: Bits of non-arithmetic Type"
      | v0 :: _, Some bits =>
          match strconv.ParseUint v0 bits with
          | inl e =>
              fail (at_kpath key keytail (fun path =>
                      ValueError path t (Some (NumCause e)))) target c
          | inr i => set_or_panic (reflect.SetUint t i) c
          end
      end
  end.

Definition parseFloat : parser :=
  fun key keytail values t target c =>
  match primitive key keytail t values with
  | Panic msg => Panics msg
  | Ok (Some err) => Return (Some err) target c
  | Ok None =>
      match values, reflect.Bits t with
      | [], _ => Panics "index out of range"
      | _, None => Panics "reflect: Bits of non-arithmetic Type"
      | v0 :: _, Some bits =>
          match ParseFloat v0 bits with
          | inl e =>
              fail (at_kpath key keytail (fun path =>
                      ValueError path t (Some (NumCause e)))) target c
          | inr f => set_or_panic (reflect.SetFloat t f) c
          end
      end
  end.

Definition parseString : parser :=
  fun key keytail values t target c =>
  match primitive key keytail t values with
  | Panic msg => Panics msg
  | Ok (Some err) => Return (Some err) target c
  | Ok None =>
      match values with
      | [] => Panics "index out of range"
      | v0 :: _ => set_or_panic (reflect.SetString t v0) c
      end
  end.

Definition parseSlice_key (kp : string) (i : nat) : string :=
  kp ++ "[" ++ strings.itoa i ++ "]".

(** The loop of [parseSlice] from index [i] on, [rest] being [values[i:]]:
    the slice under construction is returned as the new content of the
    target when the loop ends, and [target] is left as it was when an
    element fails. *)
Fixpoint parseSlice_loop (parse : parser) (kp : string) (te : reflect.rtype)
    (target : reflect.value) (i : nat) (rest : list string)
    (slice : list reflect.value) (c : Cache) : outcome :=
  match rest with
  | [] => Return None (reflect.VSlice (Some slice)) c
  | x :: rest' =>
      match slice !! i with
      | None => Panics "reflect: slice index out of range"
      | Some el =>
          match parse (parseSlice_key kp i) "" [x] te el c with
          | Return None el' c' =>
              parseSlice_loop parse kp te target (S i) rest'
                (<[i := el']> slice) c'
          | Return (Some err) _ c' => Return (Some err) target c'
          | Panics msg => Panics msg
          | OutOfFuel => OutOfFuel
          end
      end
  end.

Definition parseSlice (parse : parser) : parser :=
  fun key keytail values t target c =>
  if decide (keytail ≠ "[]") then
    fail (at_kpath key keytail (fun path => NestingError path t keytail))
      target c
  else
    match reflect.Elem t, kpath key keytail with
    | None, _ => Panics "reflect: Elem of invalid type"
    | _, None => Panics "slice bounds out of range"
    | Some te, Some kp =>
        let slice := replicate (length values) (reflect.Zero te) in
        parseSlice_loop parse kp te target 0 values slice c
    end.

Definition parseMap (parse : parser) : parser :=
  fun key keytail values t target c =>
  match keyed t key keytail with
  | Panic msg => Panics msg
  | Ok (inl err) => Return (Some err) target c
  | Ok (inr (mapkey, maptail)) =>
      match reflect.Key t, reflect.Elem t with
      | Some tk, Some te =>
          if decide (reflect.Kind_of tk = reflect.String) then
            let mk := mapkey in
            match target with
            | reflect.VMap m =>
                (* if target.IsNil() { target.Set(reflect.MakeMap(t)) } *)
                let m := match m with None => ∅ | Some m => m end in
                let val := reflect.MapIndex m mk in
                let val :=
                  if negb (reflect.IsValid val) || negb (reflect.CanSet val)
                  then reflect.Zero te
                  else match val with
                       | Some (e, _) => e
                       | None => reflect.Zero te
                       end in
                match parse key maptail values te val c with
                | Return None val' c' =>
                    Return None (reflect.VMap (Some (<[mk := val']> m))) c'
                | Return (Some err) _ c' =>
                    Return (Some err) (reflect.VMap (Some m)) c'
                | Panics msg => Panics msg
                | OutOfFuel => OutOfFuel
                end
            | _ => Panics "reflect: call of a map method on a non-map Value"
            end
          else
            Return (Some (InvalidParseError t (HintMapKeys tk))) target c
      | _, _ => Panics "reflect: Key of non-map type"
      end
  end.

Definition parsePtr (parse : parser) : parser :=
  fun key keytail values t target c =>
  match reflect.Elem t, target with
  | Some te, reflect.VPtr p =>
      (* if target.IsNil() { target.Set(reflect.New(t.Elem())) } *)
      let pointee := match p with None => reflect.Zero te | Some x => x end in
      match parse key keytail values te pointee c with
      | Return err pointee' c' => Return err (reflect.VPtr (Some pointee')) c'
      | Panics msg => Panics msg
      | OutOfFuel => OutOfFuel
      end
  | _, _ => Panics "reflect: call of a pointer method on a non-pointer"
  end.

(** **** struct.go *)

Definition extractName (sf : reflect.StructField) : string :=
  let name := reflect.Get (reflect.Tag sf) "param" in
  let name :=
    if decide (name = "") then
      let name := reflect.Get (reflect.Tag sf) "json" in
      let idx := strings.IndexRune name "," in
      if (0 <=? idx)%Z then strings.upto (Z.to_nat idx) name else name
    else name in
  if decide (name = "") then reflect.Name sf else name.

Definition extractHandler (s : reflect.rtype) (sf : reflect.StructField)
  : error + handler :=
  if reflect.Implements_textUnmarshaler (reflect.PtrTo (reflect.Typ sf)) then
    inr fn_parseTextUnmarshaler
  else
    match reflect.Kind_of (reflect.Typ sf) with
    | reflect.Bool => inr fn_parseBool
    | reflect.Int | reflect.Int8 | reflect.Int16 | reflect.Int32
    | reflect.Int64 => inr fn_parseInt
    | reflect.Uint | reflect.Uint8 | reflect.Uint16 | reflect.Uint32
    | reflect.Uint64 => inr fn_parseUint
    | reflect.Float32 | reflect.Float64 => inr fn_parseFloat
    | reflect.Map => inr fn_parseMap
    | reflect.Ptr => inr fn_parsePtr
    | reflect.Slice => inr fn_parseSlice
    | reflect.String => inr fn_parseString
    | reflect.Struct => inr fn_parseStruct
    | _ => inl (InvalidParseError s (HintField (reflect.Name sf) s))
    end.

(** The loop of [cacheStruct] from field [i] on, [fs] being the fields
    [t.Field(i)], ... and [sc] the table built so far. *)
Fixpoint cacheStruct_loop (t : reflect.rtype) (i : nat)
    (fs : list reflect.StructField) (sc : structCache) : error + structCache :=
  match fs with
  | [] => inr sc
  | sf :: rest =>
      if bool_decide (reflect.PkgPath sf ≠ "") && negb (reflect.Anonymous sf)
      then cacheStruct_loop t (S i) rest sc
      else
        let name := extractName sf in
        if decide (name ≠ "-") then
          match extractHandler t sf with
          | inl err => inl err
          | inr h =>
              cacheStruct_loop t (S i) rest
                (<[name := cacheLine.mk i h]> sc)
          end
        else cacheStruct_loop t (S i) rest sc
  end.

(** The table [cacheStruct] builds on a cache miss. *)
Definition buildStruct (t : reflect.rtype) : error + structCache :=
  cacheStruct_loop t 0 (reflect.Fields decls t) ∅.

Definition cacheStruct (t : reflect.rtype) (c : Cache)
  : (error + structCache) * Cache :=
  match cache_lookup c t with
  | Some sc => (inr sc, c)
  | None =>
      match buildStruct t with
      | inl err => (inl err, c)
      | inr sc => (inr sc, cache_store c t sc)
      end
  end.

(** [call] runs the parse function of a cache line. *)
Definition parseStructField (call : handler -> parser) (cache : structCache)
    (key sk keytail : string) (values : list string) (t : reflect.rtype)
    (target : reflect.value) (c : Cache) : outcome :=
  match cache !! sk with
  | None =>
      fail (at_kpath key keytail (fun path => KeyError key path t sk)) target c
  | Some l =>
      match target, reflect.Fields decls t !! cacheLine.offset l with
      | reflect.VStruct fs, Some sf =>
          let ft := reflect.Typ sf in
          let f := reflect.FieldValue fs (cacheLine.offset l) ft in
          match call (cacheLine.parse l) key keytail values ft f c with
          | Return err f' c' =>
              Return err (reflect.VStruct (<[cacheLine.offset l := f']> fs)) c'
          | Panics msg => Panics msg
          | OutOfFuel => OutOfFuel
          end
      | _, _ => Panics "reflect: Field index out of range"
      end
  end.

Definition parseStruct (call : handler -> parser) : parser :=
  fun key keytail values t target c =>
  match keyed t key keytail with
  | Panic msg => Panics msg
  | Ok (inl err) => Return (Some err) target c
  | Ok (inr (sk, skt)) =>
      match cacheStruct t c with
      | (inl err, c') => Return (Some err) target c'
      | (inr cache, c') =>
          parseStructField call cache key sk skt values t target c'
      end
  end.

(** The dispatcher [parse], and [call h], the parse function a cache line
    holds; one unit of fuel per call. *)
Fixpoint parse (fuel : nat) (key keytail : string) (values : list string)
    (t : reflect.rtype) (target : reflect.value) (c : Cache) {struct fuel}
  : outcome :=
  match fuel with
  | O => OutOfFuel
  | S n =>
      if reflect.Implements_textUnmarshaler (reflect.PtrTo t) then
        parseTextUnmarshaler key keytail values t target c
      else
        match reflect.Kind_of t with
        | reflect.Bool => parseBool key keytail values t target c
        | reflect.Int | reflect.Int8 | reflect.Int16 | reflect.Int32
        | reflect.Int64 => parseInt key keytail values t target c
        | reflect.Uint | reflect.Uint8 | reflect.Uint16 | reflect.Uint32
        | reflect.Uint64 => parseUint key keytail values t target c
        | reflect.Float32 | reflect.Float64 =>
            parseFloat key keytail values t target c
        | reflect.Map => parseMap (parse n) key keytail values t target c
        | reflect.Ptr => parsePtr (parse n) key keytail values t target c
        | reflect.Slice => parseSlice (parse n) key keytail values t target c
        | reflect.String => parseString key keytail values t target c
        | reflect.Struct => parseStruct (call n) key keytail values t target c
        | _ => Return (Some (InvalidParseError t NoHint)) target c
        end
  end
with call (fuel : nat) (h : handler) (key keytail : string)
    (values : list string) (t : reflect.rtype) (target : reflect.value)
    (c : Cache) {struct fuel} : outcome :=
  match fuel with
  | O => OutOfFuel
  | S n =>
      match h with
      | fn_parseTextUnmarshaler =>
          parseTextUnmarshaler key keytail values t target c
      | fn_parseBool => parseBool key keytail values t target c
      | fn_parseInt => parseInt key keytail values t target c
      | fn_parseUint => parseUint key keytail values t target c
      | fn_parseFloat => parseFloat key keytail values t target c
      | fn_parseMap => parseMap (parse n) key keytail values t target c
      | fn_parsePtr => parsePtr (parse n) key keytail values t target c
      | fn_parseSlice => parseSlice (parse n) key keytail values t target c
      | fn_parseString => parseString key keytail values t target c
      | fn_parseStruct => parseStruct (call n) key keytail values t target c
      end
  end.

(** **** param.go *)

(** The split of a key at its first bracket, in the body of the loop of
    [Parse]: [sk, keytail := key, ""] and, when the key has a bracket at
    [i], [sk, keytail = sk[:i], sk[i:]]. *)
Definition split_key (key : string) : string * string :=
  let i := strings.IndexRune key "[" in
  if negb (i =? -1)%Z
  then (strings.upto (Z.to_nat i) key, strings.from (Z.to_nat i) key)
  else (key, "").

(** The loop of [Parse] over the pairs of [params], in the order the
    iteration visits them; [el] is the struct the target points to. *)
Fixpoint Parse_loop (fuel : nat) (cache : structCache)
    (params : list (string * list string)) (t : reflect.rtype)
    (el : reflect.value) (c : Cache) : outcome :=
  match params with
  | [] => Return None el c
  | (key, values) :: rest =>
      let '(sk, keytail) := split_key key in
      match parseStructField (call fuel) cache key sk keytail values t el c with
      | Return None el' c' => Parse_loop fuel cache rest t el' c'
      | o => o
      end
  end.

(** [Parse(params, target)]: [target] is the content of the [interface{}]
    ([None] for nil); the outcome holds the content of [target] when
    [Parse] returns. *)
Definition Parse (fuel : nat) (params : list (string * list string))
    (target : option (reflect.rtype * reflect.value)) (c : Cache) : outcome :=
  let v := reflect.ValueOf target in
  if bool_decide (reflect.VKind v ≠ reflect.Ptr)
     || bool_decide (reflect.VKind (reflect.VElem v) ≠ reflect.Struct)
  then
    let hint :=
      if bool_decide (reflect.VKind v = reflect.Ptr) && reflect.VIsNil v
      then "target may not be a nil pointer"
      else "target must be a pointer to a struct" in
    match reflect.VType v, target with
    | Some ty, Some (_, x) =>
        Return (Some (InvalidParseError ty (HintText hint))) x c
    | _, _ => Panics "reflect: call of reflect.Value.Type on zero Value"
    end
  else
    match reflect.VElem v with
    | Some (t, el) =>
        match cacheStruct t c with
        | (inl err, c') => Return (Some err) (reflect.VPtr (Some el)) c'
        | (inr cache, c') =>
            match Parse_loop fuel cache params t el c' with
            | Return err el' c'' => Return err (reflect.VPtr (Some el')) c''
            | o => o
            end
        end
    | None => Panics "reflect: call of reflect.Value.Type on zero Value"
    end.

End Decoder.

End param.

Import param.

(** ** The types of the package's tests, and stand-ins for foreign code *)
Module Fixture.

Definition exported (name : string) (t : reflect.rtype) : reflect.StructField :=
  reflect.mkField name "" t [] false.

Definition tagged (name : string) (t : reflect.rtype) (tag : reflect.StructTag)
  : reflect.StructField :=
  reflect.mkField name "" t tag false.

Definition int : reflect.rtype := reflect.TInt reflect.KInt.

Definition Sub : reflect.rtype := reflect.TStruct "Sub".
Definition Crazy : reflect.rtype := reflect.TStruct "Crazy".
Definition Time : reflect.rtype :=
  reflect.TDefined "time.Time" (reflect.TStruct "time.Time") true.

(** [struct { Bad chan string }] of TestUnsupportedStructKind, the same
    with the field tagged [param:"-"], [struct { Bad map[int]int }] of
    TestUnsupportedMapKey, and a struct with a map of structs. *)
Definition BadChan : reflect.rtype := reflect.TStruct "BadChan".
Definition SkippedChan : reflect.rtype := reflect.TStruct "SkippedChan".
Definition BadMapKey : reflect.rtype := reflect.TStruct "BadMapKey".
Definition Subs : reflect.rtype := reflect.TStruct "Subs".
Definition Named : reflect.rtype := reflect.TStruct "Named".

Definition decls : reflect.Decls := fun name =>
  if decide (name = "Sub") then
    [ exported "A" int; exported "B" int ]
  else if decide (name = "Crazy") then
    [ exported "A" (reflect.TPtr Crazy);
      exported "B" (reflect.TPtr Crazy);
      exported "Value" int;
      exported "Slice" (reflect.TSlice int);
      exported "Map" (reflect.TMap reflect.TString Crazy) ]
  else if decide (name = "Everything") then
    [ exported "Bool" reflect.TBool;
      exported "Int" int;
      exported "Uint" (reflect.TUint reflect.KUint);
      exported "Float" (reflect.TFloat reflect.KFloat64);
      exported "Map" (reflect.TMap reflect.TString int);
      exported "Slice" (reflect.TSlice int);
      exported "String" reflect.TString;
      exported "Struct" Sub;
      exported "Time" Time;
      exported "PInt" (reflect.TPtr int);
      exported "PStruct" (reflect.TPtr Sub);
      exported "PPInt" (reflect.TPtr (reflect.TPtr int)) ]
  else if decide (name = "BadChan") then
    [ exported "Bad" (reflect.TChan reflect.TString) ]
  else if decide (name = "SkippedChan") then
    [ tagged "Bad" (reflect.TChan reflect.TString) [("param", "-")] ]
  else if decide (name = "BadMapKey") then
    [ exported "Bad" (reflect.TMap int int) ]
  else if decide (name = "Subs") then
    [ exported "M" (reflect.TMap reflect.TString Sub) ]
  else if decide (name = "Named") then
    [ tagged "First" int [("param", "one"); ("json", "uno,omitempty")];
      tagged "Second" int [("json", "two,omitempty")];
      tagged "Third" int [("json", ",omitempty")];
      tagged "Secret" int [("json", "-")] ]
  else [].

(** Stand-in for [strconv.ParseFloat]: it knows no literal.  No example
    below decodes a float. *)
Definition ParseFloat (s : string) (bitSize : Z) : strconv.NumErr + Z :=
  inl strconv.ErrSyntax.

(** Stand-in for the [UnmarshalText] methods: the slot keeps the text. *)
Definition UnmarshalText (t : reflect.rtype) (s : string) (v : reflect.value)
  : option string * reflect.value :=
  (None, reflect.VOther s).

Definition parse := parse decls ParseFloat UnmarshalText.
Definition call := call decls ParseFloat UnmarshalText.
Definition Parse := Parse decls ParseFloat UnmarshalText.

(** [new(t)] as an [interface{}]: a pointer to a zero struct of type [t]. *)
Definition new (t : reflect.rtype) : option (reflect.rtype * reflect.value) :=
  Some (reflect.TPtr t, reflect.VPtr (Some (reflect.VStruct ∅))).

Definition Everything : reflect.rtype := reflect.TStruct "Everything".

(** What [Parse] returned, and the struct it left behind the pointer. *)
Definition run (fuel : nat) (params : list (string * list string))
    (t : reflect.rtype) : option (option error * option reflect.value) :=
  match Parse fuel params (new t) [] with
  | Return err (reflect.VPtr p) _ => Some (err, p)
  | _ => None
  end.

(** Two calls of [Parse] in a row on the same target, a zero struct of
    type [t] at first: what the first returned with, and what the second
    did, started on the target and the cache the first left. *)
Definition run_twice (fuel : nat) (params1 params2 : list (string * list string))
    (t : reflect.rtype)
  : option (option error * reflect.value)
    * option (option error * reflect.value) :=
  match Parse fuel params1 (new t) [] with
  | Return err x c =>
      (Some (err, x),
       match Parse fuel params2 (Some (reflect.TPtr t, x)) c with
       | Return err' x' _ => Some (err', x')
       | _ => None
       end)
  | _ => (None, None)
  end.

(** Selectors into a content: [x.f] by field index, [*x], [x[k]]. *)
Definition field (i : nat) (x : option reflect.value) : option reflect.value :=
  match x with
  | Some (reflect.VStruct fs) => fs !! i
  | _ => None
  end.

Definition deref (x : option reflect.value) : option reflect.value :=
  match x with
  | Some (reflect.VPtr p) => p
  | _ => None
  end.

Definition index (k : string) (x : option reflect.value)
  : option reflect.value :=
  match x with
  | Some (reflect.VMap (Some m)) => m !! k
  | _ => None
  end.

(** The pairs of TestCrazy. *)
Definition crazy_params : list (string * list string) :=
  [ ("A[B][B][A][Value]", ["1"]);
    ("B[A][A][Slice][]", ["3"; "1"; "4"]);
    ("B[Map][hello][A][Value]", ["8"]);
    ("A[Value]", ["2"]);
    ("A[Slice][]", ["9"; "1"; "1"]);
    ("Value", ["42"]) ].

End Fixture.

(** A struct two fields of which resolve to the same name:
    [struct { A int `param:"x"`; B string `param:"x"` }]. *)
Module Shadowed.

Definition Shadow : reflect.rtype := reflect.TStruct "Shadow".

Definition decls : reflect.Decls := fun name =>
  if decide (name = "Shadow") then
    [ Fixture.tagged "A" Fixture.int [("param", "x")];
      Fixture.tagged "B" reflect.TString [("param", "x")] ]
  else [].

End Shadowed.

(** ** Predicates the statements use *)

(** The pointer to [t] implements [encoding.TextUnmarshaler]. *)
Definition textual (t : reflect.rtype) : bool :=
  reflect.Implements_textUnmarshaler (reflect.PtrTo t).

(** The shapes the leaf parsers serve: a type with [UnmarshalText], or one
    of boolean, integer, unsigned, float or string kind. *)
Definition leaf_shaped (t : reflect.rtype) : bool :=
  textual t
  || match reflect.Kind_of t with
     | reflect.Bool
     | reflect.Int | reflect.Int8 | reflect.Int16 | reflect.Int32
     | reflect.Int64
     | reflect.Uint | reflect.Uint8 | reflect.Uint16 | reflect.Uint32
     | reflect.Uint64
     | reflect.Float32 | reflect.Float64
     | reflect.String => true
     | _ => false
     end.

(** What a parser [p] owes a leaf slot of type [t]: a Nesting error on a
    non-empty tail (at the path [kpath] gives: the tail is no longer than
    the key), a Singleton error on an empty tail with zero or several
    values, both leaving the slot and the cache alone; and no write of the
    slot in any other situation than an empty tail with one value. *)
Definition leaf_discipline (p : parser) (t : reflect.rtype) : Prop :=
  forall key keytail values target c,
    (keytail ≠ "" ->
       forall path, kpath key keytail = Some path ->
       p key keytail values t target c
       = Return (Some (NestingError path t keytail)) target c)
    /\ (keytail = "" -> length values ≠ 1 ->
       p key keytail values t target c
       = Return (Some (SingletonError key t values)) target c)
    /\ (forall err target' c',
       p key keytail values t target c = Return err target' c' ->
       target' ≠ target -> keytail = "" /\ length values = 1).

(** The shapes neither [parse] nor [extractHandler] has a case for. *)
Definition unsupported (t : reflect.rtype) : bool :=
  negb (textual t)
  && match reflect.Kind_of t with
     | reflect.Invalid | reflect.Uintptr | reflect.Complex64
     | reflect.Complex128 | reflect.Array | reflect.Chan | reflect.Func
     | reflect.Interface | reflect.UnsafePointer => true
     | _ => false
     end.

(** The fields [cacheStruct] looks at: the exported ones and the embedded
    ones. *)
Definition cached_field (sf : reflect.StructField) : Prop :=
  reflect.PkgPath sf = "" \/ reflect.Anonymous sf = true.

(** [ty] is a type of pointer kind whose pointee type [t] is of struct
    kind: the dynamic type [Parse] wants of its target. *)
Definition struct_pointer (ty t : reflect.rtype) : Prop :=
  reflect.Kind_of ty = reflect.Ptr /\ reflect.Elem ty = Some t
  /\ reflect.Kind_of t = reflect.Struct.

(** The part of a serialization annotation before its first comma, in the
    words of the spec. *)
Fixpoint before_comma (s : string) : string :=
  match s with
  | EmptyString => EmptyString
  | String a r => if Ascii.eqb a "," then EmptyString else String a (before_comma r)
  end.

(** The external name of a field, in the words of the spec: the decode-name
    annotation if it is not empty, otherwise the serialization-name
    annotation up to its first comma if that is not empty, otherwise the
    declared identifier. *)
Definition resolved_name (sf : reflect.StructField) : string :=
  let decode_name := reflect.Get (reflect.Tag sf) "param" in
  let serialization_name := before_comma (reflect.Get (reflect.Tag sf) "json") in
  if decide (decode_name ≠ "") then decode_name
  else if decide (serialization_name ≠ "") then serialization_name
  else reflect.Name sf.

(** A key tail: empty, or starting with a bracket. *)
Definition bracket_tail (keytail : string) : Prop :=
  keytail = "" \/ exists r, keytail = String "[" r.

(** What a line of a struct cache points to: a field the cache looks at,
    of that external name, with the parse function of its type. *)
Definition line_of (t : reflect.rtype) (fs : list reflect.StructField)
    (name : string) (l : cacheLine.t) : Prop :=
  exists sf,
    fs !! cacheLine.offset l = Some sf /\ cached_field sf
    /\ extractName sf = name /\ name ≠ "-"
    /\ extractHandler t sf = inr (cacheLine.parse l).

(** The outcome of a call on a pointee, seen from the slot of the pointer:
    a slot of content [x] becomes a slot of content [f x]. *)
Definition map_target (f : reflect.value -> reflect.value) (o : outcome)
  : outcome :=
  match o with
  | Return err x c => Return err (f x) c
  | Panics msg => Panics msg
  | OutOfFuel => OutOfFuel
  end.

(** A non-nil pointer to a slot of content [x]. *)
Definition pointer_to (x : reflect.value) : reflect.value :=
  reflect.VPtr (Some x).

(** [indirections n t t0]: [t] is [n] levels of pointer above [t0]; each
    level is a type of pointer kind ([*T], or a type defined as one). *)
Inductive indirections : nat -> reflect.rtype -> reflect.rtype -> Prop :=
  | indirections_O t : indirections 0 t t
  | indirections_S n t te t0 :
      reflect.Kind_of t = reflect.Ptr -> textual t = false ->
      reflect.Elem t = Some te -> indirections n te t0 ->
      indirections (S n) t t0.

(** The error and the content of the target a call returned with. *)
Definition returned (o : outcome) : option (option error * reflect.value) :=
  match o with
  | Return err x _ => Some (err, x)
  | _ => None
  end.

(** The call came back (returned or panicked): the fuel was enough. *)
Definition finishes (o : outcome) : Prop := o ≠ OutOfFuel.

(** [agrees p' p]: wherever [p] finishes, [p'] does what [p] does. *)
Definition agrees (p' p : parser) : Prop :=
  forall key keytail values t target c,
    finishes (p key keytail values t target c) ->
    p' key keytail values t target c = p key keytail values t target c.

(** The number of constructors of a type: what a step through a pointer
    makes smaller. *)
Fixpoint tsize (t : reflect.rtype) : nat :=
  match t with
  | reflect.TArray _ e | reflect.TChan e | reflect.TPtr e
  | reflect.TSlice e => S (tsize e)
  | reflect.TMap k e => S (tsize k + tsize e)
  | reflect.TDefined _ u _ => S (tsize u)
  | _ => 1
  end.

(** [N] units of fuel, or more, are enough for every call of [parse], and
    of any parse function of a cache line, on the tail [keytail] and a slot
    of type [t]. *)
Definition enough (decls : reflect.Decls)
    (ParseFloat : string -> Z -> strconv.NumErr + Z)
    (UnmarshalText : reflect.rtype -> string -> reflect.value ->
                     option string * reflect.value)
    (N : nat) (keytail : string) (t : reflect.rtype) : Prop :=
  forall fuel, N <= fuel -> forall key values target c,
    finishes (parse decls ParseFloat UnmarshalText fuel key keytail values t
                target c)
    /\ forall h,
         finishes (call decls ParseFloat UnmarshalText fuel h key keytail
                     values t target c).

(** Every published table is the one a build of its struct type yields. *)
Definition cache_sound (decls : reflect.Decls) (c : Cache) : Prop :=
  forall t sc, cache_lookup c t = Some sc -> buildStruct decls t = inr sc.

(** A parser that returns leaves the cache sound if it found it so. *)
Definition keeps_sound (decls : reflect.Decls) (p : parser) : Prop :=
  forall key keytail values t target c e v' c',
    cache_sound decls c ->
    p key keytail values t target c = Return e v' c' ->
    cache_sound decls c'.

(** A tail that does not open a bracket: empty, or starting with another
    byte than "[". *)
Definition no_bracket (keytail : string) : Prop :=
  keytail = "" \/ exists a r, keytail = String a r /\ a ≠ "["%char.

(** The literals [parseBool] reads as true, and as false. *)
Definition true_literal (v : string) : Prop := v = "true" \/ v = "1" \/ v = "on".
Definition false_literal (v : string) : Prop := v = "false" \/ v = "0" \/ v = "".

(** The content of a map slot: a nil map reads as the empty map. *)
Definition entries (m : option (gmap string reflect.value))
  : gmap string reflect.value :=
  match m with
  | Some m => m
  | None => ∅
  end.

(** The pointee a pointer slot is decoded into: the one it has, or a new
    zero value. *)
Definition pointee (te : reflect.rtype) (p : option reflect.value)
  : reflect.value :=
  match p with
  | Some x => x
  | None => reflect.Zero te
  end.

(** Every entry of the cache [c] is an entry of [c'], unchanged. *)
Definition cache_extends (c c' : Cache) : Prop :=
  forall t sc, cache_lookup c t = Some sc -> cache_lookup c' t = Some sc.

(** A parser that returns leaves every published table in place. *)
Definition keeps_entries (p : parser) : Prop :=
  forall key keytail values t target c e v' c',
    p key keytail values t target c = Return e v' c' -> cache_extends c c'.

(** [keytail] is what is left of [key] after a head: the situation of
    every call the package makes. *)
Definition tail_of (keytail key : string) : Prop :=
  exists head, key = head +:+ keytail.

(** The panics of the index and slice expressions of the package:
    [values[0]], [key[:l-t]] and [slice.Index(i)]. *)
Definition index_panic (o : outcome) : bool :=
  match o with
  | Panics msg =>
      bool_decide (msg = "index out of range")
      || bool_decide (msg = "slice bounds out of range")
      || bool_decide (msg = "reflect: slice index out of range")
  | _ => false
  end.

(** A parser whose index expressions are in range wherever the tail is a
    tail of the key. *)
Definition in_range (p : parser) : Prop :=
  forall key keytail values t target c,
    tail_of keytail key -> index_panic (p key keytail values t target c) = false.

(** The integer kinds [parseInt] serves, and the unsigned ones of
    [parseUint]. *)
Definition int_kind (t : reflect.rtype) : bool :=
  match reflect.Kind_of t with
  | reflect.Int | reflect.Int8 | reflect.Int16 | reflect.Int32
  | reflect.Int64 => true
  | _ => false
  end.

Definition uint_kind (t : reflect.rtype) : bool :=
  match reflect.Kind_of t with
  | reflect.Uint | reflect.Uint8 | reflect.Uint16 | reflect.Uint32
  | reflect.Uint64 => true
  | _ => false
  end.

(** A leaf the package decodes itself: of boolean, integer, unsigned,
    float or string kind, and without [UnmarshalText]. *)
Definition plain_leaf (t : reflect.rtype) : bool :=
  negb (textual t) && leaf_shaped t.

(** Two calls did the same thing but for the cache they were given and
    left: the same error and the same content of the target, or the same
    panic. *)
Definition same_result (o1 o2 : outcome) : Prop :=
  match o1, o2 with
  | Return e1 v1 _, Return e2 v2 _ => e1 = e2 /\ v1 = v2
  | Panics m1, Panics m2 => m1 = m2
  | OutOfFuel, OutOfFuel => True
  | _, _ => False
  end.

(** A parser whose result does not depend on which tables are published,
    as long as the published ones are right. *)
Definition transparent (decls : reflect.Decls) (p : parser) : Prop :=
  forall key keytail values t target c1 c2,
    cache_sound decls c1 -> cache_sound decls c2 ->
    same_result (p key keytail values t target c1)
                (p key keytail values t target c2).

(** ** Properties *)

Section Properties.

Local Open Scope list_scope.

Variable decls : reflect.Decls.
Variable ParseFloat : string -> Z -> strconv.NumErr + Z.
Variable UnmarshalText :
  reflect.rtype -> string -> reflect.value -> option string * reflect.value.

Local Abbreviation parse := (parse decls ParseFloat UnmarshalText).
Local Abbreviation call := (call decls ParseFloat UnmarshalText).
Local Abbreviation Parse := (Parse decls ParseFloat UnmarshalText).
Local Abbreviation cacheStruct := (cacheStruct decls).
Local Abbreviation buildStruct := (buildStruct decls).

(** *** Strings *)

Lemma upto_length s : strings.upto (String.length s) s = s.
Proof. induction s as [|a s IH]; simpl; [done|by rewrite IH]. Qed.

Lemma kpath_empty_tail key : kpath key "" = Some key.
Proof. unfold kpath. simpl. by rewrite Nat.sub_0_r, upto_length. Qed.

(** *** The arity and nesting check of the leaves *)

Lemma primitive_nesting key keytail t values path :
  keytail ≠ "" -> kpath key keytail = Some path ->
  primitive key keytail t values = Ok (Some (NestingError path t keytail)).
Proof.
  intros H Hp. unfold primitive, at_kpath. rewrite Hp.
  case_decide; [done|contradiction].
Qed.

Lemma primitive_singleton key keytail t values :
  keytail = "" -> length values ≠ 1 ->
  primitive key keytail t values = Ok (Some (SingletonError key t values)).
Proof.
  intros -> H. unfold primitive, at_kpath. rewrite kpath_empty_tail.
  case_decide; [contradiction|]. case_decide; [done|contradiction].
Qed.

Lemma primitive_None key keytail t values :
  primitive key keytail t values = Ok None ->
  keytail = "" /\ length values = 1.
Proof.
  unfold primitive.
  destruct (decide (keytail ≠ "")) as [|Hk];
    [by destruct (at_kpath _ _ _)|].
  destruct (decide (length values ≠ 1)) as [|Hl];
    [by destruct (at_kpath _ _ _)|].
  intros _. split; [|lia].
  destruct (decide (keytail = "")); [done|contradiction].
Qed.

Ltac leaf_parser :=
  intros key keytail values target c; split; [|split];
  [ intros Hn path Hpath; by rewrite (primitive_nesting _ _ _ _ _ Hn Hpath)
  | intros He Hv; by rewrite (primitive_singleton _ _ _ _ He Hv)
  | intros err target' c' Hr Hne;
    destruct (primitive key keytail _ values) as [[e|]|msg] eqn:Hp;
    [ congruence | by apply primitive_None in Hp | discriminate ] ].

Lemma parseTextUnmarshaler_leaf t :
  leaf_discipline (parseTextUnmarshaler UnmarshalText) t.
Proof. unfold leaf_discipline, parseTextUnmarshaler. leaf_parser. Qed.

Lemma parseBool_leaf t : leaf_discipline parseBool t.
Proof. unfold leaf_discipline, parseBool. leaf_parser. Qed.

Lemma parseInt_leaf t : leaf_discipline parseInt t.
Proof. unfold leaf_discipline, parseInt. leaf_parser. Qed.

Lemma parseUint_leaf t : leaf_discipline parseUint t.
Proof. unfold leaf_discipline, parseUint. leaf_parser. Qed.

Lemma parseFloat_leaf t : leaf_discipline (parseFloat ParseFloat) t.
Proof. unfold leaf_discipline, parseFloat. leaf_parser. Qed.

Lemma parseString_leaf t : leaf_discipline parseString t.
Proof. unfold leaf_discipline, parseString. leaf_parser. Qed.

(** *** The unfolding equations of [parse] and [call] *)

Lemma parse_S n key keytail values t target c :
  parse (S n) key keytail values t target c
  = if textual t then
      parseTextUnmarshaler UnmarshalText key keytail values t target c
    else
      match reflect.Kind_of t with
      | reflect.Bool => parseBool key keytail values t target c
      | reflect.Int | reflect.Int8 | reflect.Int16 | reflect.Int32
      | reflect.Int64 => parseInt key keytail values t target c
      | reflect.Uint | reflect.Uint8 | reflect.Uint16 | reflect.Uint32
      | reflect.Uint64 => parseUint key keytail values t target c
      | reflect.Float32 | reflect.Float64 =>
          parseFloat ParseFloat key keytail values t target c
      | reflect.Map => parseMap (parse n) key keytail values t target c
      | reflect.Ptr => parsePtr (parse n) key keytail values t target c
      | reflect.Slice => parseSlice (parse n) key keytail values t target c
      | reflect.String => parseString key keytail values t target c
      | reflect.Struct =>
          parseStruct decls (call n) key keytail values t target c
      | _ => Return (Some (InvalidParseError t NoHint)) target c
      end.
Proof. reflexivity. Qed.

Lemma call_S n h key keytail values t target c :
  call (S n) h key keytail values t target c
  = match h with
    | fn_parseTextUnmarshaler =>
        parseTextUnmarshaler UnmarshalText key keytail values t target c
    | fn_parseBool => parseBool key keytail values t target c
    | fn_parseInt => parseInt key keytail values t target c
    | fn_parseUint => parseUint key keytail values t target c
    | fn_parseFloat => parseFloat ParseFloat key keytail values t target c
    | fn_parseMap => parseMap (parse n) key keytail values t target c
    | fn_parsePtr => parsePtr (parse n) key keytail values t target c
    | fn_parseSlice => parseSlice (parse n) key keytail values t target c
    | fn_parseString => parseString key keytail values t target c
    | fn_parseStruct =>
        parseStruct decls (call n) key keytail values t target c
    end.
Proof. reflexivity. Qed.

(** The parse function [extractHandler] stores for a field is the one the
    dispatcher [parse] picks for a slot of the field's type. *)
Lemma call_extractHandler s sf h n key keytail values target c :
  extractHandler s sf = inr h ->
  call (S n) h key keytail values (reflect.Typ sf) target c
  = parse (S n) key keytail values (reflect.Typ sf) target c.
Proof.
  unfold extractHandler. rewrite parse_S, call_S.
  fold (textual (reflect.Typ sf)).
  destruct (textual (reflect.Typ sf)); [by intros [= <-]|].
  destruct (reflect.Kind_of (reflect.Typ sf)); intros [= <-]; reflexivity.
Qed.

(** C3. A leaf-shaped target (boolean, integer, unsigned, float, string
    or textual-decodable) gets a Nesting error on a non-empty tail, a
    Singleton error on an empty tail without exactly one value, and is
    written only when the tail is empty and there is exactly one value;
    this holds for the dispatcher and for the parse function a cache line
    holds for a field of that type. *)
Theorem leaf_target_discipline (t : reflect.rtype) (fuel : nat) :
  leaf_shaped t = true ->
  leaf_discipline (parse (S fuel)) t
  /\ (forall s sf h,
        reflect.Typ sf = t -> extractHandler s sf = inr h ->
        leaf_discipline (call (S fuel) h) t).
Proof.
  intros Hleaf.
  assert (Hp : leaf_discipline (parse (S fuel)) t).
  { unfold leaf_shaped in Hleaf. unfold leaf_discipline.
    setoid_rewrite parse_S.
    destruct (textual t); [apply parseTextUnmarshaler_leaf|].
    simpl in Hleaf.
    destruct (reflect.Kind_of t); try discriminate;
      first [ apply parseBool_leaf | apply parseInt_leaf
            | apply parseUint_leaf | apply parseFloat_leaf
            | apply parseString_leaf ]. }
  split; [exact Hp|].
  intros s sf h <- Hh key keytail values target c.
  rewrite (call_extractHandler _ _ _ _ _ _ _ _ _ Hh). apply Hp.
Qed.

(** *** The struct cache *)

Lemma cache_sound_nil : cache_sound decls [].
Proof. intros t sc. discriminate. Qed.

Lemma cacheStruct_miss t c :
  cache_lookup c t = None ->
  cacheStruct t c
  = match buildStruct t with
    | inl err => (inl err, c)
    | inr sc => (inr sc, cache_store c t sc)
    end.
Proof. intros H. unfold param.cacheStruct. by rewrite H. Qed.

Lemma cacheStruct_sound t c r c' :
  cache_sound decls c -> cacheStruct t c = (r, c') ->
  r = buildStruct t /\ cache_sound decls c'.
Proof.
  intros Hs. unfold param.cacheStruct.
  destruct (cache_lookup c t) as [sc|] eqn:Hl.
  - intros [= <- <-]. split; [symmetry; by apply Hs|done].
  - destruct (buildStruct t) as [e|sc] eqn:Hb; intros [= <- <-];
      (split; [done|]); [done|].
    intros t' sc'. unfold cache_store. simpl.
    case_decide as Ht; [|apply Hs]. subst t'. by intros [= <-].
Qed.

Lemma cacheStruct_failure_publishes_nothing_aux t c c' err :
  cacheStruct t c = (inl err, c') ->
  c' = c /\ cache_lookup c t = None /\ buildStruct t = inl err.
Proof.
  unfold param.cacheStruct.
  destruct (cache_lookup c t) as [sc|] eqn:Hl; [discriminate|].
  destruct (buildStruct t) as [e|sc] eqn:Hb; [|discriminate].
  by intros [= <- <-].
Qed.

(** C9. A failed build publishes nothing: when [cacheStruct] returns an
    error the cache is the one it was called with, it has no entry for the
    struct type, and the next call for that type runs the build again (and
    fails the same way). *)
Theorem cacheStruct_failure_publishes_nothing
    (t : reflect.rtype) (c c' : Cache) (err : error) :
  cacheStruct t c = (inl err, c') ->
  c' = c
  /\ cache_lookup c' t = None
  /\ buildStruct t = inl err
  /\ cacheStruct t c' = (inl err, c').
Proof.
  unfold param.cacheStruct.
  destruct (cache_lookup c t) as [sc|] eqn:Hl; [discriminate|].
  destruct (buildStruct t) as [e|sc] eqn:Hb; [|discriminate].
  intros [= <- <-]. by rewrite Hl.
Qed.

Lemma extractHandler_unsupported s sf :
  unsupported (reflect.Typ sf) = true ->
  extractHandler s sf = inl (InvalidParseError s (HintField (reflect.Name sf) s)).
Proof.
  unfold unsupported, extractHandler. fold (textual (reflect.Typ sf)).
  destruct (textual (reflect.Typ sf)); [discriminate|]. simpl.
  by destruct (reflect.Kind_of (reflect.Typ sf)).
Qed.

Lemma extractHandler_error s sf e :
  extractHandler s sf = inl e ->
  e = InvalidParseError s (HintField (reflect.Name sf) s).
Proof.
  unfold extractHandler.
  destruct (reflect.Implements_textUnmarshaler _); [discriminate|].
  destruct (reflect.Kind_of (reflect.Typ sf)); congruence.
Qed.

Lemma cacheStruct_loop_error t i fs sc e :
  cacheStruct_loop t i fs sc = inl e ->
  exists field, e = InvalidParseError t (HintField field t).
Proof.
  revert i sc. induction fs as [|sf fs IH]; intros i sc; simpl; [discriminate|].
  destruct (_ && _); [apply IH|].
  destruct (decide (extractName sf ≠ "-")); [|apply IH].
  destruct (extractHandler t sf) as [e'|h] eqn:Hh; [|apply IH].
  intros [= <-]. eexists. by apply extractHandler_error in Hh.
Qed.

Lemma cacheStruct_loop_unsupported t i fs sc sf :
  sf ∈ fs -> cached_field sf -> extractName sf ≠ "-" ->
  unsupported (reflect.Typ sf) = true ->
  exists field,
    cacheStruct_loop t i fs sc = inl (InvalidParseError t (HintField field t)).
Proof.
  intros Hin Hc Hname Hu. revert i sc.
  induction Hin as [sf fs|sf sf' fs Hin IH]; intros i sc; simpl.
  - replace (bool_decide (reflect.PkgPath sf ≠ "") && negb (reflect.Anonymous sf))
      with false.
    2:{ destruct Hc as [-> | ->]; [|by rewrite andb_false_r].
        by rewrite bool_decide_false by (intros H; by apply H). }
    rewrite decide_True by done.
    rewrite (extractHandler_unsupported _ _ Hu). by eexists.
  - destruct (_ && _); [apply IH; done|].
    destruct (decide (extractName sf' ≠ "-")); [|by apply IH].
    destruct (extractHandler t sf') as [e'|h] eqn:Hh; [|by apply IH].
    apply extractHandler_error in Hh. subst e'. by eexists.
Qed.

(** *** The entry point *)

Lemma Parse_struct_pointer fuel params ty t el c :
  struct_pointer ty t ->
  Parse fuel params (Some (ty, reflect.VPtr (Some el))) c
  = match cacheStruct t c with
    | (inl err, c') => Return (Some err) (reflect.VPtr (Some el)) c'
    | (inr cache, c') =>
        match Parse_loop decls ParseFloat UnmarshalText fuel cache params t el c' with
        | Return err el' c'' => Return err (reflect.VPtr (Some el')) c''
        | o => o
        end
    end.
Proof.
  intros (Hk & He & Hs). unfold param.Parse. simpl. rewrite He. simpl.
  rewrite Hk, Hs.
  rewrite !bool_decide_false by (intros H; by apply H). simpl.
  reflexivity.
Qed.

(** X23. A typed target that is not a non-nil pointer to a struct is
    refused with an Invalid-shape error before any key is looked at; the
    hint tells the nil pointer from the other shapes, and target and cache
    are left as they were. *)
Lemma Parse_refuses_other_targets fuel params ty x c :
  (forall t el, x = reflect.VPtr (Some el) -> ~ struct_pointer ty t) ->
  Parse fuel params (Some (ty, x)) c
  = Return (Some (InvalidParseError ty (HintText
       (if bool_decide (reflect.Kind_of ty = reflect.Ptr) && reflect.IsNil x
        then "target may not be a nil pointer"
        else "target must be a pointer to a struct")))) x c.
Proof.
  intros Hno. unfold param.Parse. simpl.
  destruct (bool_decide (reflect.Kind_of ty ≠ reflect.Ptr)) eqn:Hk; [done|].
  apply bool_decide_eq_false in Hk.
  assert (Hk' : reflect.Kind_of ty = reflect.Ptr)
    by (destruct (decide (reflect.Kind_of ty = reflect.Ptr)); done).
  simpl.
  destruct (bool_decide (reflect.VKind _ ≠ reflect.Struct)) eqn:Hs; [done|].
  apply bool_decide_eq_false in Hs. exfalso. apply Hs.
  destruct x as [| | | | | |[el|]| | |]; try done.
  destruct (reflect.Elem ty) as [te|] eqn:He; [|done]. simpl.
  intros Hst. by apply (Hno te el eq_refl).
Qed.

(** C7. The target being the nil interface ([Parse(params, nil)]),
    [reflect.ValueOf] yields the zero Value, whose kind is [Invalid]; the
    branch that builds the Invalid-shape error asks it for its type, and
    the call panics instead of returning the error. *)
Theorem Parse_nil_interface_panics
    (fuel : nat) (params : list (string * list string)) (c : Cache) :
  Parse fuel params None c
  = Panics "reflect: call of reflect.Value.Type on zero Value".
Proof. reflexivity. Qed.

(** C8 (amended). [Parse] builds the metadata of the target's struct type
    before it looks at any pair: when the struct has an exported field of
    unsupported shape whose resolved name is not "-", [Parse] returns an
    Invalid-shape error for every [params], the empty one included, and
    leaves target and cache as they were. *)
Theorem Parse_fails_on_unsupported_field
    (fuel : nat) (params : list (string * list string))
    (ty t : reflect.rtype) (el : reflect.value) (c : Cache)
    (sf : reflect.StructField) :
  cache_sound decls c ->
  struct_pointer ty t ->
  sf ∈ reflect.Fields decls t ->
  reflect.PkgPath sf = "" ->
  extractName sf ≠ "-" ->
  unsupported (reflect.Typ sf) = true ->
  exists field,
    Parse fuel params (Some (ty, reflect.VPtr (Some el))) c
    = Return (Some (InvalidParseError t (HintField field t)))
        (reflect.VPtr (Some el)) c.
Proof.
  intros Hs Hp Hin Hpkg Hname Hu.
  rewrite (Parse_struct_pointer _ _ _ _ _ _ Hp).
  destruct (cacheStruct_loop_unsupported t 0 _ ∅ sf Hin (or_introl Hpkg) Hname Hu)
    as [field Hb].
  exists field.
  destruct (cacheStruct t c) as [r c'] eqn:Hc.
  destruct (cacheStruct_sound _ _ _ _ Hs Hc) as [Hr _].
  unfold param.buildStruct in Hr. rewrite Hb in Hr. subst r.
  by destruct (cacheStruct_failure_publishes_nothing_aux _ _ _ _ Hc) as [-> _].
Qed.

(** *** Map keys *)

Lemma Key_Some t tk :
  reflect.Key t = Some tk ->
  reflect.Kind_of t = reflect.Map /\ exists te, reflect.Elem t = Some te.
Proof. induction t; simpl; try discriminate; eauto. Qed.

(** C2 (amended). A struct field whose type is a map with a key shape
    that is not of string kind is accepted when the metadata is built:
    [extractHandler] gives it the map parser without looking at the key
    shape.  The Invalid-shape error is raised when a key with a well-formed
    bracket segment is decoded into the field, and leaves target and cache
    as they were. *)
Theorem map_key_shape_is_checked_when_decoding
    (s : reflect.rtype) (sf : reflect.StructField) (tk : reflect.rtype) :
  textual (reflect.Typ sf) = false ->
  reflect.Key (reflect.Typ sf) = Some tk ->
  reflect.Kind_of tk ≠ reflect.String ->
  extractHandler s sf = inr fn_parseMap
  /\ forall fuel key keytail mapkey maptail values target c,
       keyed (reflect.Typ sf) key keytail = Ok (inr (mapkey, maptail)) ->
       call (S fuel) fn_parseMap key keytail values (reflect.Typ sf) target c
       = Return (Some (InvalidParseError (reflect.Typ sf) (HintMapKeys tk)))
           target c.
Proof.
  intros Ht Hk Hns. destruct (Key_Some _ _ Hk) as [Hm [te He]]. split.
  - unfold extractHandler. fold (textual (reflect.Typ sf)). by rewrite Ht, Hm.
  - intros fuel key keytail mapkey maptail values target c Hkeyed.
    rewrite call_S. unfold parseMap. rewrite Hkeyed, Hk, He.
    by rewrite decide_False.
Qed.

(** *** Field names *)

Lemma IndexRune_lower s a : (-1 <= strings.IndexRune s a)%Z.
Proof.
  induction s as [|b s IH]; simpl; [lia|].
  destruct (Ascii.eqb b a); [lia|].
  destruct (Z.eqb_spec (strings.IndexRune s a) (-1)); lia.
Qed.

Lemma before_comma_IndexRune s :
  (let idx := strings.IndexRune s "," in
   if (0 <=? idx)%Z then strings.upto (Z.to_nat idx) s else s)
  = before_comma s.
Proof.
  induction s as [|b s IH]; simpl; [done|].
  destruct (Ascii.eqb b ","); [done|].
  pose proof (IndexRune_lower s ",") as Hlow. simpl in IH.
  destruct (Z.eqb_spec (strings.IndexRune s ",") (-1)) as [Heq|Hne].
  - rewrite Heq in IH. simpl in *. by rewrite <- IH.
  - destruct (Z.leb_spec 0 (strings.IndexRune s ",")); [|lia].
    destruct (Z.leb_spec 0 (strings.IndexRune s "," + 1)); [|lia].
    replace (Z.to_nat (strings.IndexRune s "," + 1))
      with (S (Z.to_nat (strings.IndexRune s ","))) by lia.
    simpl. by rewrite IH.
Qed.

Lemma extractName_resolved sf : extractName sf = resolved_name sf.
Proof.
  unfold extractName, resolved_name.
  rewrite before_comma_IndexRune.
  repeat case_decide; try done; congruence.
Qed.

Lemma cached_field_spec sf :
  bool_decide (reflect.PkgPath sf ≠ "") && negb (reflect.Anonymous sf) = false
  <-> cached_field sf.
Proof.
  unfold cached_field. rewrite andb_false_iff, negb_false_iff.
  rewrite bool_decide_eq_false. split; (intros [H|H]; [left|by right]).
  - destruct (decide (reflect.PkgPath sf = "")); [done|contradiction].
  - intros Hn. by apply Hn.
Qed.

Lemma cacheStruct_loop_lines t pre fs sc sc' :
  cacheStruct_loop t (length pre) fs sc = inr sc' ->
  (forall name l, sc !! name = Some l -> line_of t (pre ++ fs) name l) ->
  forall name l, sc' !! name = Some l -> line_of t (pre ++ fs) name l.
Proof.
  revert pre sc. induction fs as [|sf fs IH]; intros pre sc; simpl.
  { intros [= <-]. done. }
  assert (Hsnoc : pre ++ sf :: fs = (pre ++ [sf]) ++ fs)
    by (by rewrite <- app_assoc).
  assert (Hlen : S (length pre) = length (pre ++ [sf]))
    by (rewrite length_app; simpl; lia).
  rewrite Hsnoc, Hlen.
  destruct (_ && _) eqn:Hc; [apply IH|].
  destruct (decide (extractName sf ≠ "-")) as [Hname|Hname]; [|apply IH].
  destruct (extractHandler t sf) as [e|h] eqn:Hh; [discriminate|].
  intros Hloop Hsc. apply (IH _ _ Hloop).
  intros name l. rewrite lookup_insert.
  destruct (decide (extractName sf = name)) as [Hn|Hn].
  - intros [= <-]. subst name. exists sf. simpl.
    rewrite <- Hsnoc. rewrite list_lookup_middle by done.
    split; [done|]. split; [by apply cached_field_spec|]. done.
  - apply Hsc.
Qed.

Lemma cacheStruct_loop_dom t i fs sc sc' :
  cacheStruct_loop t i fs sc = inr sc' ->
  forall name,
    is_Some (sc' !! name)
    <-> is_Some (sc !! name)
        \/ exists sf, sf ∈ fs /\ cached_field sf /\ extractName sf = name
                       /\ name ≠ "-".
Proof.
  revert i sc. induction fs as [|sf fs IH]; intros i sc; simpl.
  { intros [= <-] name. split; [by left|]. intros [H|(sf & H & _)]; [done|].
    by apply elem_of_nil in H. }
  destruct (_ && _) eqn:Hc.
  { intros Hloop name. rewrite (IH _ _ Hloop name). split.
    - intros [H|(sf' & H1 & H2)]; [by left|]. right. exists sf'.
      split; [by apply elem_of_cons; right|done].
    - intros [H|(sf' & H1 & H2 & H3)]; [by left|].
      apply elem_of_cons in H1 as [->|H1].
      + apply cached_field_spec in H2. congruence.
      + right. by exists sf'. }
  destruct (decide (extractName sf ≠ "-")) as [Hname|Hname].
  - destruct (extractHandler t sf) as [e|h] eqn:Hh; [discriminate|].
    intros Hloop name. rewrite (IH _ _ Hloop name).
    rewrite lookup_insert_is_Some. split.
    + intros [[H|[_ H]]|(sf' & H1 & H2)].
      * right. exists sf. split; [apply elem_of_cons; by left|].
        split; [by apply cached_field_spec|]. by subst name.
      * by left.
      * right. exists sf'. split; [by apply elem_of_cons; right|done].
    + intros [H|(sf' & H1 & H2 & H3 & H4)].
      * destruct (decide (extractName sf = name)); [left; by left|].
        left. right. done.
      * apply elem_of_cons in H1 as [->|H1]; [left; by left|].
        right. by exists sf'.
  - intros Hloop name. rewrite (IH _ _ Hloop name). split.
    + intros [H|(sf' & H1 & H2)]; [by left|]. right. exists sf'.
      split; [by apply elem_of_cons; right|done].
    + intros [H|(sf' & H1 & H2 & H3 & H4)]; [by left|].
      apply elem_of_cons in H1 as [->|H1].
      * exfalso. apply Hname. congruence.
      * right. by exists sf'.
Qed.

Lemma buildStruct_lines t sc name l :
  buildStruct t = inr sc -> sc !! name = Some l ->
  line_of t (reflect.Fields decls t) name l.
Proof.
  intros Hb. apply (cacheStruct_loop_lines t [] _ ∅ sc Hb).
  intros name' l'. by rewrite lookup_empty.
Qed.

Lemma buildStruct_dom t sc name :
  buildStruct t = inr sc ->
  is_Some (sc !! name)
  <-> exists sf, sf ∈ reflect.Fields decls t /\ cached_field sf
                 /\ extractName sf = name /\ name ≠ "-".
Proof.
  intros Hb. rewrite (cacheStruct_loop_dom _ _ _ _ _ Hb name).
  rewrite lookup_empty. split; [|by right].
  intros [[x Hx]|H]; [discriminate|done].
Qed.

Lemma length_append (s1 s2 : string) :
  String.length (s1 +:+ s2) = String.length s1 + String.length s2.
Proof. induction s1 as [|a s1 IH]; simpl; [done|by rewrite IH]. Qed.

Lemma upto_append head keytail :
  strings.upto (String.length head) (head +:+ keytail) = head.
Proof.
  induction head as [|a h IH]; simpl; [by destruct keytail|by rewrite IH].
Qed.

Lemma kpath_app head keytail : kpath (head +:+ keytail) keytail = Some head.
Proof.
  unfold kpath. rewrite length_append.
  replace (String.length head + String.length keytail - String.length keytail)
    with (String.length head) by lia.
  rewrite upto_append.
  by destruct (Nat.leb_spec (String.length keytail)
                 (String.length head + String.length keytail)); [|lia].
Qed.

Lemma split_dash_key keytail :
  bracket_tail keytail -> split_key ("-" +:+ keytail) = ("-", keytail).
Proof. intros [->|[r ->]]; reflexivity. Qed.

(** C6. The external name of a field is the "param" tag if it is not
    empty, otherwise the "json" tag up to its first comma if that is not
    empty, otherwise the identifier of the field; the names in the field
    table of a struct are those of its exported (or embedded) fields whose
    resolved name is not "-"; and a key whose head is "-" gets a Key error
    from [Parse]. *)
Theorem field_name_resolution (t : reflect.rtype) (sc : structCache) :
  buildStruct t = inr sc ->
  (forall sf, extractName sf = resolved_name sf)
  /\ (forall name,
        is_Some (sc !! name)
        <-> exists sf, sf ∈ reflect.Fields decls t /\ cached_field sf
                       /\ resolved_name sf = name /\ name ≠ "-")
  /\ (forall fuel ty el c keytail values rest,
        cache_sound decls c -> struct_pointer ty t -> bracket_tail keytail ->
        Parse fuel (("-" +:+ keytail, values) :: rest)
          (Some (ty, reflect.VPtr (Some el))) c
        = Return (Some (KeyError ("-" +:+ keytail) "-" t "-"))
            (reflect.VPtr (Some el)) (cacheStruct t c).2).
Proof.
  intros Hb. split; [apply extractName_resolved|]. split.
  - intros name. rewrite (buildStruct_dom _ _ name Hb).
    split; intros (sf & H1 & H2 & H3 & H4); exists sf;
      rewrite extractName_resolved in *; done.
  - intros fuel ty el c keytail values rest Hs Hp Hk.
    rewrite (Parse_struct_pointer _ _ _ _ _ _ Hp).
    destruct (cacheStruct t c) as [r c'] eqn:Hc.
    destruct (cacheStruct_sound _ _ _ _ Hs Hc) as [Hr _].
    rewrite Hb in Hr. subst r. cbn [Parse_loop].
    rewrite (split_dash_key _ Hk). unfold parseStructField.
    replace (sc !! "-") with (@None cacheLine.t).
    + unfold at_kpath. by rewrite (kpath_app "-" keytail).
    + symmetry. apply eq_None_not_Some.
      rewrite (buildStruct_dom _ _ "-" Hb). by intros (sf & _ & _ & _ & H).
Qed.

(** *** Pointers *)

Lemma textual_TPtr te : textual (reflect.TPtr te) = false.
Proof. unfold textual. simpl. by destruct te. Qed.

Lemma parsePtr_nil p key keytail values t te c :
  reflect.Elem t = Some te ->
  parsePtr p key keytail values t (reflect.VPtr None) c
  = map_target pointer_to (p key keytail values te (reflect.Zero te) c).
Proof. intros He. unfold parsePtr. rewrite He. by destruct (p _ _ _ _ _ _). Qed.

Lemma parse_pointer fuel key keytail values t target c :
  reflect.Kind_of t = reflect.Ptr -> textual t = false ->
  parse (S fuel) key keytail values t target c
  = parsePtr (parse fuel) key keytail values t target c.
Proof.
  intros Hk Ht. by rewrite parse_S, Ht, Hk.
Qed.

Lemma map_target_compose f g o :
  map_target f (map_target g o) = map_target (fun x => f (g x)) o.
Proof. by destruct o. Qed.

Lemma Zero_pointer t :
  reflect.Kind_of t = reflect.Ptr -> reflect.Zero t = reflect.VPtr None.
Proof.
  induction t as [| [] | [] | | [] | [] | | | | | | | | | | | ];
    simpl; try discriminate; auto.
Qed.


(** *** Maps *)

(** The element [parseMap] decodes into is a zero value also when the map
    has the key: the Value [MapIndex] returns is never settable, and the
    element it holds is dropped with it. *)
Lemma parseMap_present_key p key keytail mapkey maptail values t tk te m e c :
  keyed t key keytail = Ok (inr (mapkey, maptail)) ->
  reflect.Key t = Some tk -> reflect.Elem t = Some te ->
  reflect.Kind_of tk = reflect.String ->
  m !! mapkey = Some e ->
  parseMap p key keytail values t (reflect.VMap (Some m)) c
  = match p key maptail values te (reflect.Zero te) c with
    | Return None val' c' =>
        Return None (reflect.VMap (Some (<[mapkey := val']> m))) c'
    | Return (Some err) _ c' => Return (Some err) (reflect.VMap (Some m)) c'
    | Panics msg => Panics msg
    | OutOfFuel => OutOfFuel
    end.
Proof.
  intros Hkeyed Hk He Hs Hm. unfold parseMap.
  rewrite Hkeyed, Hk, He. rewrite decide_True by done.
  unfold reflect.MapIndex. rewrite Hm. reflexivity.
Qed.

(** *** Slices *)

Lemma set_or_panic_cache r c e v' c' :
  set_or_panic r c = Return e v' c' -> c' = c.
Proof. destruct r; simpl; congruence. Qed.

Lemma fail_cache r target c e v' c' :
  fail r target c = Return e v' c' -> c' = c.
Proof. destruct r; simpl; congruence. Qed.

Lemma parseTextUnmarshaler_cache key keytail values t target c e v' c' :
  parseTextUnmarshaler UnmarshalText key keytail values t target c
  = Return e v' c' -> c' = c.
Proof.
  unfold parseTextUnmarshaler. destruct (primitive _ _ _ _) as [[err|]|msg];
    [congruence| |discriminate].
  destruct values; [discriminate|].
  destruct (UnmarshalText _ _ _) as [[msg|] x]; [apply fail_cache|congruence].
Qed.

Lemma parseBool_cache key keytail values t target c e v' c' :
  parseBool key keytail values t target c = Return e v' c' -> c' = c.
Proof.
  unfold parseBool. destruct (primitive _ _ _ _) as [[err|]|msg];
    [congruence| |discriminate].
  destruct values; [discriminate|].
  repeat case_decide; first [apply set_or_panic_cache|apply fail_cache].
Qed.

Lemma parseInt_cache key keytail values t target c e v' c' :
  parseInt key keytail values t target c = Return e v' c' -> c' = c.
Proof.
  unfold parseInt. destruct (primitive _ _ _ _) as [[err|]|msg];
    [congruence| |discriminate].
  destruct values; [discriminate|]. destruct (reflect.Bits t); [|discriminate].
  destruct (strconv.ParseInt _ _); [apply fail_cache|apply set_or_panic_cache].
Qed.

Lemma parseUint_cache key keytail values t target c e v' c' :
  parseUint key keytail values t target c = Return e v' c' -> c' = c.
Proof.
  unfold parseUint. destruct (primitive _ _ _ _) as [[err|]|msg];
    [congruence| |discriminate].
  destruct values; [discriminate|]. destruct (reflect.Bits t); [|discriminate].
  destruct (strconv.ParseUint _ _); [apply fail_cache|apply set_or_panic_cache].
Qed.

Lemma parseFloat_cache key keytail values t target c e v' c' :
  parseFloat ParseFloat key keytail values t target c = Return e v' c' ->
  c' = c.
Proof.
  unfold parseFloat. destruct (primitive _ _ _ _) as [[err|]|msg];
    [congruence| |discriminate].
  destruct values; [discriminate|]. destruct (reflect.Bits t); [|discriminate].
  destruct (ParseFloat _ _); [apply fail_cache|apply set_or_panic_cache].
Qed.

Lemma parseString_cache key keytail values t target c e v' c' :
  parseString key keytail values t target c = Return e v' c' -> c' = c.
Proof.
  unfold parseString. destruct (primitive _ _ _ _) as [[err|]|msg];
    [congruence| |discriminate].
  destruct values; [discriminate|]. apply set_or_panic_cache.
Qed.

(** With an empty tail no struct is entered, so the cache is not touched. *)
Lemma parse_empty_tail_cache fuel key values t target c e v' c' :
  parse fuel key "" values t target c = Return e v' c' -> c' = c.
Proof.
  revert key values t target c e v' c'.
  induction fuel as [|n IH]; intros key values t target c e v' c';
    [discriminate|].
  rewrite parse_S. destruct (textual t); [apply parseTextUnmarshaler_cache|].
  destruct (reflect.Kind_of t);
    try (intros [= _ _ <-]; done);
    first [ apply parseBool_cache | apply parseInt_cache
          | apply parseUint_cache | apply parseFloat_cache
          | apply parseString_cache | idtac ].
  (* maps, slices and structs refuse the empty tail; pointers recurse *)
  unfold parsePtr. destruct (reflect.Elem t); [|discriminate].
  destruct target; try discriminate.
  destruct (parse n _ _ _ _ _ _) eqn:Hp; try discriminate.
  intros [= _ _ <-]. by apply IH in Hp.
Qed.

Lemma replicate_S_cons {A} n (x : A) : replicate (S n) x = x :: replicate n x.
Proof. reflexivity. Qed.

Lemma parseSlice_loop_spec p kp te target rest :
  (forall key vs x c0 e v' c',
     p key "" vs te x c0 = Return e v' c' -> c' = c0) ->
  forall pre c v' c',
  parseSlice_loop p kp te target (length pre) rest
    (pre ++ replicate (length rest) (reflect.Zero te)) c = Return None v' c'
  <-> exists l,
        v' = reflect.VSlice (Some (pre ++ l)) /\ c' = c
        /\ length l = length rest
        /\ forall j x, rest !! j = Some x ->
             exists y, l !! j = Some y
               /\ p (parseSlice_key kp (length pre + j)) "" [x] te
                     (reflect.Zero te) c = Return None y c.
Proof.
  intros Hcache. induction rest as [|x rest IH]; intros pre c v' c'.
  - simpl. rewrite app_nil_r. split.
    + intros [= <- <-]. exists []. rewrite app_nil_r.
      repeat split; try done.
    + intros (l & -> & -> & Hlen & _). destruct l; [|done].
      by rewrite app_nil_r.
  - cbn [parseSlice_loop length]. rewrite replicate_S_cons.
    rewrite list_lookup_middle by done.
    destruct (p (parseSlice_key kp (length pre)) "" [x] te (reflect.Zero te) c)
      as [[err|] el' c1|msg|] eqn:Hp.
    + split; [discriminate|]. intros (l & _ & _ & _ & Hel).
      destruct (Hel 0 x eq_refl) as (y & _ & Hy).
      rewrite Nat.add_0_r in Hy. congruence.
    + assert (c1 = c) as -> by (by eapply Hcache).
      rewrite insert_app_r_alt by done. rewrite Nat.sub_diag. simpl.
      rewrite (cons_middle el' pre), app_assoc.
      replace (S (length pre)) with (length (pre ++ [el']))
        by (rewrite length_app; simpl; lia).
      rewrite IH. split.
      * intros (l & -> & -> & Hlen & Hel). exists (el' :: l).
        rewrite <- app_assoc. simpl. repeat split; try done; [by rewrite Hlen|].
        intros [|j] y; simpl.
        -- intros [= <-]. exists el'. by rewrite Nat.add_0_r.
        -- intros Hj. destruct (Hel j y Hj) as (z & Hz & Hpz). exists z.
           split; [done|].
           rewrite length_app in Hpz. simpl in Hpz.
           by replace (length pre + S j) with (length pre + 1 + j) by lia.
      * intros (l & -> & -> & Hlen & Hel).
        destruct (Hel 0 x eq_refl) as (y0 & Hy0 & Hpy0).
        rewrite Nat.add_0_r, Hp in Hpy0. injection Hpy0 as <-.
        destruct l as [|y l]; [done|]. simpl in Hy0. injection Hy0 as ->.
        exists l. rewrite <- app_assoc. simpl.
        repeat split; try done; [simpl in Hlen; lia|].
        intros j z Hj. destruct (Hel (S j) z Hj) as (w & Hw & Hpw).
        exists w. split; [done|].
        rewrite length_app. simpl.
        by replace (length pre + 1 + j) with (length pre + S j) by lia.
    + split; [discriminate|]. intros (l & _ & _ & _ & Hel).
      destruct (Hel 0 x eq_refl) as (y & _ & Hy).
      rewrite Nat.add_0_r in Hy. congruence.
    + split; [discriminate|]. intros (l & _ & _ & _ & Hel).
      destruct (Hel 0 x eq_refl) as (y & _ & Hy).
      rewrite Nat.add_0_r in Hy. congruence.
Qed.

Lemma parseSlice_loop_error p kp te target i rest slice c err v' c' :
  parseSlice_loop p kp te target i rest slice c = Return (Some err) v' c' ->
  v' = target.
Proof.
  revert i slice c. induction rest as [|x rest IH]; intros i slice c; simpl;
    [discriminate|].
  destruct (slice !! i); [|discriminate].
  destruct (p _ _ _ _ _ _) as [[e|] el' c1|msg|]; try discriminate.
  - by intros [= _ <- _].
  - apply IH.
Qed.

Lemma Elem_slice t :
  reflect.Kind_of t = reflect.Slice -> exists te, reflect.Elem t = Some te.
Proof.
  induction t as [| [] | [] | | [] | [] | | | | | | | | | | | ];
    simpl; try discriminate; eauto.
Qed.


(** *** Fuel: more of it changes nothing once a call finishes *)

Lemma parseMap_agrees p' p : agrees p' p -> agrees (parseMap p') (parseMap p).
Proof.
  intros Hp key keytail values t target c. unfold parseMap.
  destruct (keyed t key keytail) as [[err|[mapkey maptail]]|msg]; [done| |done].
  destruct (reflect.Key t) as [tk|]; [|done].
  destruct (reflect.Elem t) as [te|]; [|done].
  case_decide; [|done]. destruct target; try done.
  match goal with
  | |- context [p ?k ?kt ?vs ?ty ?x ?c0] =>
      pose proof (Hp k kt vs ty x c0) as Heq;
      destruct (p k kt vs ty x c0) as [e y c1|msg|] eqn:Hcall
  end.
  - intros _. by rewrite Heq.
  - intros _. by rewrite Heq.
  - intros Hfin. by destruct Hfin.
Qed.

Lemma parsePtr_agrees p' p : agrees p' p -> agrees (parsePtr p') (parsePtr p).
Proof.
  intros Hp key keytail values t target c. unfold parsePtr.
  destruct (reflect.Elem t) as [te|]; [|done]. destruct target; try done.
  match goal with
  | |- context [p ?k ?kt ?vs ?ty ?x ?c0] =>
      pose proof (Hp k kt vs ty x c0) as Heq;
      destruct (p k kt vs ty x c0) as [e y c1|msg|] eqn:Hcall
  end.
  - intros _. by rewrite Heq.
  - intros _. by rewrite Heq.
  - intros Hfin. by destruct Hfin.
Qed.

Lemma parseSlice_loop_agrees p' p kp te target i rest slice c :
  agrees p' p ->
  finishes (parseSlice_loop p kp te target i rest slice c) ->
  parseSlice_loop p' kp te target i rest slice c
  = parseSlice_loop p kp te target i rest slice c.
Proof.
  intros Hp. revert i slice c.
  induction rest as [|x rest IH]; intros i slice c; simpl; [done|].
  destruct (slice !! i) as [el|]; [|done].
  pose proof (Hp (parseSlice_key kp i) "" [x] te el c) as Heq.
  destruct (p (parseSlice_key kp i) "" [x] te el c) as [[e|] y c1|msg|] eqn:Hcall.
  - intros _. by rewrite Heq.
  - intros Hf. rewrite Heq by done. by apply IH.
  - intros _. by rewrite Heq.
  - intros Hfin. by destruct Hfin.
Qed.

Lemma parseSlice_agrees p' p :
  agrees p' p -> agrees (parseSlice p') (parseSlice p).
Proof.
  intros Hp key keytail values t target c. unfold parseSlice.
  case_decide; [done|]. destruct (reflect.Elem t) as [te|]; [|done].
  destruct (kpath key keytail) as [kp|]; [|done].
  by apply parseSlice_loop_agrees.
Qed.

Lemma parseStruct_agrees (f' f : handler -> parser) :
  (forall h, agrees (f' h) (f h)) ->
  agrees (parseStruct decls f') (parseStruct decls f).
Proof.
  intros Hf key keytail values t target c. unfold parseStruct.
  destruct (keyed t key keytail) as [[err|[sk skt]]|msg]; [done| |done].
  destruct (cacheStruct t c) as [[err|sc] c1]; [done|].
  unfold parseStructField. destruct (sc !! sk) as [l|]; [|done].
  destruct target; try done.
  destruct (reflect.Fields decls t !! cacheLine.offset l) as [sf|]; [|done].
  match goal with
  | |- context [f ?h ?k ?kt ?vs ?ty ?x ?c0] =>
      pose proof (Hf h k kt vs ty x c0) as Heq;
      destruct (f h k kt vs ty x c0) as [e y c2|msg|] eqn:Hcall
  end.
  - intros _. by rewrite Heq.
  - intros _. by rewrite Heq.
  - intros Hfin. by destruct Hfin.
Qed.

Lemma fuel_step n :
  agrees (parse (S n)) (parse n) /\ forall h, agrees (call (S n) h) (call n h).
Proof.
  induction n as [|n [IHp IHc]].
  { split; [|intros h]; intros key keytail values t target c H;
      by destruct H. }
  split.
  - intros key keytail values t target c.
    rewrite (parse_S (S n)), (parse_S n).
    destruct (textual t); [done|].
    destruct (reflect.Kind_of t); try done.
    + by apply parseMap_agrees.
    + by apply parsePtr_agrees.
    + by apply parseSlice_agrees.
    + by apply parseStruct_agrees.
  - intros h key keytail values t target c.
    rewrite (call_S (S n)), (call_S n).
    destruct h; try done.
    + by apply parseMap_agrees.
    + by apply parsePtr_agrees.
    + by apply parseSlice_agrees.
    + by apply parseStruct_agrees.
Qed.

Lemma fuel_more n m :
  n <= m ->
  agrees (parse m) (parse n) /\ forall h, agrees (call m h) (call n h).
Proof.
  induction 1 as [|m Hle [IHp IHc]].
  - split; [|intros h]; by intros key keytail values t target c _.
  - destruct (fuel_step m) as [Sp Sc]. split.
    + intros key keytail values t target c Hf.
      rewrite <- (IHp _ _ _ _ _ _ Hf). apply Sp. by rewrite IHp.
    + intros h key keytail values t target c Hf.
      rewrite <- (IHc h _ _ _ _ _ _ Hf). apply Sc. by rewrite IHc.
Qed.

(** *** Fuel: some amount is enough *)

Local Abbreviation enough := (enough decls ParseFloat UnmarshalText).

Lemma length_from n s :
  String.length (strings.from n s) = String.length s - n.
Proof.
  revert s. induction n as [|n IH]; intros [|a s]; simpl; try done.
Qed.

(** What [keyed] returns on success depends on the tail only, and the
    rest of the tail is shorter than the tail. *)
Lemma keyed_inr t key keytail k rest :
  keyed t key keytail = Ok (inr (k, rest)) ->
  String.length rest < String.length keytail
  /\ forall t' key', keyed t' key' keytail = Ok (inr (k, rest)).
Proof.
  unfold keyed. destruct keytail as [|a r]; [by destruct (at_kpath _ _ _)|].
  destruct (Ascii.ascii_dec a "[") as [->|Hne].
  - destruct (_ =? -1)%Z; [by destruct (at_kpath _ _ _)|].
    intros [= <- <-]. split; [|done]. rewrite length_from. simpl. lia.
  - destruct a as [[] [] [] [] [] [] [] []];
      by destruct (at_kpath _ _ _).
Qed.

Lemma Elem_smaller t te : reflect.Elem t = Some te -> tsize te < tsize t.
Proof.
  induction t; simpl; try discriminate; try (intros [= ->]; lia).
  intros H. specialize (IHt H). lia.
Qed.

Lemma finishes_Return e x c : finishes (Return e x c).
Proof. done. Qed.

Lemma finishes_Panics msg : finishes (Panics msg).
Proof. done. Qed.

Lemma finishes_set_or_panic r c : finishes (set_or_panic r c).
Proof. by destruct r. Qed.

Lemma finishes_fail r target c : finishes (fail r target c).
Proof. by destruct r. Qed.

#[local] Hint Resolve finishes_Return finishes_Panics finishes_set_or_panic
  finishes_fail : core.

Lemma parseTextUnmarshaler_finishes key keytail values t target c :
  finishes (parseTextUnmarshaler UnmarshalText key keytail values t target c).
Proof.
  unfold parseTextUnmarshaler. destruct (primitive _ _ _ _) as [[err|]|msg]; [done| |done].
  destruct values; [done|]. by destruct (UnmarshalText _ _ _) as [[msg|] x].
Qed.

Lemma parseBool_finishes key keytail values t target c :
  finishes (parseBool key keytail values t target c).
Proof.
  unfold parseBool. destruct (primitive _ _ _ _) as [[err|]|msg]; [done| |done].
  destruct values; [done|]. repeat case_decide; auto.
Qed.

Lemma parseInt_finishes key keytail values t target c :
  finishes (parseInt key keytail values t target c).
Proof.
  unfold parseInt. destruct (primitive _ _ _ _) as [[err|]|msg]; [done| |done].
  destruct values; [done|]. destruct (reflect.Bits t); [|done].
  destruct (strconv.ParseInt _ _); auto.
Qed.

Lemma parseUint_finishes key keytail values t target c :
  finishes (parseUint key keytail values t target c).
Proof.
  unfold parseUint. destruct (primitive _ _ _ _) as [[err|]|msg]; [done| |done].
  destruct values; [done|]. destruct (reflect.Bits t); [|done].
  destruct (strconv.ParseUint _ _); auto.
Qed.

Lemma parseFloat_finishes key keytail values t target c :
  finishes (parseFloat ParseFloat key keytail values t target c).
Proof.
  unfold parseFloat. destruct (primitive _ _ _ _) as [[err|]|msg]; [done| |done].
  destruct values; [done|]. destruct (reflect.Bits t); [|done].
  destruct (ParseFloat _ _); auto.
Qed.

Lemma parseString_finishes key keytail values t target c :
  finishes (parseString key keytail values t target c).
Proof.
  unfold parseString. destruct (primitive _ _ _ _) as [[err|]|msg]; [done| |done].
  destruct values; [done|]. auto.
Qed.

Lemma parseMap_finishes p key keytail values t target c :
  (forall mapkey maptail te x,
     keyed t key keytail = Ok (inr (mapkey, maptail)) ->
     reflect.Elem t = Some te ->
     finishes (p key maptail values te x c)) ->
  finishes (parseMap p key keytail values t target c).
Proof.
  intros Hp. unfold parseMap.
  destruct (keyed t key keytail) as [[err|[mapkey maptail]]|msg]; [done| |done].
  destruct (reflect.Key t) as [tk|]; [|done].
  destruct (reflect.Elem t) as [te|]; [|done].
  case_decide; [|done]. destruct target; try done.
  match goal with
  | |- context [p ?k ?kt ?vs ?ty ?x ?c0] =>
      pose proof (Hp mapkey maptail ty x eq_refl eq_refl) as Hfin;
      destruct (p k kt vs ty x c0) as [[e|] y c1|msg|]
  end; done.
Qed.

Lemma parsePtr_finishes p key keytail values t target c :
  (forall te x, reflect.Elem t = Some te ->
                finishes (p key keytail values te x c)) ->
  finishes (parsePtr p key keytail values t target c).
Proof.
  intros Hp. unfold parsePtr.
  destruct (reflect.Elem t) as [te|]; [|done]. destruct target; try done.
  match goal with
  | |- context [p ?k ?kt ?vs ?ty ?x ?c0] =>
      pose proof (Hp ty x eq_refl) as Hfin;
      destruct (p k kt vs ty x c0) as [e y c1|msg|]
  end; done.
Qed.

Lemma parseSlice_loop_finishes p kp te target i rest slice c :
  (forall key vs x c', finishes (p key "" vs te x c')) ->
  finishes (parseSlice_loop p kp te target i rest slice c).
Proof.
  intros Hp. revert i slice c.
  induction rest as [|x rest IH]; intros i slice c; simpl; [done|].
  destruct (slice !! i) as [el|]; [|done].
  pose proof (Hp (parseSlice_key kp i) [x] el c) as Hfin.
  destruct (p _ _ _ _ _ _) as [[e|] y c1|msg|]; first [done|apply IH].
Qed.

Lemma parseSlice_finishes p key keytail values t target c :
  (forall te key' vs x c',
     keytail = "[]" -> reflect.Elem t = Some te ->
     finishes (p key' "" vs te x c')) ->
  finishes (parseSlice p key keytail values t target c).
Proof.
  intros Hp. unfold parseSlice. case_decide as Hk; [apply finishes_fail|].
  destruct (reflect.Elem t) as [te|] eqn:He; [|done].
  destruct (kpath key keytail) as [kp|]; [|done].
  apply parseSlice_loop_finishes. intros key' vs x c'.
  apply Hp; [|done]. destruct (decide (keytail = "[]")); [done|contradiction].
Qed.

Lemma parseStruct_finishes (f : handler -> parser) key keytail values t target c :
  (forall sk skt sf h x c',
     keyed t key keytail = Ok (inr (sk, skt)) ->
     sf ∈ reflect.Fields decls t ->
     finishes (f h key skt values (reflect.Typ sf) x c')) ->
  finishes (parseStruct decls f key keytail values t target c).
Proof.
  intros Hf. unfold parseStruct.
  destruct (keyed t key keytail) as [[err|[sk skt]]|msg]; [done| |done].
  destruct (cacheStruct t c) as [[err|sc] c1]; [done|].
  unfold parseStructField. destruct (sc !! sk) as [l|]; [|done].
  destruct target; try done.
  destruct (reflect.Fields decls t !! cacheLine.offset l) as [sf|] eqn:Hsf;
    [|done].
  apply list_elem_of_lookup_2 in Hsf.
  match goal with
  | |- context [f ?h ?k ?kt ?vs ?ty ?x ?c0] =>
      pose proof (Hf sk skt sf h x c0 eq_refl Hsf) as Hfin;
      destruct (f h k kt vs ty x c0) as [e y c2|msg|]
  end; done.
Qed.

Lemma enough_more N N' keytail t :
  N <= N' -> enough N keytail t -> enough N' keytail t.
Proof. intros Hle He fuel Hf. apply He. lia. Qed.

Lemma enough_fields keytail (fs : list reflect.StructField) :
  (forall sf, sf ∈ fs -> exists N, enough N keytail (reflect.Typ sf)) ->
  exists N, forall sf, sf ∈ fs -> enough N keytail (reflect.Typ sf).
Proof.
  induction fs as [|sf fs IH]; intros H.
  { exists 0. intros sf Hin. by apply elem_of_nil in Hin. }
  destruct (H sf) as [N1 H1]; [apply elem_of_cons; by left|].
  destruct IH as [N2 H2].
  { intros sf' Hin. apply H. apply elem_of_cons. by right. }
  exists (N1 `max` N2). intros sf' Hin.
  apply elem_of_cons in Hin as [->|Hin].
  - eapply enough_more; [|exact H1]. lia.
  - eapply enough_more; [|exact (H2 _ Hin)]. lia.
Qed.

(** The recursion of [parse] is well founded: a call on a map, a slice or
    a struct goes on with a shorter tail, a call on a pointer with the same
    tail and a smaller type. *)
Lemma enough_exists keytail t : exists N, enough N keytail t.
Proof.
  remember (String.length keytail) as m eqn:Hm. revert keytail t Hm.
  induction m as [m IHm] using lt_wf_ind. intros keytail t ->.
  assert (IHtail : forall keytail' t',
            String.length keytail' < String.length keytail ->
            exists N, enough N keytail' t').
  { intros keytail' t' Hlt. by eapply IHm. }
  clear IHm.
  remember (tsize t) as sz eqn:Hsz. revert t Hsz.
  induction sz as [sz IHsz] using lt_wf_ind. intros t ->.
  assert (Hptr : exists Np, forall te,
            reflect.Elem t = Some te -> enough Np keytail te).
  { destruct (reflect.Elem t) as [te|] eqn:He; [|by exists 0].
    destruct (IHsz (tsize te) (Elem_smaller _ _ He) te eq_refl) as [N HN].
    exists N. by intros ? [= <-]. }
  clear IHsz.
  assert (Hmap : exists Nm, forall key mapkey maptail te,
            keyed t key keytail = Ok (inr (mapkey, maptail)) ->
            reflect.Elem t = Some te -> enough Nm maptail te).
  { destruct (keyed t "" keytail) as [[err|[k rest]]|msg] eqn:Hk.
    - exists 0. intros key mapkey maptail te Hk'.
      apply keyed_inr in Hk' as [_ Hk']. by rewrite Hk' in Hk.
    - apply keyed_inr in Hk as [Hlen Hind].
      destruct (reflect.Elem t) as [te|] eqn:He; [|by exists 0].
      destruct (IHtail rest te Hlen) as [N HN]. exists N.
      intros key mapkey maptail te' Hk' [= <-].
      rewrite Hind in Hk'. by injection Hk' as <- <-.
    - exists 0. intros key mapkey maptail te Hk'.
      apply keyed_inr in Hk' as [_ Hk']. by rewrite Hk' in Hk. }
  assert (Hslice : exists Ns, forall te,
            keytail = "[]" -> reflect.Elem t = Some te -> enough Ns "" te).
  { destruct (decide (keytail = "[]")) as [->|Hne];
      [|exists 0; intros; contradiction].
    destruct (reflect.Elem t) as [te|]; [|by exists 0].
    destruct (IHtail "" te) as [N HN]; [simpl; lia|].
    exists N. by intros ? _ [= <-]. }
  assert (Hstruct : exists Nf, forall key sk skt sf,
            keyed t key keytail = Ok (inr (sk, skt)) ->
            sf ∈ reflect.Fields decls t -> enough Nf skt (reflect.Typ sf)).
  { destruct (keyed t "" keytail) as [[err|[k rest]]|msg] eqn:Hk.
    - exists 0. intros key sk skt sf Hk'.
      apply keyed_inr in Hk' as [_ Hk']. by rewrite Hk' in Hk.
    - apply keyed_inr in Hk as [Hlen Hind].
      destruct (enough_fields rest (reflect.Fields decls t)) as [N HN].
      { intros sf _. by apply IHtail. }
      exists N. intros key sk skt sf Hk' Hin.
      rewrite Hind in Hk'. injection Hk' as <- <-. by apply HN.
    - exists 0. intros key sk skt sf Hk'.
      apply keyed_inr in Hk' as [_ Hk']. by rewrite Hk' in Hk. }
  destruct Hptr as [Np Hp], Hmap as [Nm Hm], Hslice as [Ns Hs],
    Hstruct as [Nf Hf].
  exists (S ((Np `max` Nm) `max` (Ns `max` Nf))).
  intros fuel Hfuel key values target c.
  destruct fuel as [|n]; [lia|].
  assert (Emap : forall mapkey maptail te x,
            keyed t key keytail = Ok (inr (mapkey, maptail)) ->
            reflect.Elem t = Some te ->
            finishes (parse n key maptail values te x c)).
  { intros mapkey maptail te x Hk He.
    apply (Hm key mapkey maptail te Hk He n); lia. }
  assert (Eptr : forall te x, reflect.Elem t = Some te ->
            finishes (parse n key keytail values te x c)).
  { intros te x He. apply (Hp te He n); lia. }
  assert (Eslice : forall te key' vs x c',
            keytail = "[]" -> reflect.Elem t = Some te ->
            finishes (parse n key' "" vs te x c')).
  { intros te key' vs x c' Hk He. apply (Hs te Hk He n); lia. }
  assert (Estruct : forall sk skt sf h x c',
            keyed t key keytail = Ok (inr (sk, skt)) ->
            sf ∈ reflect.Fields decls t ->
            finishes (call n h key skt values (reflect.Typ sf) x c')).
  { intros sk skt sf h x c' Hk Hin.
    apply (Hf key sk skt sf Hk Hin n); lia. }
  split; [|intros h].
  - rewrite parse_S.
    destruct (textual t); [apply parseTextUnmarshaler_finishes|].
    destruct (reflect.Kind_of t); try done;
      first [ apply parseBool_finishes | apply parseInt_finishes
            | apply parseUint_finishes | apply parseFloat_finishes
            | apply parseString_finishes
            | by apply parseMap_finishes | by apply parsePtr_finishes
            | by apply parseSlice_finishes | by apply parseStruct_finishes ].
  - rewrite call_S.
    destruct h;
      first [ apply parseTextUnmarshaler_finishes
            | apply parseBool_finishes | apply parseInt_finishes
            | apply parseUint_finishes | apply parseFloat_finishes
            | apply parseString_finishes
            | by apply parseMap_finishes | by apply parsePtr_finishes
            | by apply parseSlice_finishes | by apply parseStruct_finishes ].
Qed.


(** *** The cache stays sound *)

Local Abbreviation keeps_sound := (keeps_sound decls).

Lemma parseMap_keeps_sound p : keeps_sound p -> keeps_sound (parseMap p).
Proof.
  intros Hp key keytail values t target c e v' c' Hs. unfold parseMap.
  destruct (keyed t key keytail) as [[err|[mapkey maptail]]|msg];
    [by intros [= _ _ <-]| |done].
  destruct (reflect.Key t) as [tk|]; [|done].
  destruct (reflect.Elem t) as [te|]; [|done].
  case_decide; [|by intros [= _ _ <-]]. destruct target; try done.
  destruct (p _ _ _ _ _ _) as [[err|] y c1|msg|] eqn:Hcall; try done;
    intros [= _ _ <-]; by eapply Hp.
Qed.

Lemma parsePtr_keeps_sound p : keeps_sound p -> keeps_sound (parsePtr p).
Proof.
  intros Hp key keytail values t target c e v' c' Hs. unfold parsePtr.
  destruct (reflect.Elem t) as [te|]; [|done]. destruct target; try done.
  destruct (p _ _ _ _ _ _) as [err y c1|msg|] eqn:Hcall; try done.
  intros [= _ _ <-]. by eapply Hp.
Qed.

Lemma parseSlice_keeps_sound p : keeps_sound p -> keeps_sound (parseSlice p).
Proof.
  intros Hp key keytail values t target c e v' c' Hs. unfold parseSlice.
  case_decide; [by intros ->%fail_cache|].
  destruct (reflect.Elem t) as [te|]; [|done].
  destruct (kpath key keytail) as [kp|]; [|done].
  generalize 0 (replicate (length values) (reflect.Zero te)).
  revert c Hs. induction values as [|x rest IH]; intros c Hs i slice; simpl.
  - by intros [= _ _ <-].
  - destruct (slice !! i) as [el|]; [|done].
    destruct (p _ _ _ _ _ _) as [[err|] y c1|msg|] eqn:Hcall; try done.
    + intros [= _ _ <-]. by eapply Hp.
    + apply IH. by eapply Hp.
Qed.

Lemma parseStruct_keeps_sound (f : handler -> parser) :
  (forall h, keeps_sound (f h)) -> keeps_sound (parseStruct decls f).
Proof.
  intros Hf key keytail values t target c e v' c' Hs. unfold parseStruct.
  destruct (keyed t key keytail) as [[err|[sk skt]]|msg];
    [by intros [= _ _ <-]| |done].
  destruct (cacheStruct t c) as [r c1] eqn:Hc.
  destruct (cacheStruct_sound _ _ _ _ Hs Hc) as [_ Hs1].
  destruct r as [err|sc]; [by intros [= _ _ <-]|].
  unfold parseStructField. destruct (sc !! sk) as [l|];
    [|by intros ->%fail_cache].
  destruct target; try done.
  destruct (reflect.Fields decls t !! cacheLine.offset l) as [sf|]; [|done].
  destruct (f _ _ _ _ _ _ _) as [err y c2|msg|] eqn:Hcall; try done.
  intros [= _ _ <-]. by eapply Hf.
Qed.

Lemma leaf_keeps_sound (p : parser) :
  (forall key keytail values t target c e v' c',
     p key keytail values t target c = Return e v' c' -> c' = c) ->
  keeps_sound p.
Proof.
  intros Hp key keytail values t target c e v' c' Hs Hr.
  by rewrite (Hp _ _ _ _ _ _ _ _ _ Hr).
Qed.

Lemma parse_keeps_sound n :
  keeps_sound (parse n) /\ forall h, keeps_sound (call n h).
Proof.
  induction n as [|n [IHp IHc]].
  { split; [|intros h]; intros key keytail values t target c e v' c' _;
      discriminate. }
  split.
  - intros key keytail values t target c e v' c' Hs. rewrite parse_S.
    destruct (textual t);
      [by apply (leaf_keeps_sound _ parseTextUnmarshaler_cache)|].
    destruct (reflect.Kind_of t); try (by intros [= _ _ <-]);
      first [ by apply (leaf_keeps_sound _ parseBool_cache)
            | by apply (leaf_keeps_sound _ parseInt_cache)
            | by apply (leaf_keeps_sound _ parseUint_cache)
            | by apply (leaf_keeps_sound _ parseFloat_cache)
            | by apply (leaf_keeps_sound _ parseString_cache)
            | by apply parseMap_keeps_sound
            | by apply parsePtr_keeps_sound
            | by apply parseSlice_keeps_sound
            | by apply parseStruct_keeps_sound ].
  - intros h key keytail values t target c e v' c' Hs. rewrite call_S.
    destruct h;
      first [ by apply (leaf_keeps_sound _ parseTextUnmarshaler_cache)
            | by apply (leaf_keeps_sound _ parseBool_cache)
            | by apply (leaf_keeps_sound _ parseInt_cache)
            | by apply (leaf_keeps_sound _ parseUint_cache)
            | by apply (leaf_keeps_sound _ parseFloat_cache)
            | by apply (leaf_keeps_sound _ parseString_cache)
            | by apply parseMap_keeps_sound
            | by apply parsePtr_keeps_sound
            | by apply parseSlice_keeps_sound
            | by apply parseStruct_keeps_sound ].
Qed.

(** X22. [Parse] leaves the cache sound if it found it so: starting from
    the empty cache, every table a sequence of calls of [Parse] publishes
    is the one a build of its struct type yields. *)
Lemma Parse_keeps_sound fuel params target c e v' c' :
  cache_sound decls c ->
  Parse fuel params target c = Return e v' c' -> cache_sound decls c'.
Proof.
  intros Hs. unfold param.Parse.
  destruct (_ || _).
  { destruct (reflect.VType _); [|done]. destruct target as [[ty x]|]; [|done].
    by intros [= _ _ <-]. }
  destruct (reflect.VElem _) as [[t el]|]; [|done].
  destruct (cacheStruct t c) as [r c1] eqn:Hc.
  destruct (cacheStruct_sound _ _ _ _ Hs Hc) as [_ Hs1].
  destruct r as [err|sc]; [by intros [= _ _ <-]|].
  destruct (Parse_loop _ _ _ _ _ _ _ _ _) as [err y c2|msg|] eqn:Hloop;
    try done.
  intros [= _ _ <-]. clear Hc. revert el c1 Hs1 Hloop.
  induction params as [|[key values] rest IH]; intros el c1 Hs1; simpl.
  - by intros [= _ _ <-].
  - destruct (split_key key) as [sk keytail].
    unfold parseStructField. destruct (sc !! sk) as [l|].
    2:{ destruct (at_kpath _ _ _); simpl; [by intros [= _ _ <-]|done]. }
    destruct el; try done.
    destruct (reflect.Fields decls t !! cacheLine.offset l) as [sf|]; [|done].
    destruct (call fuel _ _ _ _ _ _ _) as [[err'|] y' c3|msg|] eqn:Hcall;
      try done.
    + intros [= _ _ <-]. by eapply (proj2 (parse_keeps_sound fuel)).
    + apply IH. by eapply (proj2 (parse_keeps_sound fuel)).
Qed.

(** *** [Parse] terminates too *)

Lemma Parse_loop_finishes fuel sc params t el c :
  (forall key values sf, (key, values) ∈ params ->
     sf ∈ reflect.Fields decls t ->
     enough fuel (split_key key).2 (reflect.Typ sf)) ->
  finishes (Parse_loop decls ParseFloat UnmarshalText fuel sc params t el c).
Proof.
  revert el c. induction params as [|[key values] rest IH]; intros el c He;
    simpl; [done|].
  pose proof (He key values) as Hkey.
  destruct (split_key key) as [sk keytail]. simpl in Hkey.
  unfold parseStructField. destruct (sc !! sk) as [l|];
    [|by destruct (at_kpath _ _ _)].
  destruct el; try done.
  destruct (reflect.Fields decls t !! cacheLine.offset l) as [sf|] eqn:Hsf;
    [|done].
  apply list_elem_of_lookup_2 in Hsf.
  match goal with
  | |- context [call ?n ?h ?k ?kt ?vs ?ty ?x ?c0] =>
      pose proof (proj2 (Hkey sf (list_elem_of_here _ _) Hsf fuel
                           (Nat.le_refl _) k vs x c0) h) as Hfin;
      destruct (call n h k kt vs ty x c0) as [[e|] y c2|msg|]
  end; try done.
  apply IH. intros key' values' sf' Hin. apply (He key' values' sf').
  by apply elem_of_cons; right.
Qed.

Lemma Parse_loop_agrees n m sc params t el c :
  n <= m ->
  finishes (Parse_loop decls ParseFloat UnmarshalText n sc params t el c) ->
  Parse_loop decls ParseFloat UnmarshalText m sc params t el c
  = Parse_loop decls ParseFloat UnmarshalText n sc params t el c.
Proof.
  intros Hle. destruct (fuel_more n m Hle) as [_ Hc]. revert el c.
  induction params as [|[key values] rest IH]; intros el c; simpl; [done|].
  destruct (split_key key) as [sk keytail].
  unfold parseStructField. destruct (sc !! sk) as [l|];
    [|by destruct (at_kpath _ _ _)].
  destruct el; try done.
  destruct (reflect.Fields decls t !! cacheLine.offset l) as [sf|]; [|done].
  match goal with
  | |- context [call n ?h ?k ?kt ?vs ?ty ?x ?c0] =>
      pose proof (Hc h k kt vs ty x c0) as Heq;
      destruct (call n h k kt vs ty x c0) as [[e|] y c2|msg|] eqn:Hcall
  end.
  - intros _. by rewrite Heq.
  - intros Hfin. rewrite Heq by done. by apply IH.
  - intros _. by rewrite Heq.
  - intros Hfin. by destruct Hfin.
Qed.

Lemma enough_params (params : list (string * list string)) t :
  exists N, forall key values sf, (key, values) ∈ params ->
    sf ∈ reflect.Fields decls t ->
    enough N (split_key key).2 (reflect.Typ sf).
Proof.
  induction params as [|[key values] rest [N1 H1]].
  { exists 0. intros key values sf Hin. by apply elem_of_nil in Hin. }
  destruct (enough_fields (split_key key).2 (reflect.Fields decls t))
    as [N2 H2].
  { intros sf _. apply enough_exists. }
  exists (N1 `max` N2). intros key' values' sf Hin Hsf.
  apply elem_of_cons in Hin as [[= -> ->]|Hin].
  - eapply enough_more; [|exact (H2 _ Hsf)]. lia.
  - eapply enough_more; [|exact (H1 _ _ _ Hin Hsf)]. lia.
Qed.


End Properties.

(** ** The tests of the package, run on the model *)

Example TestBool_on :
  Fixture.run 1 [("Bool", ["on"])] Fixture.Everything
  = Some (None, Some (reflect.VStruct {[ 0 := reflect.VBool true ]})).
Proof. vm_compute. reflexivity. Qed.

Example TestBoolErrors_llama :
  Fixture.run 1 [("Bool", ["llama"])] Fixture.Everything
  = Some (Some (ValueError "Bool" reflect.TBool None),
          Some (reflect.VStruct {[ 0 := reflect.VBool false ]})).
Proof. vm_compute. reflexivity. Qed.

Example TestInt_negative :
  Fixture.run 1 [("Int", ["-42"])] Fixture.Everything
  = Some (None, Some (reflect.VStruct {[ 1 := reflect.VInt (-42) ]})).
Proof. vm_compute. reflexivity. Qed.

Example TestUintErrors_negative :
  fst <$> Fixture.run 1 [("Uint", ["-42"])] Fixture.Everything
  = Some (Some (ValueError "Uint" (reflect.TUint reflect.KUint)
                  (Some (NumCause strconv.ErrSyntax)))).
Proof. vm_compute. reflexivity. Qed.

Example TestMap :
  Fixture.field 4
    (Fixture.run 2 [("Map[one]", ["1"]); ("Map[two]", ["2"]);
                    ("Map[three]", ["3"])] Fixture.Everything
     ≫= snd)
  = Some (reflect.VMap (Some {[ "one" := reflect.VInt 1;
                                "two" := reflect.VInt 2;
                                "three" := reflect.VInt 3 ]})).
Proof. vm_compute. reflexivity. Qed.

Example TestMapErrors_malformed :
  fst <$> Fixture.run 2 [("Map[", ["llama"])] Fixture.Everything
  = Some (Some (SyntaxError "Map" MissingClosingBracket "")).
Proof. vm_compute. reflexivity. Qed.

Example TestSlice :
  Fixture.field 5
    (Fixture.run 2 [("Slice[]", ["3"; "1"; "4"])] Fixture.Everything ≫= snd)
  = Some (reflect.VSlice
            (Some [reflect.VInt 3; reflect.VInt 1; reflect.VInt 4])).
Proof. vm_compute. reflexivity. Qed.

Example TestSliceErrors_without_key :
  fst <$> Fixture.run 2 [("Slice", ["1"])] Fixture.Everything
  = Some (Some (NestingError "Slice" (reflect.TSlice Fixture.int) "")).
Proof. vm_compute. reflexivity. Qed.

Example TestStruct :
  Fixture.field 7
    (Fixture.run 2 [("Struct[A]", ["4"]); ("Struct[B]", ["2"])]
       Fixture.Everything ≫= snd)
  = Some (reflect.VStruct {[ 0 := reflect.VInt 4; 1 := reflect.VInt 2 ]}).
Proof. vm_compute. reflexivity. Qed.

Example TestStructErrors_without_key :
  fst <$> Fixture.run 2 [("Struct", ["llama"])] Fixture.Everything
  = Some (Some (SyntaxError "Struct" MissingOpeningBracket "")).
Proof. vm_compute. reflexivity. Qed.

Example TestStructErrors_unknown :
  fst <$> Fixture.run 2 [("Struct[C]", ["llama"])] Fixture.Everything
  = Some (Some (KeyError "Struct[C]" "Struct[C]" Fixture.Sub "C")).
Proof. vm_compute. reflexivity. Qed.

Example TestPtr_PPInt :
  Fixture.field 11
    (Fixture.run 3 [("PPInt", ["2"])] Fixture.Everything ≫= snd)
  = Some (pointer_to (pointer_to (reflect.VInt 2))).
Proof. vm_compute. reflexivity. Qed.

Example TestCrazy :
  let c := Fixture.run 12 Fixture.crazy_params Fixture.Crazy ≫= snd in
  let A := Fixture.field 0 in
  let B := Fixture.field 1 in
  let Value := Fixture.field 2 in
  let Slice := Fixture.field 3 in
  let Map := Fixture.field 4 in
  let at_ x := Fixture.deref x in
  Value (at_ (A (at_ (B (at_ (B (at_ (A c)))))))) = Some (reflect.VInt 1)
  /\ Value (at_ (A c)) = Some (reflect.VInt 2)
  /\ Value c = Some (reflect.VInt 42)
  /\ Value (at_ (A (Fixture.index "hello" (Map (at_ (B c))))))
     = Some (reflect.VInt 8)
  /\ B (at_ (B (at_ (B (at_ (A c)))))) = None
  /\ A (at_ (B (at_ (A c)))) = None
  /\ A (at_ (A c)) = None
  /\ Slice c = None /\ Map c = None
  /\ Slice (at_ (A (at_ (A (at_ (B c))))))
     = Some (reflect.VSlice
               (Some [reflect.VInt 3; reflect.VInt 1; reflect.VInt 4]))
  /\ Slice (at_ (A c))
     = Some (reflect.VSlice
               (Some [reflect.VInt 9; reflect.VInt 1; reflect.VInt 1])).
Proof. vm_compute. repeat split; reflexivity. Qed.

Example TestParseNilPtr :
  Fixture.Parse 1 [("A", ["123"])]
    (Some (reflect.TPtr Fixture.Sub, reflect.VPtr None)) []
  = Return (Some (InvalidParseError (reflect.TPtr Fixture.Sub)
                    (HintText "target may not be a nil pointer")))
      (reflect.VPtr None) [].
Proof. vm_compute. reflexivity. Qed.

Example TestUnsupportedStructKind :
  fst <$> Fixture.run 1 [("Bad", ["123"])] Fixture.BadChan
  = Some (Some (InvalidParseError Fixture.BadChan
                  (HintField "Bad" Fixture.BadChan))).
Proof. vm_compute. reflexivity. Qed.

Example TestUnsupportedMapKey :
  fst <$> Fixture.run 2 [("Bad[123]", ["123"])] Fixture.BadMapKey
  = Some (Some (InvalidParseError (reflect.TMap Fixture.int Fixture.int)
                  (HintMapKeys Fixture.int))).
Proof. vm_compute. reflexivity. Qed.

(** ** The statements at the types of the tests *)

(** C1.  [T] being [struct { M map[string]Sub }] with [Sub] of the package's
    tests ([struct { A int; B int }]): a first [Parse] of [M[x][A]=1] into
    a zero [T] leaves [M["x"] = Sub{A: 1}]; a second [Parse], of
    [M[x][B]=2] into the same target, leaves [M["x"] = Sub{B: 2}]: the
    field [A] the first call had set is back to zero. *)
Theorem map_element_is_replaced_by_a_fresh_one :
  let with_M x :=
    reflect.VPtr (Some (reflect.VStruct
      {[ 0 := reflect.VMap (Some {[ "x" := reflect.VStruct x ]}) ]})) in
  Fixture.run_twice 3 [("M[x][A]", ["1"])] [("M[x][B]", ["2"])] Fixture.Subs
  = (Some (None, with_M {[ 0 := reflect.VInt 1 ]}),
     Some (None, with_M {[ 1 := reflect.VInt 2 ]})).
Proof. vm_compute. reflexivity. Qed.

Local Open Scope list_scope.

(** Counterexample for C2: the metadata of [struct { Bad map[int]int }]
    builds, with the map parser for [Bad], and [Parse] of no pair into it
    returns nil. *)
Lemma metadata_of_int_keyed_map_builds :
  buildStruct Fixture.decls Fixture.BadMapKey
  = inr {[ "Bad" := cacheLine.mk 0 fn_parseMap ]}
  /\ returned (Fixture.Parse 0 [] (Fixture.new Fixture.BadMapKey) [])
     = Some (None, reflect.VPtr (Some (reflect.VStruct ∅))).
Proof. split; vm_compute; reflexivity. Qed.

(** C2 (amended) at the field [Bad map[int]int]. *)
Lemma map_key_shape_is_checked_when_decoding_witness :
  let sf := Fixture.exported "Bad" (reflect.TMap Fixture.int Fixture.int) in
  extractHandler Fixture.BadMapKey sf = inr fn_parseMap
  /\ forall fuel key keytail mapkey maptail values target c,
       keyed (reflect.Typ sf) key keytail = Ok (inr (mapkey, maptail)) ->
       Fixture.call (S fuel) fn_parseMap key keytail values (reflect.Typ sf)
         target c
       = Return (Some (InvalidParseError (reflect.Typ sf)
                         (HintMapKeys Fixture.int))) target c.
Proof.
  apply (map_key_shape_is_checked_when_decoding Fixture.decls
           Fixture.ParseFloat Fixture.UnmarshalText Fixture.BadMapKey
           (Fixture.exported "Bad" (reflect.TMap Fixture.int Fixture.int))
           Fixture.int);
    [reflexivity|reflexivity|discriminate].
Defined.

(** C3 at a slot of type [int]. *)
Lemma leaf_target_discipline_witness :
  leaf_shaped Fixture.int = true
  /\ leaf_discipline (Fixture.parse 1) Fixture.int
  /\ (forall s sf h,
        reflect.Typ sf = Fixture.int -> extractHandler s sf = inr h ->
        leaf_discipline (Fixture.call 1 h) Fixture.int).
Proof.
  split; [reflexivity|].
  apply (leaf_target_discipline Fixture.decls Fixture.ParseFloat
           Fixture.UnmarshalText Fixture.int 0).
  reflexivity.
Defined.



(** C6 at a struct whose fields carry the annotations in their
    combinations. *)
Lemma field_name_resolution_witness :
  let sc : structCache :=
    {[ "one" := cacheLine.mk 0 fn_parseInt;
       "two" := cacheLine.mk 1 fn_parseInt;
       "Third" := cacheLine.mk 2 fn_parseInt ]} in
  buildStruct Fixture.decls Fixture.Named = inr sc
  /\ (forall name,
        is_Some (sc !! name)
        <-> exists sf, sf ∈ reflect.Fields Fixture.decls Fixture.Named
                       /\ cached_field sf
                       /\ resolved_name sf = name /\ name ≠ "-")
  /\ returned (Fixture.Parse 0 [("-", ["2"])] (Fixture.new Fixture.Named) [])
     = Some (Some (KeyError "-" "-" Fixture.Named "-"),
             reflect.VPtr (Some (reflect.VStruct ∅))).
Proof.
  cbv zeta.
  assert (Hb : buildStruct Fixture.decls Fixture.Named
               = inr ({[ "one" := cacheLine.mk 0 fn_parseInt;
                         "two" := cacheLine.mk 1 fn_parseInt;
                         "Third" := cacheLine.mk 2 fn_parseInt ]}
                      : structCache))
    by (vm_compute; reflexivity).
  split; [exact Hb|].
  destruct (field_name_resolution Fixture.decls Fixture.ParseFloat
              Fixture.UnmarshalText Fixture.Named _ Hb) as (_ & Hdom & Hkey).
  split; [exact Hdom|].
  unfold Fixture.new, Fixture.Parse.
  rewrite (Hkey 0 (reflect.TPtr Fixture.Named) (reflect.VStruct ∅) [] ""
             ["2"] []); [reflexivity| |by repeat split|by left].
  intros t sc Hl. discriminate Hl.
Defined.

(** Counterexample for C8: [struct { Bad chan string `param:"-"` }] has
    an exported field of unsupported shape, and [Parse] into it returns
    nil. *)
Lemma skipped_field_of_unsupported_shape_is_accepted :
  reflect.Fields Fixture.decls Fixture.SkippedChan
    = [ Fixture.tagged "Bad" (reflect.TChan reflect.TString) [("param", "-")] ]
  /\ unsupported (reflect.TChan reflect.TString) = true
  /\ returned (Fixture.Parse 0 [] (Fixture.new Fixture.SkippedChan) [])
     = Some (None, reflect.VPtr (Some (reflect.VStruct ∅))).
Proof. repeat split; vm_compute; reflexivity. Qed.

(** C8 (amended) at [struct { Bad chan string }] and no pair. *)
Lemma Parse_fails_on_unsupported_field_witness :
  exists field,
    Fixture.Parse 0 [] (Fixture.new Fixture.BadChan) []
    = Return (Some (InvalidParseError Fixture.BadChan
                      (HintField field Fixture.BadChan)))
        (reflect.VPtr (Some (reflect.VStruct ∅))) [].
Proof.
  apply (Parse_fails_on_unsupported_field Fixture.decls Fixture.ParseFloat
           Fixture.UnmarshalText 0 [] (reflect.TPtr Fixture.BadChan)
           Fixture.BadChan (reflect.VStruct ∅) []
           (Fixture.exported "Bad" (reflect.TChan reflect.TString))).
  - intros t sc Hl. discriminate Hl.
  - repeat split.
  - apply list_elem_of_here.
  - reflexivity.
  - discriminate.
  - reflexivity.
Defined.

(** C9 at [struct { Bad chan string }] and the empty cache. *)
Lemma cacheStruct_failure_publishes_nothing_witness :
  let err := InvalidParseError Fixture.BadChan
               (HintField "Bad" Fixture.BadChan) in
  cacheStruct Fixture.decls Fixture.BadChan [] = (inl err, [])
  /\ cache_lookup [] Fixture.BadChan = None
  /\ buildStruct Fixture.decls Fixture.BadChan = inl err
  /\ cacheStruct Fixture.decls Fixture.BadChan [] = (inl err, []).
Proof.
  cbv zeta.
  assert (H : cacheStruct Fixture.decls Fixture.BadChan []
              = (inl (InvalidParseError Fixture.BadChan
                        (HintField "Bad" Fixture.BadChan)), []))
    by (vm_compute; reflexivity).
  split; [exact H|].
  exact (proj2 (cacheStruct_failure_publishes_nothing Fixture.decls
                  Fixture.BadChan [] [] _ H)).
Defined.

(** ** More of the package: key paths, leaves, containers, cache, entry *)

(** *** Key paths *)

Section KeyPaths.

Variable decls : reflect.Decls.
Variable ParseFloat : string -> Z -> strconv.NumErr + Z.
Variable UnmarshalText :
  reflect.rtype -> string -> reflect.value -> option string * reflect.value.

Local Abbreviation parse := (parse decls ParseFloat UnmarshalText).
Local Abbreviation call := (call decls ParseFloat UnmarshalText).
Local Abbreviation Parse := (Parse decls ParseFloat UnmarshalText).
Local Abbreviation Parse_loop :=
  (Parse_loop decls ParseFloat UnmarshalText).
Local Abbreviation parse_S := (parse_S decls ParseFloat UnmarshalText).
Local Abbreviation call_S := (call_S decls ParseFloat UnmarshalText).

Lemma IndexRune_found s c i :
  strings.IndexRune s c = Z.of_nat i ->
  s = strings.upto i s +:+ String c (strings.from (S i) s)
  /\ strings.IndexRune (strings.upto i s) c = (-1)%Z.
Proof.
  revert i. induction s as [|a s IH]; intros i; simpl; [lia|].
  destruct (Ascii.eqb_spec a c) as [->|Hne].
  - intros Hi. assert (i = 0) as -> by lia. done.
  - pose proof (IndexRune_lower s c) as Hlow.
    destruct (Z.eqb_spec (strings.IndexRune s c) (-1)); [lia|].
    intros Hi. destruct i as [|i]; [lia|].
    destruct (IH i) as [Hs Hu]; [lia|]. split.
    + change (String a s
              = String a (strings.upto i s +:+ String c (strings.from (S i) s))).
      by rewrite <- Hs.
    + change (strings.IndexRune (String a (strings.upto i s)) c = (-1)%Z).
      simpl. rewrite Hu.
      by destruct (Ascii.eqb_spec a c); [contradiction|].
Qed.

Lemma IndexRune_append k c r :
  strings.IndexRune k c = (-1)%Z ->
  strings.IndexRune (k +:+ String c r) c = Z.of_nat (String.length k).
Proof.
  induction k as [|a k IH]; simpl.
  - intros _. by rewrite Ascii.eqb_refl.
  - destruct (Ascii.eqb_spec a c); [lia|].
    pose proof (IndexRune_lower k c) as Hlow.
    destruct (Z.eqb_spec (strings.IndexRune k c) (-1)) as [Hk|]; [|lia].
    intros _. rewrite (IH Hk).
    destruct (Z.eqb_spec (Z.of_nat (String.length k)) (-1)); lia.
Qed.

Lemma keyed_open t key body :
  keyed t key (String "[" body)
  = let i := strings.IndexRune body "]" in
    if (i =? -1)%Z then
      match at_kpath key (String "[" body) (fun path =>
              SyntaxError path MissingClosingBracket body) with
      | Ok err => Ok (inl err)
      | Panic msg => Panic msg
      end
    else Ok (inr (strings.upto (Z.to_nat i) body,
                  strings.from (S (Z.to_nat i)) body)).
Proof.
  unfold keyed.
  change (strings.IndexRune (String "[" body) "]")
    with (let i := strings.IndexRune body "]" in
          if (i =? -1)%Z then (-1)%Z else (i + 1)%Z).
  cbv zeta. pose proof (IndexRune_lower body "]") as Hlow.
  destruct (Z.eqb_spec (strings.IndexRune body "]") (-1)) as [|Hne]; [done|].
  destruct (Z.eqb_spec (strings.IndexRune body "]" + 1) (-1)); [lia|].
  unfold strings.slice.
  replace (Z.to_nat (strings.IndexRune body "]" + 1) - 1)
    with (Z.to_nat (strings.IndexRune body "]")) by lia.
  replace (Z.to_nat (strings.IndexRune body "]" + 1) + 1)
    with (S (S (Z.to_nat (strings.IndexRune body "]")))) by lia.
  reflexivity.
Qed.

Lemma keyed_closed t key keytail :
  no_bracket keytail ->
  keyed t key keytail
  = match at_kpath key keytail (fun path =>
            SyntaxError path MissingOpeningBracket keytail) with
    | Ok err => Ok (inl err)
    | Panic msg => Panic msg
    end.
Proof.
  intros [->|(a & r & -> & Hne)]; [done|]. unfold keyed.
  by destruct a as [[] [] [] [] [] [] [] []].
Qed.

Lemma keyed_tail t key keytail k rest :
  keyed t key keytail = Ok (inr (k, rest)) ->
  keytail = "[" +:+ k +:+ "]" +:+ rest
  /\ strings.IndexRune k "]" = (-1)%Z.
Proof.
  destruct keytail as [|a body].
  { rewrite keyed_closed by (by left). by destruct (at_kpath _ _ _). }
  destruct (Ascii.ascii_dec a "[") as [->|Hne].
  2:{ rewrite keyed_closed by (right; by exists a, body).
      by destruct (at_kpath _ _ _). }
  rewrite keyed_open. cbv zeta.
  pose proof (IndexRune_lower body "]") as Hlow.
  destruct (Z.eqb_spec (strings.IndexRune body "]") (-1)) as [|Hne];
    [by destruct (at_kpath _ _ _)|].
  intros [= <- <-].
  destruct (IndexRune_found body "]"
              (Z.to_nat (strings.IndexRune body "]"))) as [Hs Hu]; [lia|].
  split; [|done].
  change (String "[" body
          = String "[" (strings.upto (Z.to_nat (strings.IndexRune body "]")) body
               +:+ String "]"
                     (strings.from (S (Z.to_nat (strings.IndexRune body "]")))
                        body))).
  by rewrite <- Hs.
Qed.

Lemma keyed_segment t key k rest :
  strings.IndexRune k "]" = (-1)%Z ->
  keyed t key ("[" +:+ k +:+ "]" +:+ rest) = Ok (inr (k, rest)).
Proof.
  intros Hk.
  change ("[" +:+ k +:+ "]" +:+ rest) with (String "[" (k +:+ String "]" rest)).
  rewrite keyed_open. cbv zeta. rewrite (IndexRune_append k "]" rest Hk).
  destruct (Z.eqb_spec (Z.of_nat (String.length k)) (-1)); [lia|].
  rewrite Nat2Z.id, upto_append.
  replace (strings.from (S (String.length k)) (k +:+ String "]" rest))
    with rest; [done|].
  clear. induction k as [|a k IH]; simpl; [by destruct rest|exact IH].
Qed.

(** X1. [keyed] takes one bracket segment off the tail and nothing else:
    it returns the pair [(k, rest)] exactly when the tail is "[" followed
    by [k], "]" and [rest], with no "]" in [k]; the key and the type play
    no part. *)
Theorem keyed_takes_one_bracket_segment
    (t : reflect.rtype) (key keytail k rest : string) :
  keyed t key keytail = Ok (inr (k, rest))
  <-> keytail = "[" +:+ k +:+ "]" +:+ rest
      /\ strings.IndexRune k "]" = (-1)%Z.
Proof.
  split; [apply keyed_tail|]. intros [-> Hk]. by apply keyed_segment.
Qed.

Lemma parse_no_bracket fuel t key keytail path values target c :
  textual t = false ->
  reflect.Kind_of t = reflect.Map \/ reflect.Kind_of t = reflect.Struct ->
  kpath key keytail = Some path -> no_bracket keytail ->
  parse (S fuel) key keytail values t target c
  = Return (Some (SyntaxError path MissingOpeningBracket keytail)) target c.
Proof.
  intros Ht Hk Hpath Hno. rewrite parse_S, Ht.
  destruct Hk as [-> | ->]; unfold parseMap, parseStruct;
    rewrite (keyed_closed _ _ _ Hno); unfold at_kpath; by rewrite Hpath.
Qed.

(** X2. A map or struct target needs a bracket segment: on a tail that is
    empty or starts with another byte than "[" the dispatcher returns a
    Syntax error (missing opening bracket, with the tail as the offending
    part), on a tail that opens a bracket and never closes it a Syntax
    error (missing closing bracket, with what follows the "["); in both
    cases at the path walked so far, and leaving target and cache alone. *)
Theorem container_needs_a_bracket_segment
    (fuel : nat) (t : reflect.rtype) (key keytail path : string)
    (values : list string) (target : reflect.value) (c : Cache) :
  textual t = false ->
  reflect.Kind_of t = reflect.Map \/ reflect.Kind_of t = reflect.Struct ->
  kpath key keytail = Some path ->
  (no_bracket keytail ->
     parse (S fuel) key keytail values t target c
     = Return (Some (SyntaxError path MissingOpeningBracket keytail)) target c)
  /\ (forall body,
        keytail = String "[" body -> strings.IndexRune body "]" = (-1)%Z ->
        parse (S fuel) key keytail values t target c
        = Return (Some (SyntaxError path MissingClosingBracket body)) target c).
Proof.
  intros Ht Hk Hpath. split; [by apply parse_no_bracket|].
  intros body -> Hbody. rewrite parse_S, Ht.
  destruct Hk as [-> | ->]; unfold parseMap, parseStruct;
    rewrite keyed_open; cbv zeta; rewrite Hbody; simpl;
    unfold at_kpath; by rewrite Hpath.
Qed.

Lemma append_empty_r (s : string) : s +:+ "" = s.
Proof.
  induction s as [|a s IH]; [done|].
  change (String a (s +:+ "") = String a s). by rewrite IH.
Qed.

Lemma upto_from (i : nat) (s : string) :
  strings.upto i s +:+ strings.from i s = s.
Proof.
  revert s. induction i as [|i IH]; intros [|a s]; try done.
  change (String a (strings.upto i s +:+ strings.from i s) = String a s).
  by rewrite IH.
Qed.

Lemma IndexRune_from s c i :
  strings.IndexRune s c = Z.of_nat i ->
  strings.from i s = String c (strings.from (S i) s).
Proof.
  revert i. induction s as [|a s IH]; intros i; simpl; [lia|].
  destruct (Ascii.eqb_spec a c) as [->|Hne].
  - intros Hi. by assert (i = 0) as -> by lia.
  - pose proof (IndexRune_lower s c) as Hlow.
    destruct (Z.eqb_spec (strings.IndexRune s c) (-1)); [lia|].
    intros Hi. destruct i as [|i]; [lia|]. apply IH. lia.
Qed.

Lemma split_key_append (key : string) :
  key = (split_key key).1 +:+ (split_key key).2.
Proof.
  unfold split_key.
  destruct (Z.eqb_spec (strings.IndexRune key "[") (-1)) as [Hi|Hi]; simpl.
  - by rewrite append_empty_r.
  - by rewrite upto_from.
Qed.

Lemma split_key_kpath (key : string) :
  kpath key (split_key key).2 = Some (split_key key).1.
Proof.
  unfold split_key.
  destruct (Z.eqb_spec (strings.IndexRune key "[") (-1)) as [Hi|Hi]; simpl.
  - apply kpath_empty_tail.
  - set (i := Z.to_nat (strings.IndexRune key "[")).
    pose proof (kpath_app (strings.upto i key) (strings.from i key)) as H.
    by rewrite upto_from in H.
Qed.

(** X3. [Parse] splits a key at its first "[": the head and the tail put
    together are the key, the head holds no "[", the tail is empty or
    opens a bracket, and the path [kpath] computes from the key and this
    tail is the head (its slice expression is in bounds). *)
Theorem split_key_splits_at_the_first_bracket (key : string) :
  key = (split_key key).1 +:+ (split_key key).2
  /\ strings.IndexRune (split_key key).1 "[" = (-1)%Z
  /\ bracket_tail (split_key key).2
  /\ kpath key (split_key key).2 = Some (split_key key).1.
Proof.
  split; [apply split_key_append|]. split; [|split; [|apply split_key_kpath]].
  - unfold split_key. pose proof (IndexRune_lower key "[") as Hlow.
    destruct (Z.eqb_spec (strings.IndexRune key "[") (-1)) as [Hi|Hi]; simpl;
      [done|].
    apply (IndexRune_found key "[" (Z.to_nat (strings.IndexRune key "["))).
    lia.
  - unfold split_key. pose proof (IndexRune_lower key "[") as Hlow.
    destruct (Z.eqb_spec (strings.IndexRune key "[") (-1)) as [Hi|Hi]; simpl;
      [by left|].
    right. eexists. apply IndexRune_from. lia.
Qed.

Lemma tail_of_kpath keytail key :
  tail_of keytail key -> exists path, kpath key keytail = Some path.
Proof. intros [head ->]. exists head. apply kpath_app. Qed.

Lemma tail_of_empty key : tail_of "" key.
Proof. exists key. by rewrite append_empty_r. Qed.

Lemma append_assoc (a b c : string) : (a +:+ b) +:+ c = a +:+ (b +:+ c).
Proof.
  induction a as [|x a IH]; [done|].
  change (String x ((a +:+ b) +:+ c) = String x (a +:+ (b +:+ c))).
  by rewrite IH.
Qed.

Lemma keyed_tail_of t key keytail k rest :
  keyed t key keytail = Ok (inr (k, rest)) ->
  tail_of keytail key -> tail_of rest key.
Proof.
  intros Hk [head ->]. apply keyed_tail in Hk as [-> _].
  exists (head +:+ "[" +:+ k +:+ "]"). by rewrite !append_assoc.
Qed.

Lemma keyed_in_range t key keytail :
  tail_of keytail key -> forall msg, keyed t key keytail ≠ Panic msg.
Proof.
  intros [path Hp]%tail_of_kpath msg. unfold keyed, at_kpath. rewrite Hp.
  destruct keytail as [|a body]; [done|].
  destruct a as [[] [] [] [] [] [] [] []]; try done.
  by destruct (_ =? _)%Z.
Qed.

Lemma fail_in_range key keytail mk target c :
  tail_of keytail key ->
  index_panic (fail (at_kpath key keytail mk) target c) = false.
Proof.
  intros [path Hp]%tail_of_kpath. unfold at_kpath. by rewrite Hp.
Qed.

Lemma set_or_panic_in_range r c : index_panic (set_or_panic r c) = false.
Proof. by destruct r. Qed.

Lemma primitive_in_range key keytail t values :
  tail_of keytail key ->
  (exists err, primitive key keytail t values = Ok (Some err))
  \/ (primitive key keytail t values = Ok None /\ exists v, values = [v]).
Proof.
  intros [path Hp]%tail_of_kpath. unfold primitive, at_kpath. rewrite Hp.
  destruct (decide (keytail ≠ "")); [left; by eexists|].
  destruct (decide (length values ≠ 1)) as [|Hl]; [left; by eexists|].
  right. split; [done|]. destruct values as [|v [|w values]]; simpl in Hl;
    [by destruct Hl|by exists v|destruct Hl; lia].
Qed.

Ltac leaf_in_range :=
  intros key keytail values t target c Htail;
  destruct (primitive_in_range key keytail t values Htail)
    as [[err ->]|[-> [v ->]]]; [done|].

Lemma parseTextUnmarshaler_in_range :
  in_range (parseTextUnmarshaler UnmarshalText).
Proof.
  unfold parseTextUnmarshaler. leaf_in_range.
  destruct (UnmarshalText t v target) as [[msg|] x]; [|done].
  by apply fail_in_range.
Qed.

Lemma parseBool_in_range : in_range parseBool.
Proof.
  unfold parseBool. leaf_in_range.
  destruct (decide _); [apply set_or_panic_in_range|].
  destruct (decide _); [apply set_or_panic_in_range|by apply fail_in_range].
Qed.

Lemma parseInt_in_range : in_range parseInt.
Proof.
  unfold parseInt. leaf_in_range. destruct (reflect.Bits t); [|done].
  destruct (strconv.ParseInt _ _);
    [by apply fail_in_range|apply set_or_panic_in_range].
Qed.

Lemma parseUint_in_range : in_range parseUint.
Proof.
  unfold parseUint. leaf_in_range. destruct (reflect.Bits t); [|done].
  destruct (strconv.ParseUint _ _);
    [by apply fail_in_range|apply set_or_panic_in_range].
Qed.

Lemma parseFloat_in_range : in_range (parseFloat ParseFloat).
Proof.
  unfold parseFloat. leaf_in_range. destruct (reflect.Bits t); [|done].
  destruct (ParseFloat _ _);
    [by apply fail_in_range|apply set_or_panic_in_range].
Qed.

Lemma parseString_in_range : in_range parseString.
Proof. unfold parseString. leaf_in_range. apply set_or_panic_in_range. Qed.

Lemma parseMap_in_range p : in_range p -> in_range (parseMap p).
Proof.
  intros Hp key keytail values t target c Htail. unfold parseMap.
  pose proof (keyed_in_range t key keytail Htail) as Hno.
  destruct (keyed t key keytail) as [[err|[mapkey maptail]]|msg] eqn:Hk;
    [done| |by destruct (Hno msg)].
  destruct (reflect.Key t) as [tk|]; [|done].
  destruct (reflect.Elem t) as [te|]; [|done].
  case_decide; [|done]. destruct target; try done.
  match goal with
  | |- context [p ?k ?kt ?vs ?ty ?x ?c0] =>
      pose proof (Hp k kt vs ty x c0 (keyed_tail_of _ _ _ _ _ Hk Htail)) as Hin;
      by destruct (p k kt vs ty x c0) as [[e|] y c1|msg|]
  end.
Qed.

Lemma parsePtr_in_range p : in_range p -> in_range (parsePtr p).
Proof.
  intros Hp key keytail values t target c Htail. unfold parsePtr.
  destruct (reflect.Elem t) as [te|]; [|done]. destruct target; try done.
  match goal with
  | |- context [p ?k ?kt ?vs ?ty ?x ?c0] =>
      pose proof (Hp k kt vs ty x c0 Htail) as Hin;
      by destruct (p k kt vs ty x c0) as [e y c1|msg|]
  end.
Qed.

Lemma parseSlice_loop_in_range p kp te target i rest slice c :
  in_range p -> i + length rest <= length slice ->
  index_panic (parseSlice_loop p kp te target i rest slice c) = false.
Proof.
  intros Hp. revert i slice c.
  induction rest as [|x rest IH]; intros i slice c Hlen; simpl; [done|].
  simpl in Hlen.
  destruct (lookup_lt_is_Some_2 slice i) as [el ->]; [lia|].
  pose proof (Hp (parseSlice_key kp i) "" [x] te el c (tail_of_empty _)) as Hin.
  destruct (p _ _ _ _ _ _) as [[e|] y c1|msg|]; try done.
  apply IH. rewrite length_insert. lia.
Qed.

Lemma parseSlice_in_range p : in_range p -> in_range (parseSlice p).
Proof.
  intros Hp key keytail values t target c Htail. unfold parseSlice.
  case_decide; [by apply fail_in_range|].
  destruct (reflect.Elem t) as [te|]; [|done].
  destruct (tail_of_kpath _ _ Htail) as [kp ->].
  apply parseSlice_loop_in_range; [done|]. by rewrite length_replicate.
Qed.

Lemma parseStructField_in_range (f : handler -> parser) sc key sk keytail
    values t target c :
  (forall h, in_range (f h)) -> tail_of keytail key ->
  index_panic (parseStructField decls f sc key sk keytail values t target c)
  = false.
Proof.
  intros Hf Htail. unfold parseStructField.
  destruct (sc !! sk) as [l|]; [|by apply fail_in_range].
  destruct target; try done.
  destruct (reflect.Fields decls t !! cacheLine.offset l) as [sf|]; [|done].
  match goal with
  | |- context [f ?h ?k ?kt ?vs ?ty ?x ?c0] =>
      pose proof (Hf h k kt vs ty x c0 Htail) as Hin;
      by destruct (f h k kt vs ty x c0) as [e y c1|msg|]
  end.
Qed.

Lemma parseStruct_in_range (f : handler -> parser) :
  (forall h, in_range (f h)) -> in_range (parseStruct decls f).
Proof.
  intros Hf key keytail values t target c Htail. unfold parseStruct.
  pose proof (keyed_in_range t key keytail Htail) as Hno.
  destruct (keyed t key keytail) as [[err|[sk skt]]|msg] eqn:Hk;
    [done| |by destruct (Hno msg)].
  destruct (cacheStruct decls t c) as [[err|sc] c1]; [done|].
  apply parseStructField_in_range; [done|].
  by apply (keyed_tail_of _ _ _ _ _ Hk).
Qed.

Lemma parse_in_range n : in_range (parse n) /\ forall h, in_range (call n h).
Proof.
  induction n as [|n [IHp IHc]].
  { split; [|intros h]; by intros key keytail values t target c _. }
  split.
  - intros key keytail values t target c. rewrite parse_S.
    destruct (textual t); [apply parseTextUnmarshaler_in_range|].
    destruct (reflect.Kind_of t); try done;
      first [ apply parseBool_in_range | apply parseInt_in_range
            | apply parseUint_in_range | apply parseFloat_in_range
            | apply parseString_in_range
            | by apply parseMap_in_range | by apply parsePtr_in_range
            | by apply parseSlice_in_range | by apply parseStruct_in_range ].
  - intros h key keytail values t target c. rewrite call_S.
    destruct h;
      first [ apply parseTextUnmarshaler_in_range
            | apply parseBool_in_range | apply parseInt_in_range
            | apply parseUint_in_range | apply parseFloat_in_range
            | apply parseString_in_range
            | by apply parseMap_in_range | by apply parsePtr_in_range
            | by apply parseSlice_in_range | by apply parseStruct_in_range ].
Qed.

(** X4. The index and slice expressions of the package are in range in
    every run of [Parse]: whatever the pairs, the target and the cache,
    [Parse] does not panic on [values[0]] (the arity check comes first),
    on [key[:l-t]] of [kpath] (every tail handed down is a tail of the
    key) or on [slice.Index(i)] of [parseSlice]. *)
Theorem Parse_indexes_in_range
    (fuel : nat) (params : list (string * list string))
    (target : option (reflect.rtype * reflect.value)) (c : Cache) :
  index_panic (Parse fuel params target c) = false.
Proof.
  unfold param.Parse. destruct (_ || _).
  { destruct (reflect.VType _); [|done]. by destruct target as [[ty x]|]. }
  destruct (reflect.VElem _) as [[t el]|]; [|done].
  destruct (cacheStruct decls t c) as [[err|sc] c1]; [done|].
  assert (H : index_panic (Parse_loop fuel sc params t el c1) = false).
  { revert el c1. induction params as [|[key values] rest IH]; intros el c1;
      simpl; [done|].
    pose proof (split_key_append key) as Hkey.
    destruct (split_key key) as [sk keytail]. simpl in Hkey.
    pose proof (parseStructField_in_range (call fuel) sc key sk keytail values
                  t el c1 (proj2 (parse_in_range fuel))
                  (ex_intro _ sk Hkey)) as Hin.
    destruct (parseStructField _ _ _ _ _ _ _ _ _ _) as [[e|] y c2|msg|];
      done. }
  by destruct (Parse_loop fuel sc params t el c1) as [e y c2|msg|].
Qed.

End KeyPaths.

(** *** Leaves *)

Section Leaves.

Variable decls : reflect.Decls.
Variable ParseFloat : string -> Z -> strconv.NumErr + Z.
Variable UnmarshalText :
  reflect.rtype -> string -> reflect.value -> option string * reflect.value.

Local Abbreviation parse := (parse decls ParseFloat UnmarshalText).
Local Abbreviation parse_S := (parse_S decls ParseFloat UnmarshalText).

Lemma primitive_one key t v : primitive key "" t [v] = Ok None.
Proof. reflexivity. Qed.

Lemma primitive_Ok_None key keytail t values :
  primitive key keytail t values = Ok None ->
  keytail = "" /\ exists v, values = [v].
Proof.
  intros [-> Hl]%primitive_None. split; [done|].
  destruct values as [|v [|w values]]; try done. by exists v.
Qed.

Lemma literals_disjoint v : true_literal v -> false_literal v -> False.
Proof. intros [->| [->| ->]] [H|[H|H]]; discriminate. Qed.



Lemma ParseUint_loop_bound s maxVal n u :
  (0 <= n <= maxVal)%Z ->
  strconv.ParseUint_loop s maxVal n = inr u -> (0 <= u <= maxVal)%Z.
Proof.
  revert n. induction s as [|a s IH]; intros n Hn; simpl.
  { by intros [= <-]. }
  destruct (_ && _); [|discriminate].
  destruct (_ <=? n)%Z; [discriminate|].
  destruct (orb _ _) eqn:Hor; [discriminate|].
  apply orb_false_elim in Hor as [_ Hmax]. apply Z.ltb_ge in Hmax.
  apply IH. split; [|done]. apply Z.mod_pos_bound. lia.
Qed.

Lemma ParseUint_bound s bitSize u :
  (0 < bitSize)%Z ->
  strconv.ParseUint s bitSize = inr u -> (0 <= u < 2 ^ bitSize)%Z.
Proof.
  intros Hb. unfold strconv.ParseUint. destruct (String.eqb s ""); [discriminate|].
  destruct (Z.eqb_spec bitSize 0); [lia|].
  intros H%ParseUint_loop_bound; [lia|].
  assert (0 < 2 ^ bitSize)%Z by (apply Z.pow_pos_nonneg; lia). lia.
Qed.

Lemma ParseInt_bound s bitSize i :
  (0 < bitSize)%Z ->
  strconv.ParseInt s bitSize = inr i ->
  (- 2 ^ (bitSize - 1) <= i < 2 ^ (bitSize - 1))%Z.
Proof.
  intros Hb. unfold strconv.ParseInt. destruct s as [|a s]; [discriminate|].
  destruct (strconv.ParseUint _ bitSize) as [[]|un] eqn:Hu; try discriminate.
  apply (ParseUint_bound _ _ _ Hb) in Hu.
  destruct (Z.eqb_spec bitSize 0); [lia|].
  assert (0 < 2 ^ (bitSize - 1))%Z by (apply Z.pow_pos_nonneg; lia).
  destruct (Ascii.eqb a "-"); simpl.
  - destruct (Z.ltb_spec (2 ^ (bitSize - 1)) un); [discriminate|].
    intros [= <-]. lia.
  - destruct (Z.leb_spec (2 ^ (bitSize - 1)) un); [discriminate|].
    intros [= <-]. lia.
Qed.

Lemma Bits_positive t bits :
  reflect.Bits t = Some bits -> (0 < bits)%Z.
Proof.
  unfold reflect.Bits, strconv.IntSize.
  destruct (reflect.Kind_of t); intros [= <-]; lia.
Qed.

(** X7. What an integer slot is given fits its width: when the call
    returns nil the tail is empty, there is one value, and the slot holds
    the integer [strconv.ParseInt] read from it for the bit size of the
    slot's type, which lies between [-2^(bits-1)] and [2^(bits-1) - 1]. *)
Theorem int_slot_holds_a_value_of_its_width
    (fuel : nat) (t : reflect.rtype) (key keytail : string)
    (values : list string) (target v' : reflect.value) (c c' : Cache) :
  textual t = false -> int_kind t = true ->
  parse (S fuel) key keytail values t target c = Return None v' c' ->
  exists bits v i,
    reflect.Bits t = Some bits /\ keytail = "" /\ values = [v]
    /\ strconv.ParseInt v bits = inr i /\ v' = reflect.VInt i
    /\ (- 2 ^ (bits - 1) <= i < 2 ^ (bits - 1))%Z /\ c' = c.
Proof.
  intros Ht Hk. rewrite parse_S, Ht. unfold int_kind in Hk.
  assert (Hp : parseInt key keytail values t target c = Return None v' c' ->
    exists bits v i,
      reflect.Bits t = Some bits /\ keytail = "" /\ values = [v]
      /\ strconv.ParseInt v bits = inr i /\ v' = reflect.VInt i
      /\ (- 2 ^ (bits - 1) <= i < 2 ^ (bits - 1))%Z /\ c' = c).
  { unfold parseInt.
    destruct (primitive key keytail t values) as [[err|]|msg] eqn:Hp;
      try discriminate.
    apply primitive_Ok_None in Hp as [-> [v ->]].
    destruct (reflect.Bits t) as [bits|] eqn:Hb; [|discriminate].
    destruct (strconv.ParseInt v bits) as [e|i] eqn:Hi.
    { unfold at_kpath. by rewrite kpath_empty_tail. }
    unfold reflect.SetInt.
    destruct (reflect.Kind_of t); try discriminate; intros [= <- <-];
      exists bits, v, i; repeat split; try done;
      apply (ParseInt_bound v bits i (Bits_positive _ _ Hb) Hi). }
  destruct (reflect.Kind_of t); try discriminate; exact Hp.
Qed.

(** X8. What an unsigned slot is given fits its width: when the call
    returns nil the tail is empty, there is one value, and the slot holds
    the number [strconv.ParseUint] read from it for the bit size of the
    slot's type, which lies between [0] and [2^bits - 1]. *)
Theorem uint_slot_holds_a_value_of_its_width
    (fuel : nat) (t : reflect.rtype) (key keytail : string)
    (values : list string) (target v' : reflect.value) (c c' : Cache) :
  textual t = false -> uint_kind t = true ->
  parse (S fuel) key keytail values t target c = Return None v' c' ->
  exists bits v u,
    reflect.Bits t = Some bits /\ keytail = "" /\ values = [v]
    /\ strconv.ParseUint v bits = inr u /\ v' = reflect.VUint u
    /\ (0 <= u < 2 ^ bits)%Z /\ c' = c.
Proof.
  intros Ht Hk. rewrite parse_S, Ht. unfold uint_kind in Hk.
  assert (Hp : parseUint key keytail values t target c = Return None v' c' ->
    exists bits v u,
      reflect.Bits t = Some bits /\ keytail = "" /\ values = [v]
      /\ strconv.ParseUint v bits = inr u /\ v' = reflect.VUint u
      /\ (0 <= u < 2 ^ bits)%Z /\ c' = c).
  { unfold parseUint.
    destruct (primitive key keytail t values) as [[err|]|msg] eqn:Hp;
      try discriminate.
    apply primitive_Ok_None in Hp as [-> [v ->]].
    destruct (reflect.Bits t) as [bits|] eqn:Hb; [|discriminate].
    destruct (strconv.ParseUint v bits) as [e|u] eqn:Hu.
    { unfold at_kpath. by rewrite kpath_empty_tail. }
    unfold reflect.SetUint.
    destruct (reflect.Kind_of t); try discriminate; intros [= <- <-];
      exists bits, v, u; repeat split; try done;
      apply (ParseUint_bound v bits u (Bits_positive _ _ Hb) Hu). }
  destruct (reflect.Kind_of t); try discriminate; exact Hp.
Qed.


Lemma set_or_panic_nil r c e v' c' :
  set_or_panic r c = Return e v' c' -> e = None.
Proof. destruct r; simpl; congruence. Qed.

Lemma fail_target r target c e v' c' :
  fail r target c = Return e v' c' -> v' = target /\ c' = c.
Proof. destruct r; simpl; [|discriminate]. by intros [= _ <- <-]. Qed.

(** X9. A failed decode of a plain leaf writes nothing: when the call on
    a slot of boolean, integer, unsigned, float or string kind (without
    [UnmarshalText]) returns an error, whichever it is, the slot holds what
    it held and the cache is the one the call was given. *)
Theorem plain_leaf_failure_leaves_the_slot
    (fuel : nat) (t : reflect.rtype) (key keytail : string)
    (values : list string) (target v' : reflect.value) (c c' : Cache)
    (err : error) :
  plain_leaf t = true ->
  parse (S fuel) key keytail values t target c = Return (Some err) v' c' ->
  v' = target /\ c' = c.
Proof.
  unfold plain_leaf, leaf_shaped. rewrite parse_S.
  destruct (textual t); [discriminate|]. simpl.
  assert (Hset : forall r, set_or_panic r c = Return (Some err) v' c' ->
                           v' = target /\ c' = c)
    by (by intros r H%set_or_panic_nil).
  destruct (reflect.Kind_of t); try discriminate; intros _;
    unfold parseBool, parseInt, parseUint, parseFloat, parseString;
    (destruct (primitive key keytail t values) as [[e|]|msg];
       [by intros [= _ <- <-]| |discriminate]);
    (destruct values as [|v values]; [discriminate|]);
    try (destruct (reflect.Bits t); [|discriminate]);
    try (destruct (decide _); [apply Hset|]);
    try (destruct (decide _); [apply Hset|]);
    try (destruct (strconv.ParseInt _ _); [|apply Hset]);
    try (destruct (strconv.ParseUint _ _); [|apply Hset]);
    try (destruct (ParseFloat _ _); [|apply Hset]);
    first [apply fail_target | apply Hset].
Qed.

End Leaves.

(** *** Containers *)

Section Containers.

Variable decls : reflect.Decls.
Variable ParseFloat : string -> Z -> strconv.NumErr + Z.
Variable UnmarshalText :
  reflect.rtype -> string -> reflect.value -> option string * reflect.value.

Local Abbreviation parse := (parse decls ParseFloat UnmarshalText).
Local Abbreviation call := (call decls ParseFloat UnmarshalText).
Local Abbreviation Parse := (Parse decls ParseFloat UnmarshalText).
Local Abbreviation Parse_loop :=
  (Parse_loop decls ParseFloat UnmarshalText).
Local Abbreviation parse_S := (parse_S decls ParseFloat UnmarshalText).
Local Abbreviation call_S := (call_S decls ParseFloat UnmarshalText).

Lemma parse_unsupported n key keytail values t target c :
  unsupported t = true ->
  parse (S n) key keytail values t target c
  = Return (Some (InvalidParseError t NoHint)) target c.
Proof.
  unfold unsupported. rewrite parse_S.
  destruct (textual t); [discriminate|]. simpl.
  by destruct (reflect.Kind_of t).
Qed.

Lemma extractHandler_supported s sf :
  unsupported (reflect.Typ sf) = false -> exists h, extractHandler s sf = inr h.
Proof.
  unfold unsupported, extractHandler. fold (textual (reflect.Typ sf)).
  destruct (textual (reflect.Typ sf)); [by eexists|]. simpl.
  destruct (reflect.Kind_of (reflect.Typ sf)); try discriminate; by eexists.
Qed.

(** X10. The two dispatch tables agree.  For a field of a shape neither
    has a case for, [extractHandler] fails with an Invalid-shape error
    naming the field and its struct, and the dispatcher [parse] fails on
    a slot of that type with an Invalid-shape error, leaving slot and
    cache alone; for every other field [extractHandler] yields a parse
    function, and calling it on a slot of the field's type is calling
    [parse]. *)
Theorem dispatch_tables_agree (s : reflect.rtype) (sf : reflect.StructField) :
  (unsupported (reflect.Typ sf) = true
   /\ extractHandler s sf
      = inl (InvalidParseError s (HintField (reflect.Name sf) s))
   /\ forall n key keytail values target c,
        parse (S n) key keytail values (reflect.Typ sf) target c
        = Return (Some (InvalidParseError (reflect.Typ sf) NoHint)) target c)
  \/ (unsupported (reflect.Typ sf) = false
      /\ exists h,
           extractHandler s sf = inr h
           /\ forall n key keytail values target c,
                call (S n) h key keytail values (reflect.Typ sf) target c
                = parse (S n) key keytail values (reflect.Typ sf) target c).
Proof.
  destruct (unsupported (reflect.Typ sf)) eqn:Hu.
  - left. split; [done|]. split; [by apply extractHandler_unsupported|].
    intros n key keytail values target c. by apply parse_unsupported.
  - right. split; [done|].
    destruct (extractHandler_supported s sf Hu) as [h Hh]. exists h.
    split; [done|]. intros n key keytail values target c.
    by apply call_extractHandler with (s := s).
Qed.

(** X11. Decoding into a map slot with keys of string kind.  When the
    call returns nil the tail was "[k]rest", the element was decoded,
    with the rest of the tail, into a zero value of the element type, and
    the slot holds the map it held (the empty one if it was nil) with that
    element put under [k].  When the call returns an error the entries of
    the map are those it had: nothing is added, removed or replaced,
    though a nil map may have become an empty one. *)
Theorem map_decode_touches_one_key
    (fuel : nat) (t tk te : reflect.rtype) (key keytail : string)
    (values : list string) (m : option (gmap string reflect.value))
    (c c' : Cache) (e : option error) (v' : reflect.value) :
  textual t = false ->
  reflect.Key t = Some tk -> reflect.Elem t = Some te ->
  reflect.Kind_of tk = reflect.String ->
  parse (S fuel) key keytail values t (reflect.VMap m) c = Return e v' c' ->
  (e = None ->
     exists k rest val',
       keytail = "[" +:+ k +:+ "]" +:+ rest
       /\ parse fuel key rest values te (reflect.Zero te) c
          = Return None val' c'
       /\ v' = reflect.VMap (Some (<[k := val']> (entries m))))
  /\ (e ≠ None -> exists m', v' = reflect.VMap m' /\ entries m' = entries m).
Proof.
  intros Ht Hk He Hs. destruct (Key_Some _ _ Hk) as [Hm _].
  rewrite parse_S, Ht, Hm. unfold parseMap. rewrite Hk, He.
  destruct (keyed t key keytail) as [[err|[mapkey maptail]]|msg] eqn:Hkeyed;
    [|rewrite decide_True by done|discriminate].
  { intros [= <- <- <-]. split; [done|]. intros _. by exists m. }
  fold (entries m).
  assert (Hval : (if negb (reflect.IsValid (reflect.MapIndex (entries m) mapkey))
                     || negb (reflect.CanSet (reflect.MapIndex (entries m) mapkey))
                  then reflect.Zero te
                  else match reflect.MapIndex (entries m) mapkey with
                       | Some (e0, _) => e0
                       | None => reflect.Zero te
                       end) = reflect.Zero te).
  { unfold reflect.MapIndex. by destruct (entries m !! mapkey). }
  cbv zeta. rewrite Hval.
  destruct (parse fuel key maptail values te (reflect.Zero te) c)
    as [[err|] val' c1|msg|] eqn:Hp; try discriminate.
  - intros [= <- <- <-]. split; [done|]. intros _. by eexists.
  - intros [= <- <- <-]. split; [|done]. intros _.
    exists mapkey, maptail, val'. split; [|done].
    by apply keyed_tail in Hkeyed as [-> _].
Qed.


Lemma parseStructField_frame (f : handler -> parser) sc key sk keytail values
    t fs c e v' c' :
  parseStructField decls f sc key sk keytail values t (reflect.VStruct fs) c
  = Return e v' c' ->
  exists fs',
    v' = reflect.VStruct fs'
    /\ forall j, (forall l, sc !! sk = Some l -> cacheLine.offset l ≠ j) ->
         fs' !! j = fs !! j.
Proof.
  unfold parseStructField. destruct (sc !! sk) as [l|].
  2:{ intros [-> _]%fail_target. by exists fs. }
  destruct (reflect.Fields decls t !! cacheLine.offset l) as [sf|]; [|done].
  destruct (f _ _ _ _ _ _ _) as [e1 f1 c1|msg|]; try done.
  intros [= <- <- <-]. eexists. split; [done|].
  intros j Hj. rewrite lookup_insert_ne; [done|]. by apply Hj.
Qed.

Lemma Parse_loop_frame fuel sc params t fs c e v' c' :
  Parse_loop fuel sc params t (reflect.VStruct fs) c = Return e v' c' ->
  exists fs',
    v' = reflect.VStruct fs'
    /\ forall j,
         (forall key values l, (key, values) ∈ params ->
            sc !! (split_key key).1 = Some l -> cacheLine.offset l ≠ j) ->
         fs' !! j = fs !! j.
Proof.
  revert fs c. induction params as [|[key values] rest IH]; intros fs c; simpl.
  { intros [= <- <- <-]. by exists fs. }
  destruct (split_key key) as [sk keytail] eqn:Hsplit.
  destruct (parseStructField _ _ _ _ _ _ _ _ _ _) as [e1 v1 c1|msg|] eqn:Hf;
    try done.
  destruct (parseStructField_frame _ _ _ _ _ _ _ _ _ _ _ _ Hf)
    as (fs1 & -> & Hfs1).
  assert (Hhead : forall j,
            (forall key0 values0 l, (key0, values0) ∈ (key, values) :: rest ->
               sc !! (split_key key0).1 = Some l -> cacheLine.offset l ≠ j) ->
            fs1 !! j = fs !! j).
  { intros j Hj. apply Hfs1. intros l Hl.
    apply (Hj key values l); [apply elem_of_cons; by left|].
    by rewrite Hsplit. }
  destruct e1 as [err|].
  - intros [= <- <- <-]. exists fs1. split; [done|]. exact Hhead.
  - intros Hrest. destruct (IH _ _ Hrest) as (fs' & -> & Hfs').
    exists fs'. split; [done|]. intros j Hj.
    rewrite Hfs'; [by apply Hhead|].
    intros key0 values0 l Hin. apply (Hj key0 values0 l).
    apply elem_of_cons. by right.
Qed.

(** X13. [Parse] writes the fields its keys name and no other: the
    target still points to a struct when [Parse] returns (with nil or an
    error), and every field at an index that the field table gives for
    the head of no key of [params] holds what it held. *)
Theorem Parse_writes_only_the_fields_named
    (fuel : nat) (params : list (string * list string))
    (ty t : reflect.rtype) (fs : gmap nat reflect.value)
    (c c' : Cache) (e : option error) (v' : reflect.value) :
  struct_pointer ty t ->
  Parse fuel params (Some (ty, reflect.VPtr (Some (reflect.VStruct fs)))) c
  = Return e v' c' ->
  exists fs',
    v' = reflect.VPtr (Some (reflect.VStruct fs'))
    /\ forall sc j,
         (cacheStruct decls t c).1 = inr sc ->
         (forall key values l, (key, values) ∈ params ->
            sc !! (split_key key).1 = Some l -> cacheLine.offset l ≠ j) ->
         fs' !! j = fs !! j.
Proof.
  intros Hp. rewrite (Parse_struct_pointer _ _ _ _ _ _ _ _ _ Hp).
  destruct (cacheStruct decls t c) as [[err|sc] c1].
  { intros [= <- <- <-]. by exists fs. }
  destruct (Parse_loop fuel sc params t (reflect.VStruct fs) c1)
    as [e1 v1 c2|msg|] eqn:Hloop; try done.
  intros [= <- <- <-].
  destruct (Parse_loop_frame _ _ _ _ _ _ _ _ _ Hloop) as (fs' & -> & Hfs').
  exists fs'. split; [done|]. intros sc0 j [= <-]. apply Hfs'.
Qed.

(** X14. Slices of containers are refused: with the tail "[]" and at
    least one value, a slice whose elements are maps or structs gets the
    Syntax error of its first element (missing opening bracket, at the
    path of element 0), a slice of slices the Nesting error of its first
    element; the slot and the cache are left alone. *)
Theorem slice_of_containers_is_refused
    (fuel : nat) (t te : reflect.rtype) (key path v : string)
    (values : list string) (target : reflect.value) (c : Cache) :
  textual t = false -> reflect.Kind_of t = reflect.Slice ->
  reflect.Elem t = Some te -> textual te = false ->
  kpath key "[]" = Some path ->
  (reflect.Kind_of te = reflect.Map \/ reflect.Kind_of te = reflect.Struct ->
     parse (S (S fuel)) key "[]" (v :: values) t target c
     = Return (Some (SyntaxError (path +:+ "[0]") MissingOpeningBracket ""))
         target c)
  /\ (reflect.Kind_of te = reflect.Slice ->
      parse (S (S fuel)) key "[]" (v :: values) t target c
      = Return (Some (NestingError (path +:+ "[0]") te "")) target c).
Proof.
  intros Ht Hk He Hte Hpath.
  assert (Hstep : forall err,
            parse (S fuel) (path +:+ "[0]") "" [v] te (reflect.Zero te) c
            = Return (Some err) (reflect.Zero te) c ->
            parse (S (S fuel)) key "[]" (v :: values) t target c
            = Return (Some err) target c).
  { intros err Hel. rewrite parse_S, Ht, Hk. unfold parseSlice.
    rewrite decide_False by (intros H; by apply H). rewrite He, Hpath.
    cbn [length parseSlice_loop]. rewrite replicate_S_cons.
    cbn [lookup list_lookup].
    change (parseSlice_key path 0) with (path +:+ "[0]"). by rewrite Hel. }
  split; intros Hkind; apply Hstep.
  - apply parse_no_bracket; [done|done|apply kpath_empty_tail|by left].
  - rewrite parse_S, Hte, Hkind. unfold parseSlice, at_kpath.
    rewrite decide_True by done. by rewrite kpath_empty_tail.
Qed.

End Containers.

(** *** The struct cache, continued *)

Section StructCache.

Variable decls : reflect.Decls.
Variable ParseFloat : string -> Z -> strconv.NumErr + Z.
Variable UnmarshalText :
  reflect.rtype -> string -> reflect.value -> option string * reflect.value.

Local Abbreviation parse := (parse decls ParseFloat UnmarshalText).
Local Abbreviation call := (call decls ParseFloat UnmarshalText).
Local Abbreviation Parse := (Parse decls ParseFloat UnmarshalText).
Local Abbreviation Parse_loop :=
  (Parse_loop decls ParseFloat UnmarshalText).
Local Abbreviation cacheStruct := (cacheStruct decls).
Local Abbreviation buildStruct := (buildStruct decls).
Local Abbreviation parse_S := (parse_S decls ParseFloat UnmarshalText).
Local Abbreviation call_S := (call_S decls ParseFloat UnmarshalText).

Lemma cacheStruct_loop_last t pre fs sc sc' :
  cacheStruct_loop t (length pre) fs sc = inr sc' ->
  (forall name l, sc !! name = Some l -> name ≠ "-" ->
     forall j sf, pre !! j = Some sf -> cached_field sf ->
       extractName sf = name -> j <= cacheLine.offset l) ->
  forall name l, sc' !! name = Some l -> name ≠ "-" ->
    forall j sf, (pre ++ fs) !! j = Some sf -> cached_field sf ->
      extractName sf = name -> j <= cacheLine.offset l.
Proof.
  revert pre sc. induction fs as [|sf fs IH]; intros pre sc; simpl.
  { intros [= <-]. by rewrite app_nil_r. }
  assert (Hsnoc : pre ++ sf :: fs = (pre ++ [sf]) ++ fs)
    by (by rewrite <- app_assoc).
  assert (Hlen : S (length pre) = length (pre ++ [sf]))
    by (rewrite length_app; simpl; lia).
  rewrite Hsnoc, Hlen.
  assert (Hlast : forall j sf', (pre ++ [sf]) !! j = Some sf' ->
            pre !! j = Some sf' \/ j = length pre /\ sf' = sf).
  { intros j sf' Hj. destruct (decide (j < length pre)) as [Hlt|Hge].
    - left. by rewrite lookup_app_l in Hj.
    - right. rewrite lookup_app_r in Hj by lia.
      destruct (j - length pre) as [|k] eqn:Hk; simpl in Hj; [|done].
      injection Hj as <-. split; [lia|done]. }
  destruct (_ && _) eqn:Hc.
  { intros Hloop Hsc. apply (IH _ _ Hloop).
    intros name l Hl Hname j sf' Hj Hcached Hn.
    destruct (Hlast j sf' Hj) as [Hpre|[-> ->]]; [by eapply Hsc|].
    apply cached_field_spec in Hcached. congruence. }
  destruct (decide (extractName sf ≠ "-")) as [Hname|Hname].
  - destruct (extractHandler t sf) as [e|h] eqn:Hh; [discriminate|].
    intros Hloop Hsc. apply (IH _ _ Hloop).
    intros name l Hl Hn j sf' Hj Hcached Hsf'. rewrite lookup_insert in Hl.
    destruct (decide (extractName sf = name)) as [Heq|Hne].
    + injection Hl as <-. simpl. apply lookup_lt_Some in Hj.
      rewrite length_app in Hj. simpl in Hj. lia.
    + simpl in Hl. destruct (Hlast j sf' Hj) as [Hpre|[-> ->]];
        [by eapply Hsc|contradiction].
  - intros Hloop Hsc. apply (IH _ _ Hloop).
    intros name l Hl Hn j sf' Hj Hcached Hsf'.
    destruct (Hlast j sf' Hj) as [Hpre|[-> ->]]; [by eapply Hsc|].
    destruct (decide (extractName sf = "-")); [congruence|].
    exfalso. by apply Hname.
Qed.

(** X15. What a line of a built field table points to: a field the
    table looks at, of that external name, with the parse function of its
    type; and when several fields of the struct resolve to the same
    name, the line is that of the last of them. *)
Theorem last_field_of_a_name_wins
    (t : reflect.rtype) (sc : structCache) (name : string) (l : cacheLine.t) :
  buildStruct t = inr sc -> sc !! name = Some l ->
  line_of t (reflect.Fields decls t) name l
  /\ forall j sf,
       reflect.Fields decls t !! j = Some sf -> cached_field sf ->
       extractName sf = name -> j <= cacheLine.offset l.
Proof.
  intros Hb Hl.
  pose proof (buildStruct_lines decls t sc name l Hb Hl) as Hline.
  split; [done|].
  destruct Hline as (sf0 & _ & _ & _ & Hname & _).
  apply (cacheStruct_loop_last t [] _ ∅ sc Hb); [|done|done].
  intros name' l'. by rewrite lookup_empty.
Qed.

Lemma cache_extends_refl c : cache_extends c c.
Proof. by intros t sc. Qed.

Lemma cache_extends_trans c1 c2 c3 :
  cache_extends c1 c2 -> cache_extends c2 c3 -> cache_extends c1 c3.
Proof. intros H12 H23 t sc H. by apply H23, H12. Qed.

Lemma cacheStruct_hit t c sc :
  cache_lookup c t = Some sc -> cacheStruct t c = (inr sc, c).
Proof. intros H. unfold param.cacheStruct. by rewrite H. Qed.

Lemma cacheStruct_extends t c r c' :
  cacheStruct t c = (r, c') ->
  cache_extends c c'
  /\ forall sc, r = inr sc -> cache_lookup c' t = Some sc.
Proof.
  unfold param.cacheStruct. destruct (cache_lookup c t) as [sc|] eqn:Hl.
  { intros [= <- <-]. split; [apply cache_extends_refl|]. by intros ? [= <-]. }
  destruct (buildStruct t) as [e|sc]; intros [= <- <-].
  { split; [apply cache_extends_refl|done]. }
  split.
  - intros t' sc' H. unfold cache_store. simpl.
    case_decide as Ht; [|done]. subst t'. congruence.
  - intros ? [= <-]. unfold cache_store. simpl. by rewrite decide_True.
Qed.

(** X16. A built table is published once: when [cacheStruct] returns a
    table, the cache it leaves has that table under the struct type and
    every entry the cache had; and from then on, in that cache or in any
    cache that keeps its entries, [cacheStruct] returns the same table
    and leaves the cache as it is. *)
Theorem cacheStruct_publishes_once
    (t : reflect.rtype) (c c' : Cache) (sc : structCache) :
  cacheStruct t c = (inr sc, c') ->
  cache_lookup c' t = Some sc
  /\ cache_extends c c'
  /\ forall c'', cache_extends c' c'' -> cacheStruct t c'' = (inr sc, c'').
Proof.
  intros [Hext Hl]%cacheStruct_extends. specialize (Hl sc eq_refl).
  split; [done|]. split; [done|].
  intros c'' Hc''. apply cacheStruct_hit. by apply Hc''.
Qed.

Lemma leaf_keeps_entries (p : parser) :
  (forall key keytail values t target c e v' c',
     p key keytail values t target c = Return e v' c' -> c' = c) ->
  keeps_entries p.
Proof.
  intros Hp key keytail values t target c e v' c' Hr.
  rewrite (Hp _ _ _ _ _ _ _ _ _ Hr). apply cache_extends_refl.
Qed.

Lemma parseMap_keeps_entries p : keeps_entries p -> keeps_entries (parseMap p).
Proof.
  intros Hp key keytail values t target c e v' c'. unfold parseMap.
  destruct (keyed t key keytail) as [[err|[mapkey maptail]]|msg];
    [intros [= _ _ <-]; apply cache_extends_refl| |done].
  destruct (reflect.Key t) as [tk|]; [|done].
  destruct (reflect.Elem t) as [te|]; [|done].
  case_decide; [|intros [= _ _ <-]; apply cache_extends_refl].
  destruct target; try done.
  destruct (p _ _ _ _ _ _) as [[err|] y c1|msg|] eqn:Hcall; try done;
    intros [= _ _ <-]; by eapply Hp.
Qed.

Lemma parsePtr_keeps_entries p : keeps_entries p -> keeps_entries (parsePtr p).
Proof.
  intros Hp key keytail values t target c e v' c'. unfold parsePtr.
  destruct (reflect.Elem t) as [te|]; [|done]. destruct target; try done.
  destruct (p _ _ _ _ _ _) as [err y c1|msg|] eqn:Hcall; try done.
  intros [= _ _ <-]. by eapply Hp.
Qed.

Lemma parseSlice_keeps_entries p :
  keeps_entries p -> keeps_entries (parseSlice p).
Proof.
  intros Hp key keytail values t target c e v' c'. unfold parseSlice.
  case_decide; [intros ->%fail_cache; apply cache_extends_refl|].
  destruct (reflect.Elem t) as [te|]; [|done].
  destruct (kpath key keytail) as [kp|]; [|done].
  generalize 0 (replicate (length values) (reflect.Zero te)).
  revert c. induction values as [|x rest IH]; intros c i slice; simpl.
  - intros [= _ _ <-]. apply cache_extends_refl.
  - destruct (slice !! i) as [el|]; [|done].
    destruct (p _ _ _ _ _ _) as [[err|] y c1|msg|] eqn:Hcall; try done.
    + intros [= _ _ <-]. by eapply Hp.
    + intros Hrest. eapply cache_extends_trans; [by eapply Hp|by eapply IH].
Qed.

Lemma parseStructField_keeps_entries (f : handler -> parser) sc key sk keytail
    values t target c e v' c' :
  (forall h, keeps_entries (f h)) ->
  parseStructField decls f sc key sk keytail values t target c
  = Return e v' c' ->
  cache_extends c c'.
Proof.
  intros Hf. unfold parseStructField. destruct (sc !! sk) as [l|];
    [|intros ->%fail_cache; apply cache_extends_refl].
  destruct target; try done.
  destruct (reflect.Fields decls t !! cacheLine.offset l) as [sf|]; [|done].
  destruct (f _ _ _ _ _ _ _) as [err y c2|msg|] eqn:Hcall; try done.
  intros [= _ _ <-]. by eapply Hf.
Qed.

Lemma parseStruct_keeps_entries (f : handler -> parser) :
  (forall h, keeps_entries (f h)) -> keeps_entries (parseStruct decls f).
Proof.
  intros Hf key keytail values t target c e v' c'. unfold parseStruct.
  destruct (keyed t key keytail) as [[err|[sk skt]]|msg];
    [intros [= _ _ <-]; apply cache_extends_refl| |done].
  destruct (cacheStruct t c) as [r c1] eqn:Hc.
  destruct (cacheStruct_extends _ _ _ _ Hc) as [Hext _].
  destruct r as [err|sc]; [by intros [= _ _ <-]|].
  intros Hr. eapply cache_extends_trans; [done|].
  by eapply parseStructField_keeps_entries.
Qed.

Lemma parse_keeps_entries n :
  keeps_entries (parse n) /\ forall h, keeps_entries (call n h).
Proof.
  induction n as [|n [IHp IHc]].
  { split; [|intros h]; intros key keytail values t target c e v' c';
      discriminate. }
  split.
  - intros key keytail values t target c e v' c'. rewrite parse_S.
    destruct (textual t);
      [by apply (leaf_keeps_entries _
                   (parseTextUnmarshaler_cache UnmarshalText))|].
    destruct (reflect.Kind_of t);
      try (intros [= _ _ <-]; apply cache_extends_refl);
      first [ by apply (leaf_keeps_entries _ parseBool_cache)
            | by apply (leaf_keeps_entries _ parseInt_cache)
            | by apply (leaf_keeps_entries _ parseUint_cache)
            | by apply (leaf_keeps_entries _ (parseFloat_cache ParseFloat))
            | by apply (leaf_keeps_entries _ parseString_cache)
            | by apply parseMap_keeps_entries
            | by apply parsePtr_keeps_entries
            | by apply parseSlice_keeps_entries
            | by apply parseStruct_keeps_entries ].
  - intros h key keytail values t target c e v' c'. rewrite call_S.
    destruct h;
      first [ by apply (leaf_keeps_entries _
                          (parseTextUnmarshaler_cache UnmarshalText))
            | by apply (leaf_keeps_entries _ parseBool_cache)
            | by apply (leaf_keeps_entries _ parseInt_cache)
            | by apply (leaf_keeps_entries _ parseUint_cache)
            | by apply (leaf_keeps_entries _ (parseFloat_cache ParseFloat))
            | by apply (leaf_keeps_entries _ parseString_cache)
            | by apply parseMap_keeps_entries
            | by apply parsePtr_keeps_entries
            | by apply parseSlice_keeps_entries
            | by apply parseStruct_keeps_entries ].
Qed.

Lemma Parse_loop_keeps_entries fuel sc params t el c e v' c' :
  Parse_loop fuel sc params t el c = Return e v' c' -> cache_extends c c'.
Proof.
  revert el c. induction params as [|[key values] rest IH]; intros el c; simpl.
  { intros [= _ _ <-]. apply cache_extends_refl. }
  destruct (split_key key) as [sk keytail].
  destruct (parseStructField _ _ _ _ _ _ _ _ _ _) as [[err|] y c1|msg|] eqn:Hf;
    try done.
  - intros [= _ _ <-].
    eapply parseStructField_keeps_entries; [|exact Hf].
    apply (proj2 (parse_keeps_entries fuel)).
  - intros Hrest. eapply cache_extends_trans; [|by eapply IH].
    eapply parseStructField_keeps_entries; [|exact Hf].
    apply (proj2 (parse_keeps_entries fuel)).
Qed.

(** X17. The cache only grows: when [Parse] returns, with nil or with an
    error, every table that was published when it was called is still
    published, unchanged. *)
Theorem published_tables_stay
    (fuel : nat) (params : list (string * list string))
    (target : option (reflect.rtype * reflect.value))
    (c c' : Cache) (e : option error) (v' : reflect.value) :
  Parse fuel params target c = Return e v' c' -> cache_extends c c'.
Proof.
  unfold param.Parse. destruct (_ || _).
  { destruct (reflect.VType _); [|done]. destruct target as [[ty x]|]; [|done].
    intros [= _ _ <-]. apply cache_extends_refl. }
  destruct (reflect.VElem _) as [[t el]|]; [|done].
  destruct (cacheStruct t c) as [r c1] eqn:Hc.
  destruct (cacheStruct_extends _ _ _ _ Hc) as [Hext _].
  destruct r as [err|sc]; [by intros [= _ _ <-]|].
  destruct (Parse_loop fuel sc params t el c1) as [err y c2|msg|] eqn:Hloop;
    try done.
  intros [= _ _ <-]. eapply cache_extends_trans; [done|].
  by eapply Parse_loop_keeps_entries.
Qed.

End StructCache.

(** *** The cache is an optimisation only *)

Section Transparency.

Variable decls : reflect.Decls.
Variable ParseFloat : string -> Z -> strconv.NumErr + Z.
Variable UnmarshalText :
  reflect.rtype -> string -> reflect.value -> option string * reflect.value.

Local Abbreviation parse := (parse decls ParseFloat UnmarshalText).
Local Abbreviation call := (call decls ParseFloat UnmarshalText).
Local Abbreviation Parse := (Parse decls ParseFloat UnmarshalText).
Local Abbreviation Parse_loop :=
  (Parse_loop decls ParseFloat UnmarshalText).
Local Abbreviation cacheStruct := (cacheStruct decls).
Local Abbreviation buildStruct := (buildStruct decls).
Local Abbreviation parse_S := (parse_S decls ParseFloat UnmarshalText).
Local Abbreviation call_S := (call_S decls ParseFloat UnmarshalText).
Local Abbreviation transparent := (transparent decls).
Local Abbreviation keeps_sound := (keeps_sound decls).

Lemma same_result_fail r target c1 c2 :
  same_result (fail r target c1) (fail r target c2).
Proof. by destruct r. Qed.

Lemma same_result_set_or_panic r c1 c2 :
  same_result (set_or_panic r c1) (set_or_panic r c2).
Proof. by destruct r. Qed.

Ltac leaf_transparent :=
  intros key keytail values t target c1 c2 _ _;
  destruct (primitive key keytail t values) as [[err|]|msg]; [done| |done];
  destruct values as [|v values]; [done|].

Lemma parseTextUnmarshaler_transparent :
  transparent (parseTextUnmarshaler UnmarshalText).
Proof.
  unfold parseTextUnmarshaler. leaf_transparent.
  destruct (UnmarshalText t v target) as [[msg|] x];
    [apply same_result_fail|done].
Qed.

Lemma parseBool_transparent : transparent parseBool.
Proof.
  unfold parseBool. leaf_transparent.
  destruct (decide _); [apply same_result_set_or_panic|].
  destruct (decide _); [apply same_result_set_or_panic|apply same_result_fail].
Qed.

Lemma parseInt_transparent : transparent parseInt.
Proof.
  unfold parseInt. leaf_transparent. destruct (reflect.Bits t); [|done].
  destruct (strconv.ParseInt _ _);
    [apply same_result_fail|apply same_result_set_or_panic].
Qed.

Lemma parseUint_transparent : transparent parseUint.
Proof.
  unfold parseUint. leaf_transparent. destruct (reflect.Bits t); [|done].
  destruct (strconv.ParseUint _ _);
    [apply same_result_fail|apply same_result_set_or_panic].
Qed.

Lemma parseFloat_transparent : transparent (parseFloat ParseFloat).
Proof.
  unfold parseFloat. leaf_transparent. destruct (reflect.Bits t); [|done].
  destruct (ParseFloat _ _);
    [apply same_result_fail|apply same_result_set_or_panic].
Qed.

Lemma parseString_transparent : transparent parseString.
Proof.
  unfold parseString. leaf_transparent. apply same_result_set_or_panic.
Qed.

Lemma parseMap_transparent p : transparent p -> transparent (parseMap p).
Proof.
  intros Hp key keytail values t target c1 c2 Hs1 Hs2. unfold parseMap.
  destruct (keyed t key keytail) as [[err|[mapkey maptail]]|msg]; [done| |done].
  destruct (reflect.Key t) as [tk|]; [|done].
  destruct (reflect.Elem t) as [te|]; [|done].
  case_decide; [|done]. destruct target; try done. cbv zeta.
  match goal with
  | |- context [p ?k ?kt ?vs ?ty ?x c1] =>
      pose proof (Hp k kt vs ty x c1 c2 Hs1 Hs2) as Hsame;
      destruct (p k kt vs ty x c1) as [[e1|] y1 d1|m1|];
      destruct (p k kt vs ty x c2) as [[e2|] y2 d2|m2|]
  end; simpl in *; try done; destruct Hsame as [He Hy]; try done.
  by subst y2.
Qed.

Lemma parsePtr_transparent p : transparent p -> transparent (parsePtr p).
Proof.
  intros Hp key keytail values t target c1 c2 Hs1 Hs2. unfold parsePtr.
  destruct (reflect.Elem t) as [te|]; [|done]. destruct target; try done.
  match goal with
  | |- context [p ?k ?kt ?vs ?ty ?x c1] =>
      pose proof (Hp k kt vs ty x c1 c2 Hs1 Hs2) as Hsame;
      destruct (p k kt vs ty x c1) as [e1 y1 d1|m1|];
      destruct (p k kt vs ty x c2) as [e2 y2 d2|m2|]
  end; simpl in *; try done. destruct Hsame as [-> ->]. done.
Qed.

Lemma parseSlice_loop_transparent p kp te target rest :
  transparent p -> keeps_sound p ->
  forall i slice c1 c2,
    cache_sound decls c1 -> cache_sound decls c2 ->
    same_result (parseSlice_loop p kp te target i rest slice c1)
                (parseSlice_loop p kp te target i rest slice c2).
Proof.
  intros Hp Hk. induction rest as [|x rest IH]; intros i slice c1 c2 Hs1 Hs2;
    simpl; [done|].
  destruct (slice !! i) as [el|]; [|done].
  pose proof (Hp (parseSlice_key kp i) "" [x] te el c1 c2 Hs1 Hs2) as Hsame.
  pose proof (Hk (parseSlice_key kp i) "" [x] te el c1) as Hk1.
  pose proof (Hk (parseSlice_key kp i) "" [x] te el c2) as Hk2.
  destruct (p (parseSlice_key kp i) "" [x] te el c1) as [[e1|] y1 d1|m1|];
    destruct (p (parseSlice_key kp i) "" [x] te el c2) as [[e2|] y2 d2|m2|];
    simpl in *; try done; destruct Hsame as [He Hy]; try done.
  subst y2. apply IH; [by eapply Hk1|by eapply Hk2].
Qed.

Lemma parseSlice_transparent p :
  transparent p -> keeps_sound p -> transparent (parseSlice p).
Proof.
  intros Hp Hk key keytail values t target c1 c2 Hs1 Hs2. unfold parseSlice.
  case_decide; [apply same_result_fail|].
  destruct (reflect.Elem t) as [te|]; [|done].
  destruct (kpath key keytail) as [kp|]; [|done].
  by apply parseSlice_loop_transparent.
Qed.

Lemma parseStructField_transparent (f : handler -> parser) sc key sk keytail
    values t target c1 c2 :
  (forall h, transparent (f h)) ->
  cache_sound decls c1 -> cache_sound decls c2 ->
  same_result
    (parseStructField decls f sc key sk keytail values t target c1)
    (parseStructField decls f sc key sk keytail values t target c2).
Proof.
  intros Hf Hs1 Hs2. unfold parseStructField.
  destruct (sc !! sk) as [l|]; [|apply same_result_fail].
  destruct target; try done.
  destruct (reflect.Fields decls t !! cacheLine.offset l) as [sf|]; [|done].
  match goal with
  | |- context [f ?h ?k ?kt ?vs ?ty ?x c1] =>
      pose proof (Hf h k kt vs ty x c1 c2 Hs1 Hs2) as Hsame;
      destruct (f h k kt vs ty x c1) as [e1 y1 d1|m1|];
      destruct (f h k kt vs ty x c2) as [e2 y2 d2|m2|]
  end; simpl in *; try done. destruct Hsame as [-> ->]. done.
Qed.

Lemma parseStructField_keeps_sound (f : handler -> parser) sc key sk keytail
    values t target c e v' c' :
  (forall h, keeps_sound (f h)) -> cache_sound decls c ->
  parseStructField decls f sc key sk keytail values t target c
  = Return e v' c' ->
  cache_sound decls c'.
Proof.
  intros Hf Hs. unfold parseStructField. destruct (sc !! sk) as [l|];
    [|by intros ->%fail_cache].
  destruct target; try done.
  destruct (reflect.Fields decls t !! cacheLine.offset l) as [sf|]; [|done].
  destruct (f _ _ _ _ _ _ _) as [err y c2|msg|] eqn:Hcall; try done.
  intros [= _ _ <-]. by eapply Hf.
Qed.

Lemma parseStruct_transparent (f : handler -> parser) :
  (forall h, transparent (f h)) -> transparent (parseStruct decls f).
Proof.
  intros Hf key keytail values t target c1 c2 Hs1 Hs2. unfold parseStruct.
  destruct (keyed t key keytail) as [[err|[sk skt]]|msg]; [done| |done].
  destruct (cacheStruct t c1) as [r1 d1] eqn:Hc1.
  destruct (cacheStruct t c2) as [r2 d2] eqn:Hc2.
  destruct (cacheStruct_sound _ _ _ _ _ Hs1 Hc1) as [-> Hd1].
  destruct (cacheStruct_sound _ _ _ _ _ Hs2 Hc2) as [-> Hd2].
  destruct (buildStruct t) as [err|sc]; [done|].
  by apply parseStructField_transparent.
Qed.

Lemma parse_transparent n :
  transparent (parse n) /\ forall h, transparent (call n h).
Proof.
  induction n as [|n [IHp IHc]].
  { split; [|intros h]; by intros key keytail values t target c1 c2 _ _. }
  pose proof (proj1 (parse_keeps_sound decls ParseFloat UnmarshalText n))
    as Hsound.
  split.
  - intros key keytail values t target c1 c2. rewrite !parse_S.
    destruct (textual t); [apply parseTextUnmarshaler_transparent|].
    destruct (reflect.Kind_of t); try done;
      first [ apply parseBool_transparent | apply parseInt_transparent
            | apply parseUint_transparent | apply parseFloat_transparent
            | apply parseString_transparent
            | by apply parseMap_transparent | by apply parsePtr_transparent
            | by apply parseSlice_transparent
            | by apply parseStruct_transparent ].
  - intros h key keytail values t target c1 c2. rewrite !call_S.
    destruct h;
      first [ apply parseTextUnmarshaler_transparent
            | apply parseBool_transparent | apply parseInt_transparent
            | apply parseUint_transparent | apply parseFloat_transparent
            | apply parseString_transparent
            | by apply parseMap_transparent | by apply parsePtr_transparent
            | by apply parseSlice_transparent
            | by apply parseStruct_transparent ].
Qed.

Lemma Parse_loop_transparent fuel sc params t :
  forall el c1 c2,
    cache_sound decls c1 -> cache_sound decls c2 ->
    same_result (Parse_loop fuel sc params t el c1)
                (Parse_loop fuel sc params t el c2).
Proof.
  induction params as [|[key values] rest IH]; intros el c1 c2 Hs1 Hs2; simpl;
    [done|].
  destruct (split_key key) as [sk keytail].
  pose proof (parseStructField_transparent (call fuel) sc key sk keytail
                values t el c1 c2 (proj2 (parse_transparent fuel)) Hs1 Hs2)
    as Hsame.
  pose proof (fun e v' c' =>
                parseStructField_keeps_sound (call fuel) sc key sk keytail
                  values t el c1 e v' c'
                  (proj2 (parse_keeps_sound decls ParseFloat UnmarshalText fuel))
                  Hs1) as Hk1.
  pose proof (fun e v' c' =>
                parseStructField_keeps_sound (call fuel) sc key sk keytail
                  values t el c2 e v' c'
                  (proj2 (parse_keeps_sound decls ParseFloat UnmarshalText fuel))
                  Hs2) as Hk2.
  destruct (parseStructField decls (call fuel) sc key sk keytail values t el c1)
    as [[e1|] y1 d1|m1|];
    destruct (parseStructField decls (call fuel) sc key sk keytail values t el c2)
      as [[e2|] y2 d2|m2|];
    simpl in *; try done; destruct Hsame as [He Hy]; try done.
  subst y2. apply IH; [by eapply Hk1|by eapply Hk2].
Qed.

(** X18. The cache is an optimisation only: whatever tables are
    published when [Parse] is called, provided each is the one a build of
    its struct type yields (as every cache [Parse] leaves is), [Parse]
    returns the same error and leaves the same content in the target, or
    panics the same way. *)
Theorem cache_is_transparent
    (fuel : nat) (params : list (string * list string))
    (target : option (reflect.rtype * reflect.value)) (c1 c2 : Cache) :
  cache_sound decls c1 -> cache_sound decls c2 ->
  same_result (Parse fuel params target c1) (Parse fuel params target c2).
Proof.
  intros Hs1 Hs2. unfold param.Parse. destruct (_ || _).
  { destruct (reflect.VType _); [|done]. by destruct target as [[ty x]|]. }
  destruct (reflect.VElem _) as [[t el]|]; [|done].
  destruct (cacheStruct t c1) as [r1 d1] eqn:Hc1.
  destruct (cacheStruct t c2) as [r2 d2] eqn:Hc2.
  destruct (cacheStruct_sound _ _ _ _ _ Hs1 Hc1) as [-> Hd1].
  destruct (cacheStruct_sound _ _ _ _ _ Hs2 Hc2) as [-> Hd2].
  destruct (buildStruct t) as [err|sc]; [done|].
  pose proof (Parse_loop_transparent fuel sc params t el d1 d2 Hd1 Hd2)
    as Hsame.
  destruct (Parse_loop fuel sc params t el d1) as [e1 y1 f1|m1|];
    destruct (Parse_loop fuel sc params t el d2) as [e2 y2 f2|m2|];
    simpl in *; try done. by destruct Hsame as [-> ->].
Qed.

End Transparency.

(** *** The entry point, continued *)

Section Entry.

Variable decls : reflect.Decls.
Variable ParseFloat : string -> Z -> strconv.NumErr + Z.
Variable UnmarshalText :
  reflect.rtype -> string -> reflect.value -> option string * reflect.value.

Local Abbreviation parse := (parse decls ParseFloat UnmarshalText).
Local Abbreviation call := (call decls ParseFloat UnmarshalText).
Local Abbreviation Parse := (Parse decls ParseFloat UnmarshalText).
Local Abbreviation Parse_loop :=
  (Parse_loop decls ParseFloat UnmarshalText).
Local Abbreviation cacheStruct := (cacheStruct decls).
Local Abbreviation parse_S := (parse_S decls ParseFloat UnmarshalText).

Lemma Parse_loop_app fuel sc p1 p2 t el c :
  Parse_loop fuel sc (p1 ++ p2) t el c
  = match Parse_loop fuel sc p1 t el c with
    | Return None el' c' => Parse_loop fuel sc p2 t el' c'
    | o => o
    end.
Proof.
  revert el c. induction p1 as [|[key values] p1 IH]; intros el c; simpl;
    [done|].
  destruct (split_key key) as [sk keytail].
  by destruct (parseStructField _ _ _ _ _ _ _ _ _ _) as [[err|] y c1|msg|].
Qed.

(** X19. [Parse] takes the pairs one after the other and stops at the
    first that fails: on a list of pairs followed by another, it does
    what it does on the first list and, if that returns nil, what it then
    does on the second, called on the target and the cache the first run
    left.  So the fields that the pairs before a failing one set stay set
    when [Parse] returns the error. *)
Theorem Parse_runs_the_pairs_in_sequence
    (fuel : nat) (p1 p2 : list (string * list string))
    (ty t : reflect.rtype) (el : reflect.value) (c : Cache) :
  struct_pointer ty t ->
  Parse fuel (p1 ++ p2) (Some (ty, reflect.VPtr (Some el))) c
  = match Parse fuel p1 (Some (ty, reflect.VPtr (Some el))) c with
    | Return None x' c' => Parse fuel p2 (Some (ty, x')) c'
    | o => o
    end.
Proof.
  intros Hp. rewrite !(Parse_struct_pointer _ _ _ _ _ _ _ _ _ Hp).
  destruct (cacheStruct t c) as [[err|sc] c1] eqn:Hc; [done|].
  rewrite Parse_loop_app.
  destruct (cacheStruct_extends _ _ _ _ _ Hc) as [_ Hl].
  specialize (Hl sc eq_refl).
  destruct (Parse_loop fuel sc p1 t el c1) as [[err|] el' c2|msg|] eqn:Hloop;
    try done.
  rewrite (Parse_struct_pointer _ _ _ _ _ _ _ _ _ Hp).
  apply Parse_loop_keeps_entries in Hloop.
  by rewrite (cacheStruct_hit _ _ _ _ (Hloop _ _ Hl)).
Qed.

(** X20. A key that names no field is a Key error.  At the top level:
    when the head of the first key is not in the field table of the
    target's struct, [Parse] returns a Key error carrying the key and
    that head, looks at no other pair and leaves the target as it was.
    In a nested struct: when the bracket segment [k] is not in the field
    table, the call returns a Key error carrying the key, the path up to
    and including the segment, and [k]; the slot is left as it was. *)
Theorem unknown_field_is_a_key_error
    (fuel : nat) (t : reflect.rtype) (sc : structCache) (c c1 : Cache) :
  cacheStruct t c = (inr sc, c1) ->
  (forall ty el key values more,
     struct_pointer ty t -> sc !! (split_key key).1 = None ->
     Parse fuel ((key, values) :: more) (Some (ty, reflect.VPtr (Some el))) c
     = Return (Some (KeyError key (split_key key).1 t (split_key key).1))
         (reflect.VPtr (Some el)) c1)
  /\ (forall key k rest path values target,
        textual t = false -> reflect.Kind_of t = reflect.Struct ->
        strings.IndexRune k "]" = (-1)%Z -> kpath key rest = Some path ->
        sc !! k = None ->
        parse (S fuel) key ("[" +:+ k +:+ "]" +:+ rest) values t target c
        = Return (Some (KeyError key path t k)) target c1).
Proof.
  intros Hc. split.
  - intros ty el key values more Hp Hnone.
    rewrite (Parse_struct_pointer _ _ _ _ _ _ _ _ _ Hp), Hc.
    cbn [param.Parse_loop].
    pose proof (split_key_kpath key) as Hpath.
    destruct (split_key key) as [sk keytail]. simpl in *.
    unfold parseStructField, at_kpath. by rewrite Hnone, Hpath.
  - intros key k rest path values target Ht Hk Hseg Hpath Hnone.
    rewrite parse_S, Ht, Hk. unfold parseStruct.
    rewrite (keyed_segment _ _ _ _ Hseg), Hc.
    unfold parseStructField, at_kpath. by rewrite Hnone, Hpath.
Qed.

Lemma Parse_loop_nil_heads fuel sc params t el c v' c' :
  Parse_loop fuel sc params t el c = Return None v' c' ->
  forall key values, (key, values) ∈ params ->
    is_Some (sc !! (split_key key).1).
Proof.
  revert el c. induction params as [|[key values] rest IH]; intros el c; simpl.
  { intros _ key values Hin. by apply elem_of_nil in Hin. }
  destruct (split_key key) as [sk keytail] eqn:Hsplit.
  destruct (parseStructField _ _ _ _ _ _ _ _ _ _) as [[err|] y c1|msg|] eqn:Hf;
    try done.
  intros Hrest key0 values0 [[= -> ->]|Hin]%elem_of_cons.
  - rewrite Hsplit. simpl. unfold parseStructField in Hf.
    destruct (sc !! sk) as [l|]; [done|]. by destruct (at_kpath _ _ _).
  - by eapply IH.
Qed.

(** X25. No key is passed over: when [Parse] returns nil, the field
    table of the target's struct was built and the head of every key of
    [params] is a name of that table. *)
Theorem Parse_ignores_no_key
    (fuel : nat) (params : list (string * list string))
    (ty t : reflect.rtype) (el v' : reflect.value) (c c' : Cache) :
  struct_pointer ty t ->
  Parse fuel params (Some (ty, reflect.VPtr (Some el))) c = Return None v' c' ->
  exists sc,
    (cacheStruct t c).1 = inr sc
    /\ forall key values, (key, values) ∈ params ->
         is_Some (sc !! (split_key key).1).
Proof.
  intros Hp. rewrite (Parse_struct_pointer _ _ _ _ _ _ _ _ _ Hp).
  destruct (cacheStruct t c) as [[err|sc] c1]; [done|].
  destruct (Parse_loop fuel sc params t el c1) as [[err|] y c2|msg|] eqn:Hloop;
    try done.
  intros _. exists sc. split; [done|]. by eapply Parse_loop_nil_heads.
Qed.

End Entry.

(** ** The further properties at the types of the tests *)

(** X2 at a slot of type [map[string]int]. *)
Lemma container_needs_a_bracket_segment_witness :
  let t := reflect.TMap reflect.TString Fixture.int in
  Fixture.parse 1 "Map" "" ["1"] t (reflect.VMap None) []
  = Return (Some (SyntaxError "Map" MissingOpeningBracket ""))
      (reflect.VMap None) []
  /\ Fixture.parse 1 "Map[a" "[a" ["1"] t (reflect.VMap None) []
     = Return (Some (SyntaxError "Map" MissingClosingBracket "a"))
         (reflect.VMap None) [].
Proof.
  cbv zeta. split.
  - apply (proj1 (container_needs_a_bracket_segment Fixture.decls
                    Fixture.ParseFloat Fixture.UnmarshalText 0
                    (reflect.TMap reflect.TString Fixture.int)
                    "Map" "" "Map" ["1"] (reflect.VMap None) []
                    eq_refl (or_introl eq_refl) eq_refl)).
    by left.
  - apply (proj2 (container_needs_a_bracket_segment Fixture.decls
                    Fixture.ParseFloat Fixture.UnmarshalText 0
                    (reflect.TMap reflect.TString Fixture.int)
                    "Map[a" "[a" "Map" ["1"] (reflect.VMap None) []
                    eq_refl (or_introl eq_refl) eq_refl) "a");
      reflexivity.
Defined.



(** X7 at a slot of type [int8] and the value "-128". *)
Lemma int_slot_holds_a_value_of_its_width_witness :
  let t := reflect.TInt reflect.KInt8 in
  Fixture.parse 1 "I" "" ["-128"] t (reflect.VInt 0) []
  = Return None (reflect.VInt (-128)) []
  /\ exists bits v i,
       reflect.Bits t = Some bits /\ "" = "" /\ ["-128"] = [v]
       /\ strconv.ParseInt v bits = inr i
       /\ reflect.VInt (-128) = reflect.VInt i
       /\ (- 2 ^ (bits - 1) <= i < 2 ^ (bits - 1))%Z /\ [] = ([] : Cache).
Proof.
  cbv zeta.
  assert (H : Fixture.parse 1 "I" "" ["-128"] (reflect.TInt reflect.KInt8)
                (reflect.VInt 0) []
              = Return None (reflect.VInt (-128)) [])
    by (vm_compute; reflexivity).
  split; [exact H|].
  exact (int_slot_holds_a_value_of_its_width Fixture.decls Fixture.ParseFloat
           Fixture.UnmarshalText 0 (reflect.TInt reflect.KInt8) "I" ""
           ["-128"] (reflect.VInt 0) (reflect.VInt (-128)) [] []
           eq_refl eq_refl H).
Defined.

(** X8 at a slot of type [uint8] and the value "255". *)
Lemma uint_slot_holds_a_value_of_its_width_witness :
  let t := reflect.TUint reflect.KUint8 in
  Fixture.parse 1 "U" "" ["255"] t (reflect.VUint 0) []
  = Return None (reflect.VUint 255) []
  /\ exists bits v u,
       reflect.Bits t = Some bits /\ "" = "" /\ ["255"] = [v]
       /\ strconv.ParseUint v bits = inr u
       /\ reflect.VUint 255 = reflect.VUint u
       /\ (0 <= u < 2 ^ bits)%Z /\ [] = ([] : Cache).
Proof.
  cbv zeta.
  assert (H : Fixture.parse 1 "U" "" ["255"] (reflect.TUint reflect.KUint8)
                (reflect.VUint 0) []
              = Return None (reflect.VUint 255) [])
    by (vm_compute; reflexivity).
  split; [exact H|].
  exact (uint_slot_holds_a_value_of_its_width Fixture.decls Fixture.ParseFloat
           Fixture.UnmarshalText 0 (reflect.TUint reflect.KUint8) "U" ""
           ["255"] (reflect.VUint 0) (reflect.VUint 255) [] []
           eq_refl eq_refl H).
Defined.

(** X9 at a slot of type [int8] that holds 5 and the value "128". *)
Lemma plain_leaf_failure_leaves_the_slot_witness :
  let t := reflect.TInt reflect.KInt8 in
  let err := ValueError "I" t (Some (NumCause strconv.ErrRange)) in
  Fixture.parse 1 "I" "" ["128"] t (reflect.VInt 5) []
  = Return (Some err) (reflect.VInt 5) []
  /\ reflect.VInt 5 = reflect.VInt 5 /\ [] = ([] : Cache).
Proof.
  cbv zeta.
  assert (H : Fixture.parse 1 "I" "" ["128"] (reflect.TInt reflect.KInt8)
                (reflect.VInt 5) []
              = Return (Some (ValueError "I" (reflect.TInt reflect.KInt8)
                                (Some (NumCause strconv.ErrRange))))
                  (reflect.VInt 5) [])
    by (vm_compute; reflexivity).
  split; [exact H|].
  exact (plain_leaf_failure_leaves_the_slot Fixture.decls Fixture.ParseFloat
           Fixture.UnmarshalText 0 (reflect.TInt reflect.KInt8) "I" ""
           ["128"] (reflect.VInt 5) (reflect.VInt 5) [] [] _ eq_refl H).
Defined.


(** X11 at a nil slot of type [map[string]int] and the key [Map[a]]. *)
Lemma map_decode_touches_one_key_witness :
  let t := reflect.TMap reflect.TString Fixture.int in
  Fixture.parse 2 "Map[a]" "[a]" ["1"] t (reflect.VMap None) []
  = Return None (reflect.VMap (Some {[ "a" := reflect.VInt 1 ]})) []
  /\ exists k rest val',
       "[a]" = "[" +:+ k +:+ "]" +:+ rest
       /\ Fixture.parse 1 "Map[a]" rest ["1"] Fixture.int (reflect.VInt 0) []
          = Return None val' []
       /\ reflect.VMap (Some {[ "a" := reflect.VInt 1 ]})
          = reflect.VMap (Some (<[k := val']> (entries None))).
Proof.
  cbv zeta.
  assert (H : Fixture.parse 2 "Map[a]" "[a]" ["1"]
                (reflect.TMap reflect.TString Fixture.int)
                (reflect.VMap None) []
              = Return None (reflect.VMap (Some {[ "a" := reflect.VInt 1 ]})) [])
    by (vm_compute; reflexivity).
  split; [exact H|].
  exact (proj1 (map_decode_touches_one_key Fixture.decls Fixture.ParseFloat
                  Fixture.UnmarshalText 1
                  (reflect.TMap reflect.TString Fixture.int) reflect.TString
                  Fixture.int "Map[a]" "[a]" ["1"] None [] [] None _
                  eq_refl eq_refl eq_refl eq_refl H) eq_refl).
Defined.


(** X13 at a [Sub] whose field [B] holds 9 and a pair for [A]. *)
Lemma Parse_writes_only_the_fields_named_witness :
  let fs : gmap nat reflect.value := {[ 1 := reflect.VInt 9 ]} in
  let target := Some (reflect.TPtr Fixture.Sub,
                      reflect.VPtr (Some (reflect.VStruct fs))) in
  let v' := reflect.VPtr (Some (reflect.VStruct
              {[ 0 := reflect.VInt 1; 1 := reflect.VInt 9 ]})) in
  let c' := (cacheStruct Fixture.decls Fixture.Sub []).2 in
  struct_pointer (reflect.TPtr Fixture.Sub) Fixture.Sub
  /\ Fixture.Parse 1 [("A", ["1"])] target [] = Return None v' c'
  /\ exists fs',
       v' = reflect.VPtr (Some (reflect.VStruct fs'))
       /\ forall sc j,
            (cacheStruct Fixture.decls Fixture.Sub []).1 = inr sc ->
            (forall key values l, (key, values) ∈ [("A", ["1"])] ->
               sc !! (split_key key).1 = Some l -> cacheLine.offset l ≠ j) ->
            fs' !! j = fs !! j.
Proof.
  cbv zeta.
  assert (Hp : struct_pointer (reflect.TPtr Fixture.Sub) Fixture.Sub)
    by (by repeat split).
  assert (H : Fixture.Parse 1 [("A", ["1"])]
                (Some (reflect.TPtr Fixture.Sub,
                       reflect.VPtr (Some (reflect.VStruct
                                             {[ 1 := reflect.VInt 9 ]})))) []
              = Return None
                  (reflect.VPtr (Some (reflect.VStruct
                     {[ 0 := reflect.VInt 1; 1 := reflect.VInt 9 ]})))
                  (cacheStruct Fixture.decls Fixture.Sub []).2)
    by (vm_compute; reflexivity).
  split; [exact Hp|]. split; [exact H|].
  exact (Parse_writes_only_the_fields_named Fixture.decls Fixture.ParseFloat
           Fixture.UnmarshalText 1 [("A", ["1"])] (reflect.TPtr Fixture.Sub)
           Fixture.Sub {[ 1 := reflect.VInt 9 ]} [] _ None _ Hp H).
Defined.

(** X14 at a slot of type [[]Sub]. *)
Lemma slice_of_containers_is_refused_witness :
  Fixture.parse 2 "S[]" "[]" ["1"] (reflect.TSlice Fixture.Sub)
    (reflect.VSlice None) []
  = Return (Some (SyntaxError "S[0]" MissingOpeningBracket ""))
      (reflect.VSlice None) [].
Proof.
  apply (proj1 (slice_of_containers_is_refused Fixture.decls Fixture.ParseFloat
                  Fixture.UnmarshalText 0 (reflect.TSlice Fixture.Sub)
                  Fixture.Sub "S[]" "S" "1" [] (reflect.VSlice None) []
                  eq_refl eq_refl eq_refl eq_refl eq_refl)).
  right. reflexivity.
Defined.

(** X15 at the struct with two fields named "x": the line is that of the
    second. *)
Lemma last_field_of_a_name_wins_witness :
  let sc : structCache := {[ "x" := cacheLine.mk 1 fn_parseString ]} in
  let l := cacheLine.mk 1 fn_parseString in
  buildStruct Shadowed.decls Shadowed.Shadow = inr sc
  /\ sc !! "x" = Some l
  /\ line_of Shadowed.Shadow
       (reflect.Fields Shadowed.decls Shadowed.Shadow) "x" l
  /\ forall j sf,
       reflect.Fields Shadowed.decls Shadowed.Shadow !! j = Some sf ->
       cached_field sf -> extractName sf = "x" -> j <= cacheLine.offset l.
Proof.
  cbv zeta.
  assert (Hb : buildStruct Shadowed.decls Shadowed.Shadow
               = inr ({[ "x" := cacheLine.mk 1 fn_parseString ]}
                      : structCache))
    by (vm_compute; reflexivity).
  assert (Hl : ({[ "x" := cacheLine.mk 1 fn_parseString ]} : structCache)
               !! "x" = Some (cacheLine.mk 1 fn_parseString))
    by (vm_compute; reflexivity).
  split; [exact Hb|]. split; [exact Hl|].
  exact (last_field_of_a_name_wins Shadowed.decls Shadowed.Shadow _ "x" _
           Hb Hl).
Defined.

(** X16 at [Sub] and the empty cache. *)
Lemma cacheStruct_publishes_once_witness :
  let sc : structCache :=
    {[ "A" := cacheLine.mk 0 fn_parseInt; "B" := cacheLine.mk 1 fn_parseInt ]} in
  let c' := [(Fixture.Sub, sc)] in
  cacheStruct Fixture.decls Fixture.Sub [] = (inr sc, c')
  /\ cache_lookup c' Fixture.Sub = Some sc
  /\ cache_extends [] c'
  /\ forall c'', cache_extends c' c'' ->
       cacheStruct Fixture.decls Fixture.Sub c'' = (inr sc, c'').
Proof.
  cbv zeta.
  assert (H : cacheStruct Fixture.decls Fixture.Sub []
              = (inr ({[ "A" := cacheLine.mk 0 fn_parseInt;
                         "B" := cacheLine.mk 1 fn_parseInt ]} : structCache),
                 [(Fixture.Sub,
                   ({[ "A" := cacheLine.mk 0 fn_parseInt;
                       "B" := cacheLine.mk 1 fn_parseInt ]} : structCache))]))
    by (vm_compute; reflexivity).
  split; [exact H|].
  exact (cacheStruct_publishes_once Fixture.decls Fixture.Sub [] _ _ H).
Defined.

(** X17 at a cache that holds the table of [Named] and a target of type
    [*Sub]. *)
Lemma published_tables_stay_witness :
  let c := (cacheStruct Fixture.decls Fixture.Named []).2 in
  let c' := (cacheStruct Fixture.decls Fixture.Sub c).2 in
  let v' := reflect.VPtr (Some (reflect.VStruct {[ 0 := reflect.VInt 1 ]})) in
  Fixture.Parse 1 [("A", ["1"])] (Fixture.new Fixture.Sub) c = Return None v' c'
  /\ cache_extends c c'.
Proof.
  cbv zeta.
  assert (H : Fixture.Parse 1 [("A", ["1"])] (Fixture.new Fixture.Sub)
                (cacheStruct Fixture.decls Fixture.Named []).2
              = Return None
                  (reflect.VPtr (Some (reflect.VStruct {[ 0 := reflect.VInt 1 ]})))
                  (cacheStruct Fixture.decls Fixture.Sub
                     (cacheStruct Fixture.decls Fixture.Named []).2).2)
    by (vm_compute; reflexivity).
  split; [exact H|].
  exact (published_tables_stay Fixture.decls Fixture.ParseFloat
           Fixture.UnmarshalText 1 [("A", ["1"])] (Fixture.new Fixture.Sub)
           _ _ None _ H).
Defined.

(** X18 at the empty cache and the cache that holds the table of [Sub]. *)
Lemma cache_is_transparent_witness :
  let c2 := (cacheStruct Fixture.decls Fixture.Sub []).2 in
  cache_sound Fixture.decls [] /\ cache_sound Fixture.decls c2
  /\ same_result
       (Fixture.Parse 1 [("A", ["1"])] (Fixture.new Fixture.Sub) [])
       (Fixture.Parse 1 [("A", ["1"])] (Fixture.new Fixture.Sub) c2).
Proof.
  cbv zeta.
  assert (H1 : cache_sound Fixture.decls []) by apply cache_sound_nil.
  assert (H2 : cache_sound Fixture.decls
                 (cacheStruct Fixture.decls Fixture.Sub []).2).
  { destruct (cacheStruct Fixture.decls Fixture.Sub []) as [r c2] eqn:Hc.
    exact (proj2 (cacheStruct_sound Fixture.decls Fixture.Sub [] r c2 H1 Hc)). }
  split; [exact H1|]. split; [exact H2|].
  exact (cache_is_transparent Fixture.decls Fixture.ParseFloat
           Fixture.UnmarshalText 1 [("A", ["1"])] (Fixture.new Fixture.Sub)
           _ _ H1 H2).
Defined.

(** X19 at a [Sub], a pair for [A] and then a pair for [B] that fails. *)
Lemma Parse_runs_the_pairs_in_sequence_witness :
  struct_pointer (reflect.TPtr Fixture.Sub) Fixture.Sub
  /\ Fixture.Parse 1 ([("A", ["1"])] ++ [("B", ["x"])])
       (Fixture.new Fixture.Sub) []
     = match Fixture.Parse 1 [("A", ["1"])] (Fixture.new Fixture.Sub) [] with
       | Return None x' c' =>
           Fixture.Parse 1 [("B", ["x"])]
             (Some (reflect.TPtr Fixture.Sub, x')) c'
       | o => o
       end.
Proof.
  assert (Hp : struct_pointer (reflect.TPtr Fixture.Sub) Fixture.Sub)
    by (by repeat split).
  split; [exact Hp|].
  exact (Parse_runs_the_pairs_in_sequence Fixture.decls Fixture.ParseFloat
           Fixture.UnmarshalText 1 [("A", ["1"])] [("B", ["x"])]
           (reflect.TPtr Fixture.Sub) Fixture.Sub (reflect.VStruct ∅) [] Hp).
Defined.

(** X20 at [Sub], which has no field [C]. *)
Lemma unknown_field_is_a_key_error_witness :
  let sc : structCache :=
    {[ "A" := cacheLine.mk 0 fn_parseInt; "B" := cacheLine.mk 1 fn_parseInt ]} in
  let c1 := [(Fixture.Sub, sc)] in
  cacheStruct Fixture.decls Fixture.Sub [] = (inr sc, c1)
  /\ Fixture.Parse 1 [("C[x]", ["1"]); ("A", ["2"])] (Fixture.new Fixture.Sub) []
     = Return (Some (KeyError "C[x]" "C" Fixture.Sub "C"))
         (reflect.VPtr (Some (reflect.VStruct ∅))) c1
  /\ Fixture.parse 1 "S[C][x]" "[C][x]" ["1"] Fixture.Sub (reflect.VStruct ∅) []
     = Return (Some (KeyError "S[C][x]" "S[C]" Fixture.Sub "C"))
         (reflect.VStruct ∅) c1.
Proof.
  cbv zeta.
  assert (H : cacheStruct Fixture.decls Fixture.Sub []
              = (inr ({[ "A" := cacheLine.mk 0 fn_parseInt;
                         "B" := cacheLine.mk 1 fn_parseInt ]} : structCache),
                 [(Fixture.Sub,
                   ({[ "A" := cacheLine.mk 0 fn_parseInt;
                       "B" := cacheLine.mk 1 fn_parseInt ]} : structCache))]))
    by (vm_compute; reflexivity).
  split; [exact H|].
  destruct (unknown_field_is_a_key_error Fixture.decls Fixture.ParseFloat
              Fixture.UnmarshalText 0 Fixture.Sub _ [] _ H)
    as [Htop Hnested].
  split.
  - apply (Htop (reflect.TPtr Fixture.Sub) (reflect.VStruct ∅) "C[x]" ["1"]
             [("A", ["2"])]); [by repeat split|vm_compute; reflexivity].
  - apply (Hnested "S[C][x]" "C" "[x]" "S[C]" ["1"] (reflect.VStruct ∅));
      reflexivity.
Defined.

(** X22 at a target of type [*Sub] and the empty cache. *)
Lemma Parse_keeps_sound_witness :
  let c' := (cacheStruct Fixture.decls Fixture.Sub []).2 in
  let v' := reflect.VPtr (Some (reflect.VStruct {[ 0 := reflect.VInt 1 ]})) in
  cache_sound Fixture.decls []
  /\ Fixture.Parse 1 [("A", ["1"])] (Fixture.new Fixture.Sub) []
     = Return None v' c'
  /\ cache_sound Fixture.decls c'.
Proof.
  cbv zeta.
  assert (H0 : cache_sound Fixture.decls []) by apply cache_sound_nil.
  assert (H : Fixture.Parse 1 [("A", ["1"])] (Fixture.new Fixture.Sub) []
              = Return None
                  (reflect.VPtr (Some (reflect.VStruct {[ 0 := reflect.VInt 1 ]})))
                  (cacheStruct Fixture.decls Fixture.Sub []).2)
    by (vm_compute; reflexivity).
  split; [exact H0|]. split; [exact H|].
  exact (Parse_keeps_sound Fixture.decls Fixture.ParseFloat
           Fixture.UnmarshalText 1 [("A", ["1"])] (Fixture.new Fixture.Sub)
           [] None _ _ H0 H).
Defined.

(** X23 at a nil [*Sub] and at an [int]. *)
Lemma Parse_refuses_other_targets_witness :
  Fixture.Parse 0 [("A", ["1"])]
    (Some (reflect.TPtr Fixture.Sub, reflect.VPtr None)) []
  = Return (Some (InvalidParseError (reflect.TPtr Fixture.Sub)
                    (HintText "target may not be a nil pointer")))
      (reflect.VPtr None) []
  /\ Fixture.Parse 0 [("A", ["1"])] (Some (Fixture.int, reflect.VInt 0)) []
     = Return (Some (InvalidParseError Fixture.int
                       (HintText "target must be a pointer to a struct")))
         (reflect.VInt 0) [].
Proof.
  split.
  - apply (Parse_refuses_other_targets Fixture.decls Fixture.ParseFloat
             Fixture.UnmarshalText 0 [("A", ["1"])] (reflect.TPtr Fixture.Sub)
             (reflect.VPtr None) []).
    intros t el H. discriminate H.
  - apply (Parse_refuses_other_targets Fixture.decls Fixture.ParseFloat
             Fixture.UnmarshalText 0 [("A", ["1"])] Fixture.int
             (reflect.VInt 0) []).
    intros t el H. discriminate H.
Defined.

(** X25 at a [Sub] and pairs for its two fields. *)
Lemma Parse_ignores_no_key_witness :
  let params := [("A", ["1"]); ("B", ["2"])] in
  let v' := reflect.VPtr (Some (reflect.VStruct
              {[ 0 := reflect.VInt 1; 1 := reflect.VInt 2 ]})) in
  let c' := (cacheStruct Fixture.decls Fixture.Sub []).2 in
  struct_pointer (reflect.TPtr Fixture.Sub) Fixture.Sub
  /\ Fixture.Parse 1 params (Fixture.new Fixture.Sub) [] = Return None v' c'
  /\ exists sc,
       (cacheStruct Fixture.decls Fixture.Sub []).1 = inr sc
       /\ forall key values, (key, values) ∈ params ->
            is_Some (sc !! (split_key key).1).
Proof.
  cbv zeta.
  assert (Hp : struct_pointer (reflect.TPtr Fixture.Sub) Fixture.Sub)
    by (by repeat split).
  assert (H : Fixture.Parse 1 [("A", ["1"]); ("B", ["2"])]
                (Fixture.new Fixture.Sub) []
              = Return None
                  (reflect.VPtr (Some (reflect.VStruct
                     {[ 0 := reflect.VInt 1; 1 := reflect.VInt 2 ]})))
                  (cacheStruct Fixture.decls Fixture.Sub []).2)
    by (vm_compute; reflexivity).
  split; [exact Hp|]. split; [exact H|].
  exact (Parse_ignores_no_key Fixture.decls Fixture.ParseFloat
           Fixture.UnmarshalText 1 [("A", ["1"]); ("B", ["2"])]
           (reflect.TPtr Fixture.Sub) Fixture.Sub (reflect.VStruct ∅) _ [] _
           Hp H).
Defined.
